(** * Copy-on-write small vector ([src/vector.h])

    A shallow embedding of the C++ template [vector<T>] and of its nested
    [bigvector] (the reference-counted buffer) and [storage] (the heap
    block).  The heap is explicit, so that two buffers that share a block
    really alias it.  Every member function is a computation in a state
    and exception monad whose third outcome, [Undef], stands for undefined
    behaviour of the C++ program (a null or dangling dereference, a read of
    an indeterminate value, an access outside the allocated slots).

    What the model fixes:
    - [size_t] has 64 bits, and its arithmetic wraps around;
    - [operator new] always succeeds, and an address that was freed is not
      handed out again; [make_storage(cp)] gives a block of [cp] slots,
      its byte count [sizeof(storage) + sizeof(T) * cp] being taken
      without wrap-around, and statements in which the caller chooses
      [cp] ask that the count [fits];
    - a pointer is the address of a block and an offset into its slots;
      pointers into different blocks have no difference;
    - the copy constructor and the copy assignment of [T] throw for the
      same values, and a throwing copy leaves its target as it was; moves
      and swaps of elements do not throw;
    - assigning to a slot that holds no object (as [std::fill_n] does on
      fresh storage) runs the copy assignment: it throws when the copy
      throws, and otherwise gives the slot the value.  C++ defines the
      latter for a trivially copyable [T] only, and statements in which
      such an assignment succeeds are for a [TriviallyCopyable] type;
    - [bigvector::clear] calls a [resize] of one argument, which the
      source does not declare: that function is a parameter. *)

From Stdlib Require Import ZArith String.
From stdpp Require Import gmap list.

Local Open Scope Z_scope.

(** ** The element type

    [T] is a template parameter.  What the container needs from it is a
    copy constructor and copy assignment (which may throw), [operator==]
    and value initialisation [T()]. *)

Class Element (T : Type) := {
  copy_throws : T → bool;   (* copying this value throws *)
  equal : T → T → bool;     (* operator== *)
  value_init : T            (* T() *)
}.

(** ** [size_t] *)

Definition size_max : Z := 2 ^ 64.
Definition wrap (z : Z) : Z := z mod size_max.

(** ** Trivially copyable element types

    For such a [T] a copy cannot throw, and assigning to a slot in which
    no object has been constructed, or whose object has been destroyed,
    is defined and stores a copy.  For any other [T], [std::fill_n] in
    [bigvector::resize_job] assigns to slots that hold no object, which
    is undefined. *)


(** ** Sizes in bytes

    [sizeof(T)] and [sizeof(storage)], both at least 1.  [make_storage]
    asks [operator new] for [sizeof(storage) + sizeof(T) * cp] bytes,
    computed in [size_t]; the request is for [cp] slots as long as this
    count does not wrap around, which is what [fits] says. *)

Class Layout (T : Type) := {
  sizeof_T : positive;         (* sizeof(T) *)
  sizeof_storage : positive    (* sizeof(storage) *)
}.

Definition storage_bytes (T : Type) `{Layout T} (cp : Z) : Z :=
  Z.pos sizeof_storage + Z.pos sizeof_T * cp.

Definition fits (T : Type) `{Layout T} (cp : Z) : Prop :=
  storage_bytes T cp < size_max.

(** ** Exceptions and outcomes *)

Inductive exn :=
| runtime_error (what : string)
| bad_variant_access
| element_exception.

Inductive res (S A : Type) :=
| Ret (a : A) (s : S)
| Raise (e : exn) (s : S)
| Undef.
Arguments Ret {S A} a s.
Arguments Raise {S A} e s.
Arguments Undef {S A}.

Definition M (S A : Type) : Type := S → res S A.

Definition ret {S A} (a : A) : M S A := fun s => Ret a s.
Definition bind {S A B} (m : M S A) (k : A → M S B) : M S B :=
  fun s => match m s with
           | Ret a s' => k a s'
           | Raise e s' => Raise e s'
           | Undef => Undef
           end.
Definition throw {S A} (e : exn) : M S A := fun s => Raise e s.
Definition undef {S A} : M S A := fun _ => Undef.
Definition get_state {S} : M S S := fun s => Ret s s.

(** [try { m } catch (...) { h }] *)
Definition try_catch {S A} (m : M S A) (h : exn → M S A) : M S A :=
  fun s => match m s with
           | Raise e s' => h e s'
           | r => r
           end.

(** [m], and then [cleanup] whether [m] returned or threw: the destructor
    of a local object at the end of its scope. *)
Definition finally {S A} (m : M S A) (cleanup : M S unit) : M S A :=
  fun s => match m s with
           | Ret a s' =>
               match cleanup s' with
               | Ret _ s'' => Ret a s''
               | Raise e s'' => Raise e s''
               | Undef => Undef
               end
           | Raise e s' =>
               match cleanup s' with
               | Ret _ s'' => Raise e s''
               | Raise e' s'' => Raise e' s''
               | Undef => Undef
               end
           | Undef => Undef
           end.

(** Running a computation on a component of the state. *)
Definition zoom {S S' A} (get : S → S') (set : S' → S → S) (m : M S' A) : M S A :=
  fun s => match m (get s) with
           | Ret a s' => Ret a (set s' s)
           | Raise e s' => Raise e (set s' s)
           | Undef => Undef
           end.

Declare Scope cpp_scope.
Delimit Scope cpp_scope with cpp.
Notation "x <- m ;; k" := (bind m (fun x => k))
  (at level 100, m at next level, right associativity) : cpp_scope.
Notation "m ;; k" := (bind m (fun _ => k))
  (at level 100, right associativity) : cpp_scope.
Local Open Scope cpp_scope.

(** ** Memory

    A block is a [storage] header followed by [cp] element slots.  A header
    field or slot that was never written is [None].  A freed address stays
    in the map as [None] and is never handed out again, so a dangling
    pointer is recognised. *)

Definition loc := positive.

Record storage (T : Type) := Storage {
  size_ : option Z;
  capacity_ : option Z;
  ref_count : option Z;
  data : list (option T)
}.
Arguments Storage {T}.
Arguments size_ {T}.
Arguments capacity_ {T}.
Arguments ref_count {T}.
Arguments data {T}.

Abbreviation heap T := (gmap loc (option (storage T))).

(** [T*]: null, a pointer to the element held inline in the variant (or one
    past it), or a pointer into the slots of a block. *)
Inductive ptr :=
| nullptr
| inline_at (k : Z)
| data_at (l : loc) (k : Z).

Global Instance ptr_eq_dec : EqDecision ptr.
Proof. solve_decision. Defined.

Definition ptr_add {S} (p : ptr) (n : Z) : M S ptr :=
  match p with
  | nullptr => if n =? 0 then ret nullptr else undef
  | inline_at k => ret (inline_at (k + n))
  | data_at l k => ret (data_at l (k + n))
  end.

Definition ptr_diff {S} (p q : ptr) : M S Z :=
  match p, q with
  | nullptr, nullptr => ret 0
  | inline_at i, inline_at j => ret (i - j)
  | data_at l i, data_at m j => if decide (l = m) then ret (i - j) else undef
  | _, _ => undef
  end.

(** ** Ordering of the elements

    The relational operators of the vector need [operator<] of [T]. *)

Class Ordered (T : Type) := {
  less : T → T → bool       (* operator< *)
}.

Section Heap.
Context {T : Type} `{Element T}.

Definition live (l : loc) : M (heap T) (storage T) :=
  fun h => match h !! l with
           | Some (Some b) => Ret b h
           | _ => Undef
           end.

Definition update (l : loc) (f : storage T → storage T) : M (heap T) unit :=
  b <- live l ;; fun h => Ret tt (<[l := Some (f b)]> h).

Definition known {A} (o : option A) : M (heap T) A :=
  match o with Some a => ret a | None => undef end.

Definition rd_size (l : loc) : M (heap T) Z := b <- live l ;; known (size_ b).
Definition rd_capacity (l : loc) : M (heap T) Z := b <- live l ;; known (capacity_ b).
Definition rd_ref_count (l : loc) : M (heap T) Z := b <- live l ;; known (ref_count b).

Definition wr_size (l : loc) (v : Z) : M (heap T) unit :=
  update l (fun b => Storage (Some v) (capacity_ b) (ref_count b) (data b)).
Definition wr_capacity (l : loc) (v : Z) : M (heap T) unit :=
  update l (fun b => Storage (size_ b) (Some v) (ref_count b) (data b)).
Definition wr_ref_count (l : loc) (v : Z) : M (heap T) unit :=
  update l (fun b => Storage (size_ b) (capacity_ b) (Some v) (data b)).

(** [operator new(sizeof(storage) + sizeof(T) * cp)]: a new block with
    room for the header and [cp] slots.  The allocation itself is taken
    to succeed, and the byte count is taken as written, without the
    wrap-around of [size_t]: the block is the one the source gets for
    every [cp] with [fits T cp].  Where the caller chooses the capacity
    ([reserve], [resize], the fill constructor), statements carry
    [fits]. *)
Definition make_storage (cp : Z) : M (heap T) loc :=
  fun h => let l := fresh (dom h) in
           Ret l (<[l := Some (Storage None None None (replicate (Z.to_nat cp) None))]> h).

Definition operator_delete (l : loc) : M (heap T) unit :=
  _ <- live l ;; fun h => Ret tt (<[l := None]> h).

(** The slot a pointer designates, when it lies inside a live block. *)
Definition slot (p : ptr) : M (heap T) (loc * nat * storage T) :=
  match p with
  | data_at l k =>
      b <- live l ;;
      if (0 <=? k) && (k <? Z.of_nat (length (data b)))
      then ret (l, Z.to_nat k, b) else undef
  | _ => undef
  end.

Definition put_slot (p : ptr) (v : option T) : M (heap T) unit :=
  s <- slot p ;;
  let '(l, i, _) := s in
  update l (fun b => Storage (size_ b) (capacity_ b) (ref_count b) (<[i := v]> (data b))).

(** Reading [*p]. *)
Definition load (p : ptr) : M (heap T) T :=
  s <- slot p ;;
  let '(_, i, b) := s in
  match data b !! i with
  | Some (Some v) => ret v
  | _ => undef
  end.

(** [new (p) T(v)] *)
Definition construct_at (p : ptr) (v : T) : M (heap T) unit :=
  _ <- slot p ;;
  if copy_throws v then throw element_exception else put_slot p (Some v).

(** [*p = v], copy assignment: it throws when the copy does, and
    otherwise the slot holds [v].  The slot may hold an object or none;
    for a slot that holds none this is what the source does for a
    [TriviallyCopyable] type, and statements about [fill_n] on new slots
    are for such types. *)
Definition assign_at (p : ptr) (v : T) : M (heap T) unit :=
  _ <- slot p ;;
  if copy_throws v then throw element_exception else put_slot p (Some v).

(** [std::destroy_at(p)] *)
Definition destroy_at (p : ptr) : M (heap T) unit := put_slot p None.

(** [std::destroy(first, first + n)] *)
Fixpoint destroy_n (first : ptr) (n : nat) : M (heap T) unit :=
  match n with
  | O => ret tt
  | S n' => destroy_at first ;; p <- ptr_add first 1 ;; destroy_n p n'
  end.

(** The length of the range [[first, last)]; a range that runs backwards
    is no range. *)
Definition distance (first last : ptr) : M (heap T) nat :=
  n <- ptr_diff last first ;;
  if n <? 0 then undef else ret (Z.to_nat n).

Definition destroy (first last : ptr) : M (heap T) unit :=
  n <- distance first last ;; destroy_n first n.

(** [std::uninitialized_copy(first, first + n, d_first)]: constructs the
    copies one by one, front to back; when a copy throws, the copies made
    so far are destroyed and the exception is rethrown. *)
Fixpoint uninitialized_copy_n (first : ptr) (n : nat) (d_first cur : ptr)
  : M (heap T) unit :=
  match n with
  | O => ret tt
  | S n' =>
      v <- load first ;;
      try_catch (construct_at cur v)
        (fun e => destroy d_first cur ;; throw e) ;;
      first' <- ptr_add first 1 ;;
      cur' <- ptr_add cur 1 ;;
      uninitialized_copy_n first' n' d_first cur'
  end.

Definition uninitialized_copy (first last d_first : ptr) : M (heap T) unit :=
  n <- distance first last ;;
  uninitialized_copy_n first n d_first d_first.

(** [std::fill_n(first, n, v)]: assigns, front to back. *)
Fixpoint fill_n (first : ptr) (n : nat) (v : T) : M (heap T) unit :=
  match n with
  | O => ret tt
  | S n' => assign_at first v ;; p <- ptr_add first 1 ;; fill_n p n' v
  end.

(** [std::move(first, first + n, d_first)], the algorithm: moves front to
    back.  Moving an element is taken not to throw. *)
Fixpoint move_n (first : ptr) (n : nat) (d_first : ptr) : M (heap T) unit :=
  match n with
  | O => ret tt
  | S n' =>
      v <- load first ;;
      put_slot d_first (Some v) ;;
      first' <- ptr_add first 1 ;;
      d' <- ptr_add d_first 1 ;;
      move_n first' n' d'
  end.

Definition move (first last d_first : ptr) : M (heap T) unit :=
  n <- distance first last ;; move_n first n d_first.

(** Reading the [n] elements from [first] on. *)
Fixpoint load_n (first : ptr) (n : nat) : M (heap T) (list T) :=
  match n with
  | O => ret []
  | S n' =>
      v <- load first ;;
      p <- ptr_add first 1 ;;
      vs <- load_n p n' ;;
      ret (v :: vs)
  end.

Fixpoint store_n (first : ptr) (vs : list T) : M (heap T) unit :=
  match vs with
  | [] => ret tt
  | v :: vs' => put_slot first (Some v) ;; p <- ptr_add first 1 ;; store_n p vs'
  end.

(** [std::rotate(first, middle, last)]: the elements of [[middle, last)]
    come first, those of [[first, middle)] after them.  It works by
    swapping elements, taken not to throw. *)
Definition rotate (first middle last : ptr) : M (heap T) unit :=
  n1 <- distance first middle ;;
  n2 <- distance middle last ;;
  xs <- load_n first n1 ;;
  ys <- load_n middle n2 ;;
  store_n first (ys ++ xs).

(** [std::equal(first1, last1, first2, last2)] on random access
    iterators: the lengths first, then the elements until two differ.
    [ld1] and [ld2] read through an iterator of the first and of the
    second range. *)
Fixpoint equal_n (ld1 ld2 : ptr → M (heap T) T) (first1 first2 : ptr) (n : nat)
  : M (heap T) bool :=
  match n with
  | O => ret true
  | S n' =>
      x <- ld1 first1 ;;
      y <- ld2 first2 ;;
      if equal x y
      then p <- ptr_add first1 1 ;; q <- ptr_add first2 1 ;; equal_n ld1 ld2 p q n'
      else ret false
  end.

Definition std_equal (ld1 ld2 : ptr → M (heap T) T) (first1 last1 first2 last2 : ptr)
  : M (heap T) bool :=
  n1 <- distance first1 last1 ;;
  n2 <- distance first2 last2 ;;
  if decide (n1 = n2) then equal_n ld1 ld2 first1 first2 n1 else ret false.



(** [std::lexicographical_compare(first1, last1, first2, last2)] on ranges
    of [n1] and [n2] elements: the first pair of elements of which one is
    less than the other decides; when one range runs out first, the
    shorter range is the smaller. *)
Context `{Ordered T}.

Fixpoint lexicographical_compare_n (ld1 ld2 : ptr → M (heap T) T)
    (first1 first2 : ptr) (n1 n2 : nat) : M (heap T) bool :=
  match n1, n2 with
  | O, O => ret false
  | O, S _ => ret true
  | S _, O => ret false
  | S n1', S n2' =>
      x <- ld1 first1 ;;
      y <- ld2 first2 ;;
      if less x y then ret true
      else if less y x then ret false
      else
        p <- ptr_add first1 1 ;; q <- ptr_add first2 1 ;;
        lexicographical_compare_n ld1 ld2 p q n1' n2'
  end.

Definition lexicographical_compare (ld1 ld2 : ptr → M (heap T) T)
    (first1 last1 first2 last2 : ptr) : M (heap T) bool :=
  n1 <- distance first1 last1 ;;
  n2 <- distance first2 last2 ;;
  lexicographical_compare_n ld1 ld2 first1 first2 n1 n2.

End Heap.

(** ** [struct bigvector]: the reference-counted buffer

    The state of a member function is the heap together with the [store]
    member of [*this]. *)

Record bigvector_state (T : Type) := BigVector {
  mem : heap T;
  store : option loc
}.
Arguments BigVector {T}.
Arguments mem {T}.
Arguments store {T}.

Abbreviation B T := (M (bigvector_state T)).

Module bigvector.
Section Methods.
Context {T : Type} `{Element T}.
Local Abbreviation B := (B T).

(** A heap operation, run from inside a member function. *)
Definition hp {A} (m : M (heap T) A) : B A :=
  zoom mem (fun h s => BigVector h (store s)) m.

Definition get_store : B (option loc) := fun s => Ret (store s) s.
Definition set_store (p : option loc) : B unit := fun s => Ret tt (BigVector (mem s) p).

(** [store->], which needs [store] not to be null. *)
Definition deref : B loc :=
  st <- get_store ;; match st with Some l => ret l | None => undef end.

(** [a || b] *)
Definition or_else {S} (a b : M S bool) : M S bool :=
  x <- a ;; if x then ret true else b.

(* Iterator stuff *)

Definition begin : B ptr :=
  st <- get_store ;;
  match st with Some l => ret (data_at l 0) | None => ret nullptr end.

Definition end_ : B ptr :=
  st <- get_store ;;
  match st with
  | Some l => sz <- hp (rd_size l) ;; ret (data_at l sz)
  | None => ret nullptr
  end.

Definition size : B Z :=
  st <- get_store ;;
  match st with Some l => hp (rd_size l) | None => ret 0 end.

Definition capacity : B Z :=
  st <- get_store ;;
  match st with Some l => hp (rd_capacity l) | None => ret 0 end.

Definition unique_copy : B unit :=
  st <- get_store ;;
  alone <- match st with
           | None => ret true
           | Some l => rc <- hp (rd_ref_count l) ;; ret (rc =? 1)
           end ;;
  if alone then ret tt else
  l <- deref ;;
  cap <- hp (rd_capacity l) ;;
  tmp <- hp (make_storage cap) ;;
  try_catch
    (b <- begin ;; e <- end_ ;; hp (uninitialized_copy b e (data_at tmp 0)))
    (fun e => hp (operator_delete tmp) ;; throw e) ;;
  sz <- hp (rd_size l) ;; hp (wr_size tmp sz) ;;
  cap <- hp (rd_capacity l) ;; hp (wr_capacity tmp cap) ;;
  hp (wr_ref_count tmp 1) ;;
  rc <- hp (rd_ref_count l) ;; hp (wr_ref_count l (wrap (rc - 1))) ;;
  set_store (Some tmp).

(* Constructors *)

(** [bigvector(bigvector const &other)], giving the new object's [store]. *)
Definition copy_ctor (other : option loc) : M (heap T) (option loc) :=
  match other with
  | Some l => rc <- rd_ref_count l ;; wr_ref_count l (wrap (rc + 1)) ;; ret other
  | None => ret other
  end.

(** [bigvector(InputIterator beg, InputIterator en)], on the elements
    [xs] of the range.  The copy reads [begin()] and [end()] of the
    object under construction, and no header field is set. *)
Definition range_ctor (xs : list T) : B unit :=
  let len := Z.of_nat (length xs) in
  if len <=? 0 then set_store None
  else
    tmp <- hp (make_storage len) ;;
    set_store (Some tmp) ;;
    try_catch
      (b <- begin ;; e <- end_ ;; hp (uninitialized_copy b e (data_at tmp 0)))
      (fun e => hp (operator_delete tmp) ;; throw e).

(** [operator=(bigvector const &other)] *)
Definition assign (other : option loc) : B unit :=
  st <- get_store ;;
  if decide (other = st) then ret tt else
  match st with
  | Some l =>
      b <- begin ;; e <- end_ ;; hp (destroy b e) ;;
      hp (operator_delete l)
  | None =>
      l <- deref ;;
      rc <- hp (rd_ref_count l) ;; hp (wr_ref_count l (wrap (rc - 1)))
  end ;;
  set_store other ;;
  match other with
  | Some l => rc <- hp (rd_ref_count l) ;; hp (wr_ref_count l (wrap (rc + 1)))
  | None => ret tt
  end.

(** [~bigvector()] *)
Definition dtor : B unit :=
  st <- get_store ;;
  match st with
  | Some l =>
      rc <- hp (rd_ref_count l) ;;
      if rc >? 1 then hp (wr_ref_count l (wrap (rc - 1)))
      else b <- begin ;; e <- end_ ;; hp (destroy b e) ;; hp (operator_delete l)
  | None => ret tt
  end.

(* Operators *)

(** [T &operator[](size_t index)]: the reference is a pointer. *)
Definition index_mut (index : Z) : B ptr :=
  st <- get_store ;;
  bad <- match st with
         | Some l => sz <- hp (rd_size l) ;; ret (index >=? sz)
         | None => ret false
         end ;;
  if bad then throw (runtime_error "vector index out of range") else
  unique_copy ;;
  l <- deref ;;
  ret (data_at l index).

(** [T const &operator[](size_t index) const] *)
Definition index_const (index : Z) : B ptr :=
  st <- get_store ;;
  bad <- match st with
         | Some l => sz <- hp (rd_size l) ;; ret (index >=? sz)
         | None => ret false
         end ;;
  if bad then throw (runtime_error "vector index out of range") else
  l <- deref ;;
  ret (data_at l index).

(** A const member function called on the object whose [store] is [st]. *)
Definition on_object {A} (st : option loc) (m : B A) : M (heap T) A :=
  fun h => match m (BigVector h st) with
           | Ret a s => Ret a (mem s)
           | Raise e s => Raise e (mem s)
           | Undef => Undef
           end.

(** [operator==(bigvector const &a, bigvector const &b)] *)
Definition eq (a b : option loc) : M (heap T) bool :=
  if decide (a = b) then ret true else
  la <- on_object a deref ;; sa <- rd_size la ;;
  lb <- on_object b deref ;; sb <- rd_size lb ;;
  if negb (sa =? sb) then ret false else
  ba <- on_object a begin ;; ea <- on_object a end_ ;;
  bb <- on_object b begin ;; eb <- on_object b end_ ;;
  std_equal load load ba ea bb eb.

(* Methods *)

Definition front_mut : B ptr := unique_copy ;; index_mut 0.
Definition front_const : B ptr := index_const 0.

Definition back_mut : B ptr :=
  unique_copy ;;
  l <- deref ;; sz <- hp (rd_size l) ;;
  index_mut (wrap (sz - 1)).

Definition back_const : B ptr :=
  l <- deref ;; sz <- hp (rd_size l) ;;
  index_const (wrap (sz - 1)).

(** The recurring end of a reallocation, written out in each function of
    the source: [if (store->ref_count == 1) { std::destroy(begin(), end());
    operator delete(store); } else { store->ref_count--; }]. *)
Definition release (l : loc) : B unit :=
  rc <- hp (rd_ref_count l) ;;
  if rc =? 1
  then b <- begin ;; e <- end_ ;; hp (destroy b e) ;; hp (operator_delete l)
  else hp (wr_ref_count l (wrap (rc - 1))).

Definition push_back (elem : T) : B unit :=
  grow <- or_else (sz <- size ;; cap <- capacity ;; ret (sz =? cap))
                  (l <- deref ;; rc <- hp (rd_ref_count l) ;; ret (rc >? 1)) ;;
  if grow then
    sz <- size ;; cap <- capacity ;;
    let cap_needed :=
      if sz =? cap then (if cap >? 0 then wrap (cap * 2) else 2) else cap in
    tmp <- hp (make_storage cap_needed) ;;
    try_catch
      (b <- begin ;; e <- end_ ;; hp (uninitialized_copy b e (data_at tmp 0)))
      (fun e => hp (operator_delete tmp) ;; throw e) ;;
    (* add new *)
    try_catch
      (sz <- size ;; hp (construct_at (data_at tmp sz) elem))
      (fun e =>
         sz <- size ;;
         hp (destroy (data_at tmp 0) (data_at tmp sz)) ;;
         hp (operator_delete tmp) ;; throw e) ;;
    st <- get_store ;;
    match st with
    | None => hp (wr_size tmp 1)
    | Some l =>
        sz <- hp (rd_size l) ;; hp (wr_size tmp (wrap (sz + 1))) ;;
        release l
    end ;;
    hp (wr_capacity tmp cap_needed) ;;
    hp (wr_ref_count tmp 1) ;;
    set_store (Some tmp)
  else
    l <- deref ;;
    sz <- hp (rd_size l) ;;
    hp (construct_at (data_at l sz) elem) ;;
    sz <- hp (rd_size l) ;; hp (wr_size l (wrap (sz + 1))).

Definition pop_back : B unit :=
  unique_copy ;;
  l <- deref ;;
  sz <- hp (rd_size l) ;; hp (wr_size l (wrap (sz - 1))) ;;
  hp (destroy_at (data_at l (wrap (sz - 1)))).

Definition data_mut : B ptr :=
  unique_copy ;;
  st <- get_store ;;
  match st with Some l => ret (data_at l 0) | None => ret nullptr end.

Definition data_const : B ptr :=
  st <- get_store ;;
  match st with Some l => ret (data_at l 0) | None => ret nullptr end.

Definition reserve (cap : Z) : B unit :=
  c <- capacity ;;
  if cap <=? c then ret tt else
  tmp <- hp (make_storage cap) ;;
  try_catch
    (b <- begin ;; e <- end_ ;; hp (uninitialized_copy b e (data_at tmp 0)))
    (fun e => hp (operator_delete tmp) ;; throw e) ;;
  st <- get_store ;;
  match st with
  | None => hp (wr_size tmp 0)
  | Some l => sz <- hp (rd_size l) ;; hp (wr_size tmp sz) ;; release l
  end ;;
  hp (wr_capacity tmp cap) ;;
  hp (wr_ref_count tmp 1) ;;
  set_store (Some tmp).

Definition shrink_to_fit : B unit :=
  sz <- size ;; cap <- capacity ;;
  if sz =? cap then ret tt else
  sz <- size ;;
  if sz =? 0 then
    l <- deref ;;
    rc <- hp (rd_ref_count l) ;;
    if rc =? 1
    then b <- begin ;; e <- end_ ;; hp (destroy b e) ;; hp (operator_delete l)
    else hp (wr_ref_count l (wrap (rc - 1))) ;; set_store None
  else
    l <- deref ;;
    sz <- hp (rd_size l) ;;
    tmp <- hp (make_storage sz) ;;
    try_catch
      (b <- begin ;; e <- end_ ;; hp (uninitialized_copy b e (data_at tmp 0)))
      (fun e => hp (operator_delete tmp) ;; throw e) ;;
    sz <- hp (rd_size l) ;; hp (wr_capacity tmp sz) ;;
    sz <- hp (rd_size l) ;; hp (wr_size tmp sz) ;;
    hp (wr_ref_count tmp 1) ;;
    release l ;;
    set_store (Some tmp).

Definition shorten (sz : Z) : B unit :=
  cur <- size ;;
  if sz =? cur then ret tt else
  l <- deref ;;
  rc <- hp (rd_ref_count l) ;;
  if rc =? 1 then
    b <- begin ;; first <- ptr_add b sz ;; e <- end_ ;;
    hp (destroy first e) ;;
    hp (wr_size l sz)
  else
    cap <- hp (rd_capacity l) ;;
    tmp <- hp (make_storage cap) ;;
    try_catch
      (b <- begin ;; b' <- begin ;; last <- ptr_add b' sz ;;
       hp (uninitialized_copy b last (data_at tmp 0)))
      (fun e => hp (operator_delete tmp) ;; throw e) ;;
    hp (wr_size tmp sz) ;;
    cap <- hp (rd_capacity l) ;; hp (wr_capacity tmp cap) ;;
    hp (wr_ref_count tmp 1) ;;
    rc <- hp (rd_ref_count l) ;; hp (wr_ref_count l (wrap (rc - 1))) ;;
    set_store (Some tmp).

Definition resize_job (sz : Z) (elem : T) : B unit :=
  c <- capacity ;;
  let new_cap := Z.max c sz in
  fresh_block <-
    or_else (st <- get_store ;; ret (bool_decide (st = None)))
      (or_else (c <- capacity ;; ret (new_cap >? c))
         (l <- deref ;; rc <- hp (rd_ref_count l) ;; ret (rc >? 1))) ;;
  if fresh_block then
    tmp <- hp (make_storage new_cap) ;;
    try_catch
      (b <- begin ;; e <- end_ ;; hp (uninitialized_copy b e (data_at tmp 0)))
      (fun e => hp (operator_delete tmp) ;; throw e) ;;
    try_catch
      (cur <- size ;; cur' <- size ;;
       hp (fill_n (data_at tmp cur) (Z.to_nat (wrap (sz - cur'))) elem))
      (fun _ =>
         cur <- size ;;
         hp (destroy (data_at tmp 0) (data_at tmp cur)) ;;
         hp (operator_delete tmp)) ;;
    hp (wr_size tmp sz) ;;
    hp (wr_capacity tmp new_cap) ;;
    hp (wr_ref_count tmp 1) ;;
    st <- get_store ;;
    match st with
    | Some l => release l
    | None => ret tt
    end ;;
    set_store (Some tmp)
  else
    b <- begin ;; cur <- size ;; first <- ptr_add b cur ;; cur' <- size ;;
    hp (fill_n first (Z.to_nat (wrap (sz - cur'))) elem) ;;
    l <- deref ;; hp (wr_size l sz).

Definition insert (pos : ptr) (elem : T) : B ptr :=
  b <- begin ;; d <- ptr_diff pos b ;;
  let index := wrap d in
  e <- end_ ;;
  if decide (pos = e) then
    push_back elem ;;
    b <- begin ;; ptr_add b index
  else
  grow <- or_else (sz <- size ;; cap <- capacity ;; ret (sz =? cap))
                  (l <- deref ;; rc <- hp (rd_ref_count l) ;; ret (rc >? 1)) ;;
  if grow then
    sz <- size ;; cap <- capacity ;;
    let cap_needed :=
      if sz =? cap then (if cap >? 0 then wrap (cap * 2) else 2) else cap in
    tmp <- hp (make_storage cap_needed) ;;
    try_catch
      (b <- begin ;; hp (uninitialized_copy b pos (data_at tmp 0)))
      (fun e => hp (operator_delete tmp) ;; throw e) ;;
    try_catch
      (hp (construct_at (data_at tmp index) elem))
      (fun e =>
         hp (destroy (data_at tmp 0) (data_at tmp index)) ;;
         hp (operator_delete tmp) ;; throw e) ;;
    try_catch
      (e <- end_ ;; hp (uninitialized_copy pos e (data_at tmp (index + 1))))
      (fun e =>
         hp (destroy (data_at tmp 0) (data_at tmp (index + 1))) ;;
         hp (operator_delete tmp) ;; throw e) ;;
    l <- deref ;;
    sz <- hp (rd_size l) ;; hp (wr_size tmp (wrap (sz + 1))) ;;
    hp (wr_capacity tmp cap_needed) ;;
    hp (wr_ref_count tmp 1) ;;
    release l ;;
    set_store (Some tmp) ;;
    b <- begin ;; ptr_add b index
  else
    e <- end_ ;;
    hp (construct_at e elem) ;;
    l <- deref ;;
    sz <- hp (rd_size l) ;; hp (wr_size l (wrap (sz + 1))) ;;
    b <- begin ;; first <- ptr_add b index ;;
    e <- end_ ;; middle <- ptr_add e (-1) ;;
    last <- end_ ;;
    hp (rotate first middle last) ;;
    b <- begin ;; ptr_add b index.

Definition erase (beg en : ptr) : B ptr :=
  if decide (beg = en) then
    b <- begin ;; b' <- begin ;; d <- ptr_diff beg b' ;; ptr_add b d
  else
  b <- begin ;; d <- ptr_diff beg b ;;
  let left := wrap d in
  b <- begin ;; d <- ptr_diff en b ;;
  let right := wrap d in
  e <- end_ ;;
  if decide (en = e) then
    unique_copy ;;
    b <- begin ;; first <- ptr_add b left ;; e <- end_ ;;
    hp (destroy first e) ;;
    l <- deref ;;
    sz <- hp (rd_size l) ;; hp (wr_size l (wrap (sz - wrap (right - left)))) ;;
    b <- begin ;; ptr_add b left
  else
  l <- deref ;;
  rc <- hp (rd_ref_count l) ;;
  if rc >? 1 then
    cap <- hp (rd_capacity l) ;;
    tmp <- hp (make_storage cap) ;;
    try_catch
      (b <- begin ;; hp (uninitialized_copy b beg (data_at tmp 0)))
      (fun _ => hp (operator_delete tmp)) ;;
    try_catch
      (e <- end_ ;; hp (uninitialized_copy en e (data_at l left)))
      (fun e =>
         hp (destroy (data_at tmp 0) (data_at tmp left)) ;;
         hp (operator_delete tmp) ;; throw e) ;;
    sz <- hp (rd_size l) ;; hp (wr_size tmp (wrap (wrap (sz - right) + left))) ;;
    cap <- hp (rd_capacity l) ;; hp (wr_capacity tmp cap) ;;
    hp (wr_ref_count tmp 1) ;;
    rc <- hp (rd_ref_count l) ;;
    (if rc =? 1
     then b <- begin ;; e <- end_ ;; hp (destroy b e)
     else hp (wr_ref_count l (wrap (rc - 1)))) ;;
    set_store (Some tmp) ;;
    b <- begin ;; ptr_add b left
  else
    b <- begin ;; first <- ptr_add b right ;; e <- end_ ;;
    b' <- begin ;; d_first <- ptr_add b' left ;;
    hp (move first e d_first) ;;
    b <- begin ;; sz <- size ;;
    p <- ptr_add b sz ;; p <- ptr_add p (- right) ;; p <- ptr_add p left ;;
    e <- end_ ;;
    hp (destroy p e) ;;
    sz <- hp (rd_size l) ;; hp (wr_size l (wrap (sz - wrap (right - left)))) ;;
    b <- begin ;; ptr_add b left.

Definition resize (sz : Z) (elem : T) : B unit :=
  cur <- size ;;
  if sz <=? cur then shorten sz else resize_job sz elem.

(** [clear()] is written [resize(0)].  [bigvector] declares no [resize]
    of one argument (the only one is [resize(size_t, T const&)] above, and
    it has no default argument), so the call names a function the source
    does not have: it is a parameter here, and nothing is known of it. *)
Variable resize_1 : Z → B unit.

Definition clear : B unit := resize_1 0.


End Methods.
End bigvector.

(** ** [struct vector]: the facade

    [std::variant<std::monostate, T, bigvector> vec_data] has the
    alternatives 0 (empty), 1 (one element, held inline) and 2 (a
    [bigvector], given by its [store]). *)

Inductive variant (T : Type) :=
| monostate
| inline_elem (x : T)
| heap_buf (st : option loc).
Arguments monostate {T}.
Arguments inline_elem {T} x.
Arguments heap_buf {T} st.

Record vector_state (T : Type) := Vector {
  vmem : heap T;
  vec_data : variant T
}.
Arguments Vector {T}.
Arguments vmem {T}.
Arguments vec_data {T}.

(** A member function that declares [bigvector tmp] runs in a frame that
    holds [*this] and the local. *)
Record frame (T : Type) := Frame {
  this : vector_state T;
  tmp_store : option loc
}.
Arguments Frame {T}.
Arguments this {T}.
Arguments tmp_store {T}.

Abbreviation V T := (M (vector_state T)).
Abbreviation F T := (M (frame T)).

Module vector.
Section Methods.
Context {T : Type} `{Element T}.

Local Abbreviation B := (B T).
Local Abbreviation V := (V T).
Local Abbreviation F := (F T).

Definition hp {A} (m : M (heap T) A) : V A :=
  zoom vmem (fun h s => Vector h (vec_data s)) m.

Definition index : V Z :=
  fun s => Ret (match vec_data s with
                | monostate => 0 | inline_elem _ => 1 | heap_buf _ => 2
                end) s.

Definition set_vec_data (d : variant T) : V unit :=
  fun s => Ret tt (Vector (vmem s) d).

(** [std::get<1>(vec_data)] *)
Definition get1 : V T :=
  fun s => match vec_data s with
           | inline_elem x => Ret x s
           | _ => Raise bad_variant_access s
           end.

(** [std::get<2>(vec_data).m] *)
Definition get2 {A} (m : B A) : V A :=
  fun s => match vec_data s with
           | heap_buf st =>
               match m (BigVector (vmem s) st) with
               | Ret a b => Ret a (Vector (mem b) (heap_buf (store b)))
               | Raise e b => Raise e (Vector (mem b) (heap_buf (store b)))
               | Undef => Undef
               end
           | _ => Raise bad_variant_access s
           end.

(** The destructor of the value that [vec_data] holds. *)
Definition destroy_held : V unit :=
  fun s => match vec_data s with
           | heap_buf _ => get2 bigvector.dtor s
           | _ => Ret tt s
           end.

(** [vec_data = std::monostate()] *)
Definition assign_monostate : V unit :=
  destroy_held ;; set_vec_data monostate.

(** [vec_data = T(elem)] and [vec_data = elem]: the copy may throw, and
    then the variant is taken to keep its value. *)
Definition assign_elem (elem : T) : V unit :=
  if copy_throws elem then throw element_exception
  else destroy_held ;; set_vec_data (inline_elem elem).

(** [vec_data = b] for a [bigvector] whose [store] is [other]: assignment
    when a [bigvector] is held, else the held value is destroyed and the
    new one copy-constructed. *)
Definition assign_bigvector (other : option loc) : V unit :=
  i <- index ;;
  if i =? 2 then get2 (bigvector.assign other)
  else st <- hp (bigvector.copy_ctor other) ;; set_vec_data (heap_buf st).

(* The frame of a function with a local [bigvector tmp] *)

Definition on_this {A} (m : V A) : F A :=
  zoom this (fun v f => Frame v (tmp_store f)) m.

Definition on_tmp {A} (m : B A) : F A :=
  zoom (fun f => BigVector (vmem (this f)) (tmp_store f))
       (fun b f => Frame (Vector (mem b) (vec_data (this f))) (store b)) m.

(** [vec_data = tmp] *)
Definition assign_tmp : F unit :=
  fun f => on_this (assign_bigvector (tmp_store f)) f.

(** [{ bigvector tmp; body }]: [tmp] starts with no block and is
    destroyed when the scope is left, by a return or by an exception. *)
Definition with_tmp {A} (body : F A) : V A :=
  fun s => match finally body (on_tmp bigvector.dtor) (Frame s None) with
           | Ret a f => Ret a (this f)
           | Raise e f => Raise e (this f)
           | Undef => Undef
           end.

(** A member function called on another vector, whose [vec_data] is [d]
    and stays as it is. *)
Definition on_object {A} (d : variant T) (m : V A) : V A :=
  fun s => match m (Vector (vmem s) d) with
           | Ret a t => Ret a (Vector (vmem t) (vec_data s))
           | Raise e t => Raise e (Vector (vmem t) (vec_data s))
           | Undef => Undef
           end.

(* Constructors and assignment *)

(** [vector()] *)
Definition default_ctor : variant T := monostate.

(** [vector(vector const &other) = default], giving the new [vec_data]. *)
Definition copy_ctor (other : variant T) : M (heap T) (variant T) :=
  match other with
  | monostate => ret monostate
  | inline_elem x =>
      if copy_throws x then throw element_exception else ret (inline_elem x)
  | heap_buf st => st' <- bigvector.copy_ctor st ;; ret (heap_buf st')
  end.

(** [operator=(vector const &other) = default]: the variant assigns the
    held value when both hold the same alternative, and otherwise
    destroys its value and copy-constructs the other's. *)
Definition assign (other : variant T) : V unit :=
  match other with
  | monostate => assign_monostate
  | inline_elem x => assign_elem x
  | heap_buf st => assign_bigvector st
  end.

(** [vector(InputIterator beg, InputIterator en)] on the elements [xs] of
    the range; [vec_data] starts as [monostate].  In
    [vec_data = bigvector(beg, en)] the temporary is constructed, assigned
    and destroyed; when its constructor throws there is nothing to
    destroy. *)
Definition range_ctor (xs : list T) : V unit :=
  let len := Z.of_nat (length xs) in
  if len >? 1 then
    fun s => match bigvector.range_ctor xs (BigVector (vmem s) None) with
             | Ret _ b =>
                 finally (assign_bigvector (store b))
                   (on_object (heap_buf (store b)) destroy_held)
                   (Vector (mem b) (vec_data s))
             | Raise e b => Raise e (Vector (mem b) (vec_data s))
             | Undef => Undef
             end
  else if len =? 1 then
    match xs with
    | x :: _ => assign_elem x
    | [] => ret tt
    end
  else ret tt.

(** [assign(beg, en)]: [*this = vector(beg, en)], and the temporary is
    destroyed. *)
Definition assign_range (xs : list T) : V unit :=
  fun s => match range_ctor xs (Vector (vmem s) monostate) with
           | Ret _ t =>
               finally (assign (vec_data t))
                 (on_object (vec_data t) destroy_held)
                 (Vector (vmem t) (vec_data s))
           | Raise e t => Raise e (Vector (vmem t) (vec_data s))
           | Undef => Undef
           end.

(* Element access: a reference is a pointer *)

(** [operator[](size_t index)] *)
Definition index_mut (i : Z) : V ptr :=
  k <- index ;;
  if k =? 1 then get1 ;; ret (inline_at 0)
  else get2 (bigvector.index_mut i).

Definition index_const (i : Z) : V ptr :=
  k <- index ;;
  if k =? 1 then get1 ;; ret (inline_at 0)
  else get2 (bigvector.index_const i).

Definition front_mut : V ptr :=
  k <- index ;;
  if k =? 1 then get1 ;; ret (inline_at 0) else get2 bigvector.front_mut.

Definition front_const : V ptr :=
  k <- index ;;
  if k =? 1 then get1 ;; ret (inline_at 0) else get2 bigvector.front_const.

Definition back_mut : V ptr :=
  k <- index ;;
  if k =? 1 then get1 ;; ret (inline_at 0) else get2 bigvector.back_mut.

Definition back_const : V ptr :=
  k <- index ;;
  if k =? 1 then get1 ;; ret (inline_at 0) else get2 bigvector.back_const.

(** Reading and writing through a reference or iterator of this vector. *)
Definition read (p : ptr) : V T :=
  match p with
  | inline_at k => if k =? 0 then get1 else undef
  | _ => hp (load p)
  end.

Definition write (p : ptr) (v : T) : V unit :=
  match p with
  | inline_at k =>
      if k =? 0 then
        get1 ;;
        if copy_throws v then throw element_exception
        else set_vec_data (inline_elem v)
      else undef
  | _ => hp (assign_at p v)
  end.

Definition size : V Z :=
  k <- index ;;
  if k =? 0 then ret 0
  else if k =? 1 then ret 1
  else get2 bigvector.size.

Definition capacity : V Z :=
  k <- index ;;
  if k =? 0 then ret 0
  else if k =? 1 then ret 1
  else get2 bigvector.capacity.

Definition push_back (elem : T) : V unit :=
  k <- index ;;
  if k =? 0 then assign_elem elem
  else if k =? 1 then
    with_tmp
      (x <- on_this get1 ;;
       on_tmp (bigvector.push_back x) ;;
       on_tmp (bigvector.push_back elem) ;;
       assign_tmp)
  else get2 (bigvector.push_back elem).

Definition pop_back : V unit :=
  k <- index ;;
  if k =? 0 then throw (runtime_error "attempt to pop_back in empty vector")
  else if k =? 1 then assign_monostate
  else get2 bigvector.pop_back.

Definition data_mut : V ptr :=
  k <- index ;;
  if k =? 0 then ret nullptr
  else if k =? 1 then ret (inline_at 0)
  else get2 bigvector.data_mut.

Definition data_const : V ptr :=
  k <- index ;;
  if k =? 0 then ret nullptr
  else if k =? 1 then ret (inline_at 0)
  else get2 bigvector.data_const.

Definition begin_mut : V ptr := data_mut.
Definition end_mut : V ptr := b <- begin_mut ;; n <- size ;; ptr_add b n.
Definition begin_const : V ptr := data_const.
Definition end_const : V ptr := b <- begin_const ;; n <- size ;; ptr_add b n.

Definition empty : V bool := n <- size ;; ret (n =? 0).

Definition reserve (cap : Z) : V unit :=
  with_tmp
    (k <- on_this index ;;
     if k =? 0 then
       if cap =? 0 then ret tt
       else on_tmp (bigvector.reserve cap) ;; assign_tmp
     else if k =? 1 then
       if cap <? 1 then ret tt
       else
         x <- on_this get1 ;;
         on_tmp (bigvector.push_back x) ;;
         on_tmp (bigvector.reserve cap) ;; assign_tmp
     else on_this (get2 (bigvector.reserve cap))).

Definition shrink_to_fit : V unit :=
  k <- index ;;
  if negb (k =? 2) then ret tt
  else get2 bigvector.shrink_to_fit.

Definition resize_job (sz : Z) (elem : T) : V unit :=
  with_tmp
    (k <- on_this index ;;
     if k =? 0 then
       if sz =? 0 then ret tt
       else if sz =? 1 then on_this (assign_elem elem)
       else on_tmp (bigvector.resize sz elem) ;; assign_tmp
     else if k =? 1 then
       if sz =? 0 then on_this assign_monostate
       else if sz =? 1 then ret tt
       else
         x <- on_this get1 ;;
         on_tmp (bigvector.push_back x) ;;
         on_tmp (bigvector.resize sz elem) ;; assign_tmp
     else on_this (get2 (bigvector.resize sz elem))).

(** [resize(size_t sz)] *)
Definition resize_default (sz : Z) : V unit := resize_job sz value_init.

(** [resize(size_t sz, T const &elem)] *)
Definition resize (sz : Z) (elem : T) : V unit := resize_job sz elem.

Definition insert (pos : ptr) (val : T) : V ptr :=
  with_tmp
    (b <- on_this begin_mut ;; d <- ptr_diff pos b ;;
     let i := wrap d in
     k <- on_this index ;;
     if k =? 0 then
       on_this (assign_elem val) ;; on_this begin_mut
     else if k =? 1 then
       x <- on_this get1 ;;
       on_tmp (bigvector.push_back x) ;;
       tb <- on_tmp bigvector.begin ;; tpos <- ptr_add tb i ;;
       on_tmp (bigvector.insert tpos val) ;;
       assign_tmp ;;
       b <- on_this begin_mut ;; ptr_add b i
     else on_this (get2 (bigvector.insert pos val))).

(** [erase(const_iterator beg, const_iterator en)] *)
Definition erase (beg en : ptr) : V ptr :=
  if decide (beg = en) then
    b <- begin_mut ;; b' <- begin_mut ;; d <- ptr_diff beg b' ;; ptr_add b d
  else
  k <- index ;;
  if k =? 1 then assign_monostate ;; begin_mut
  else get2 (bigvector.erase beg en).

(** [erase(const_iterator ind)] *)
Definition erase_at (ind : ptr) : V ptr :=
  en <- ptr_add ind 1 ;; erase ind en.

(** [clear()]; [resize_1] is the one-argument [bigvector::resize] that
    [bigvector::clear] calls and the source does not declare. *)
Definition clear (resize_1 : Z → M (bigvector_state T) unit) : V unit :=
  k <- index ;;
  if negb (k =? 2) then assign_monostate
  else get2 (bigvector.clear resize_1).

(** A const member function called on the vector whose [vec_data] is
    [d]. *)
Definition as_const {A} (d : variant T) (m : V A) : M (heap T) A :=
  fun h => match m (Vector h d) with
           | Ret x s => Ret x (vmem s)
           | Raise e s => Raise e (vmem s)
           | Undef => Undef
           end.

(** [operator==(vector const &a, vector const &b)] *)
Definition eq (a b : variant T) : M (heap T) bool :=
  match a, b with
  | heap_buf sa, heap_buf sb => bigvector.eq sa sb
  | _, _ =>
      ba <- as_const a begin_const ;; ea <- as_const a end_const ;;
      bb <- as_const b begin_const ;; eb <- as_const b end_const ;;
      std_equal (fun p => as_const a (read p)) (fun p => as_const b (read p))
        ba ea bb eb
  end.

(** [operator!=] *)
Definition ne (a b : variant T) : M (heap T) bool :=
  r <- eq a b ;; ret (negb r).

(** [swap(vector &a, vector &b)] *)
Definition swap (a b : variant T) : variant T * variant T := (b, a).

(** [operator<(vector const &a, vector const &b)] *)
Context `{Ordered T}.

Definition lt (a b : variant T) : M (heap T) bool :=
  ba <- as_const a begin_const ;; ea <- as_const a end_const ;;
  bb <- as_const b begin_const ;; eb <- as_const b end_const ;;
  lexicographical_compare (fun p => as_const a (read p)) (fun p => as_const b (read p))
    ba ea bb eb.

(** [operator>]: [b < a] *)
Definition gt (a b : variant T) : M (heap T) bool := lt b a.

(** [operator<=]: [!(a > b)] *)
Definition le (a b : variant T) : M (heap T) bool :=
  r <- gt a b ;; ret (negb r).

(** [operator>=]: [!(a < b)] *)
Definition ge (a b : variant T) : M (heap T) bool :=
  r <- lt a b ;; ret (negb r).

End Methods.
End vector.

(** * Vocabulary of the properties *)

(** ** Outcomes *)

(** The value a call returns, and the state it leaves when it completes,
    by returning or by throwing. *)
Definition value {S A} (r : res S A) : option A :=
  match r with Ret a _ => Some a | _ => None end.

Definition final {S A} (r : res S A) : option S :=
  match r with Ret _ s | Raise _ s => Some s | Undef => None end.

(** [keeps P m]: from a state in [P], [m] leaves a state in [P], whether it
    returns or throws. *)
Definition keeps {S A} (P : S → Prop) (m : M S A) : Prop :=
  ∀ s, P s →
    match m s with
    | Ret _ s' | Raise _ s' => P s'
    | Undef => True
    end.

(** ** Blocks *)

(** The slots [i, i + k) emptied. *)
Fixpoint blank {T} (i k : nat) (d : list (option T)) : list (option T) :=
  match k with
  | O => d
  | S k' => blank (S i) k' (<[i := None]> d)
  end.

(** ** Growth *)

(** The capacity [push_back] leaves, from the size [n] and capacity [c] it
    finds in a block it owns alone. *)
Definition grow (n c : Z) : Z :=
  if n =? c then (if c >? 0 then 2 * c else 2) else c.

(** The growth law: the capacity after [n] calls of [push_back] on a
    buffer that starts with no block.  It starts at 0 and changes only when
    an element is pushed onto a full buffer, to 2 the first time and to
    twice its value afterwards. *)
Fixpoint cap_law (n : nat) : Z :=
  match n with
  | O => 0
  | S k => grow (Z.of_nat k) (cap_law k)
  end.

(** What the facade reports: nothing for no element, 1 for the element
    held inline, and the capacity of the buffer from the second element
    on. *)
Definition vec_cap_law (n : nat) : Z :=
  match n with
  | O => 0
  | S O => 1
  | _ => cap_law n
  end.

(** ** Representations *)

Definition is_heap_buf {T} (d : variant T) : Prop := ∃ st, d = heap_buf st.

(** The member functions that change a vector in place.  [Clear] comes
    with the one-argument [bigvector::resize] that [clear()] calls, which
    the source does not declare. *)
Inductive mutation (T : Type) :=
| PushBack (x : T)
| PopBack
| Insert (pos : ptr) (x : T)
| Erase (beg en : ptr)
| EraseAt (ind : ptr)
| Clear (resize_1 : Z → M (bigvector_state T) unit)
| ResizeDefault (sz : Z)
| Resize (sz : Z) (x : T)
| Reserve (cap : Z)
| ShrinkToFit
| IndexMut (i : Z)
| FrontMut
| BackMut
| DataMut
| Write (p : ptr) (x : T).
Arguments PushBack {T} x.
Arguments PopBack {T}.
Arguments Insert {T} pos x.
Arguments Erase {T} beg en.
Arguments EraseAt {T} ind.
Arguments Clear {T} resize_1.
Arguments ResizeDefault {T} sz.
Arguments Resize {T} sz x.
Arguments Reserve {T} cap.
Arguments ShrinkToFit {T}.
Arguments IndexMut {T} i.
Arguments FrontMut {T}.
Arguments BackMut {T}.
Arguments DataMut {T}.
Arguments Write {T} p x.

Section Vocabulary.
Context {T : Type} `{Element T}.
Implicit Types (h : heap T) (l : loc) (b : storage T) (st : option loc)
  (xs ys : list T) (d : variant T).

(** The buffer is the only owner of a block of capacity [c] whose live
    elements are [xs]; or it has no block, and [xs] is empty. *)
Definition owns h st xs (c : Z) : Prop :=
  match st with
  | None => xs = [] ∧ c = 0
  | Some l =>
      h !! l = Some (Some (Storage (Some (Z.of_nat (length xs))) (Some c) (Some 1)
                             ((Some <$> xs) ++ replicate (Z.to_nat c - length xs) None)))
      ∧ Z.of_nat (length xs) ≤ c
  end.

(** [for (x : xs) v.push_back(x);] *)
Fixpoint bigvector_push_all xs : B T unit :=
  match xs with
  | [] => ret tt
  | x :: xs' => bigvector.push_back x ;; bigvector_push_all xs'
  end.

Fixpoint vector_push_all xs : V T unit :=
  match xs with
  | [] => ret tt
  | x :: xs' => vector.push_back x ;; vector_push_all xs'
  end.

(** The vector holds [ys]: inline up to one element, and from two on in
    a buffer it owns alone, of the capacity the growth law gives. *)
Definition vec_holds h d ys : Prop :=
  match ys with
  | [] => d = monostate
  | [y] => d = inline_elem y
  | _ => ∃ st, d = heap_buf st ∧ owns h st ys (cap_law (length ys))
  end.

Definition shared (s : vector_state T) : Prop := is_heap_buf (vec_data s).
Definition shared_frame (f : frame T) : Prop := shared (this f).

Definition perform (op : mutation T) : V T unit :=
  match op with
  | PushBack x => vector.push_back x
  | PopBack => vector.pop_back
  | Insert pos x => vector.insert pos x ;; ret tt
  | Erase beg en => vector.erase beg en ;; ret tt
  | EraseAt ind => vector.erase_at ind ;; ret tt
  | Clear resize_1 => vector.clear resize_1
  | ResizeDefault sz => vector.resize_default sz
  | Resize sz x => vector.resize sz x
  | Reserve cap => vector.reserve cap
  | ShrinkToFit => vector.shrink_to_fit
  | IndexMut i => vector.index_mut i ;; ret tt
  | FrontMut => vector.front_mut ;; ret tt
  | BackMut => vector.back_mut ;; ret tt
  | DataMut => vector.data_mut ;; ret tt
  | Write p x => vector.write p x
  end.

End Vocabulary.

(** ** Test programs

    Over two element types: [Z], whose copies never throw, and [item],
    which has a value whose copy throws. *)

#[global] Instance Z_element : Element Z :=
  {| copy_throws := fun _ => false; equal := Z.eqb; value_init := 0 |}.

Inductive item :=
| Int (n : Z)
| Faulty.

#[global] Instance item_eq_dec : EqDecision item.
Proof. solve_decision. Defined.

#[global] Instance item_element : Element item :=
  {| copy_throws := fun x => match x with Faulty => true | Int _ => false end;
     equal := fun x y => bool_decide (x = y);
     value_init := Int 0 |}.

#[global] Instance Z_layout : Layout Z := {| sizeof_T := 8; sizeof_storage := 24 |}.
#[global] Instance item_layout : Layout item := {| sizeof_T := 16; sizeof_storage := 24 |}.

Section Observe.
Context {T : Type} `{Element T}.

(** A member function called on the vector whose [vec_data] is [d],
    giving its [vec_data] afterwards. *)
Definition mutate {A} (d : variant T) (m : V T A) : M (heap T) (variant T) :=
  fun h => match m (Vector h d) with
           | Ret _ s => Ret (vec_data s) (vmem s)
           | Raise e s => Raise e (vmem s)
           | Undef => Undef
           end.

Fixpoint read_n (p : ptr) (n : nat) : V T (list T) :=
  match n with
  | O => ret []
  | S n' =>
      x <- vector.read p ;;
      q <- ptr_add p 1 ;;
      xs <- read_n q n' ;;
      ret (x :: xs)
  end.

(** The sequence a caller sees on a const vector, from [begin()] to
    [end()]. *)
Definition contents : V T (list T) :=
  b <- vector.begin_const ;;
  n <- vector.size ;;
  read_n b (Z.to_nat n).
End Observe.

(** A vector of [Z] with nothing allocated yet. *)
Definition empty_vector : vector_state Z := Vector ∅ monostate.

(** [a] gets four elements, [b] is copy-constructed from it, and the two
    middle elements of [b] are erased through iterators of the const [b].
    The result: [a == b] after the copy, and what [a] holds at the end. *)
Definition erase_on_copy : M (heap Z) (bool * list Z) :=
  a <- mutate monostate (vector_push_all [1; 2; 3; 4]) ;;
  b <- vector.copy_ctor a ;;
  same <- vector.eq a b ;;
  b <- mutate b (first <- vector.begin_const ;;
                 beg <- ptr_add first 1 ;;
                 en <- ptr_add first 3 ;;
                 vector.erase beg en) ;;
  seen <- vector.as_const a contents ;;
  ret (same, seen).

(** Two elements, then [resize(4, x)]. *)
Definition resize_to_four (x : item) : res (vector_state item) unit :=
  (vector_push_all [Int 1; Int 2] ;; vector.resize 4 x) (Vector ∅ monostate).

(** [v[3]] on a vector of one element. *)
Definition index_past_inline : res (vector_state Z) Z :=
  (vector_push_all [5] ;; r <- vector.index_mut 3 ;; vector.read r) empty_vector.

(** Two elements pushed and popped, leaving an empty heap-backed vector. *)
Definition promoted_empty : V Z unit :=
  vector_push_all [1; 2] ;; vector.pop_back ;; vector.pop_back.

(** Two elements, then [assign] from an empty range. *)
Definition assign_empty_on_two : res (vector_state Z) unit :=
  (vector_push_all [1; 2] ;; vector.assign_range []) empty_vector.

(** [a] reserves four slots, [b] is copy-constructed from it and shrunk to
    fit.  The result: the [vec_data] of [a] and of [b]. *)
Definition shrink_a_copy : M (heap Z) (variant Z * variant Z) :=
  a <- mutate monostate (vector.reserve 4) ;;
  b <- vector.copy_ctor a ;;
  b <- mutate b vector.shrink_to_fit ;;
  ret (a, b).

(** [capacity()] before and after [reserve(1)] on a vector of one element,
    and the index of the alternative held at the end. *)
Definition reserve_one_on_single : res (vector_state Z) (Z * Z * Z) :=
  (vector_push_all [7] ;;
   before <- vector.capacity ;;
   vector.reserve 1 ;;
   after <- vector.capacity ;;
   k <- vector.index ;;
   ret (before, after, k)) empty_vector.

(** [reserve(4)] on an empty vector, then [shrink_to_fit()].  The result:
    the [store] of the buffer, and what the heap has at address 1, the
    block that [reserve] allocated. *)
Definition shrink_unshared_empty
  : res (vector_state Z) (variant Z * option (option (storage Z))) :=
  (vector.reserve 4 ;;
   vector.shrink_to_fit ;;
   s <- get_state ;;
   ret (vec_data s, vmem s !! 1%positive)) empty_vector.

(** A vector of three elements, in a buffer. *)
Definition three_elements : vector_state Z :=
  match vector_push_all [1; 2; 3] empty_vector with
  | Ret _ s => s
  | _ => empty_vector
  end.

(** ** What a vector holds *)

Section Holding.
Context {T : Type} `{Element T}.
Implicit Types (h : heap T) (l : loc) (st : option loc) (xs : list T)
  (d : variant T).

(** A block with the live elements [xs], capacity [c] and [rc] owners; the
    slots past the live ones hold no object. *)
Definition block_of xs (c rc : Z) : storage T :=
  Storage (Some (Z.of_nat (length xs))) (Some c) (Some rc)
          ((Some <$> xs) ++ replicate (Z.to_nat c - length xs) None).

(** The buffer with this [store] is one of [rc] owners of a block of
    capacity [c] with the elements [xs]; or it has no block, and [xs] is
    empty. *)
Definition views h st xs (c rc : Z) : Prop :=
  match st with
  | None => xs = [] ∧ c = 0
  | Some l =>
      h !! l = Some (Some (block_of xs c rc))
      ∧ Z.of_nat (length xs) ≤ c < size_max ∧ 1 ≤ rc < size_max
  end.

(** The vector whose [vec_data] is [d] holds the elements [xs]. *)
Definition represents h d xs : Prop :=
  match d with
  | monostate => xs = []
  | inline_elem x => xs = [x]
  | heap_buf st => ∃ c rc, views h st xs c rc
  end.

(** No copy of these elements throws. *)
Definition copyable xs : Prop := Forall (fun x => copy_throws x = false) xs.

(** Two sequences have the same length and their elements are pairwise
    equal by [operator==] of [T]. *)
Fixpoint elements_equal xs ys : bool :=
  match xs, ys with
  | [], [] => true
  | x :: xs', y :: ys' => if equal x y then elements_equal xs' ys' else false
  | _, _ => false
  end.

(** The sequence [xs] comes before [ys] in the lexicographic order of
    [operator<] of [T]. *)
Fixpoint lex_less `{Ordered T} xs ys : bool :=
  match xs, ys with
  | _, [] => false
  | [], _ :: _ => true
  | x :: xs', y :: ys' =>
      if less x y then true
      else if less y x then false
      else lex_less xs' ys'
  end.

(** Where the [j]-th iterator of the range [[begin(), end())] of a const
    vector points, in each representation. *)
Definition iterator_of (a : variant T) (j : nat) : ptr :=
  match a with
  | monostate => nullptr
  | inline_elem _ => inline_at (Z.of_nat j)
  | heap_buf (Some l) => data_at l (Z.of_nat j)
  | heap_buf None => nullptr
  end.

(** [a] is the [vec_data] of another vector than the one whose [vec_data]
    is [d]: where the two hold the same block, the block counts at least
    two owners. *)
Definition apart h d (a : variant T) : Prop :=
  match d, a with
  | heap_buf (Some l), heap_buf (Some l') =>
      l = l' → ∃ b rc, h !! l = Some (Some b) ∧ ref_count b = Some rc ∧ 2 ≤ rc
  | _, _ => True
  end.

(** The vector is the only owner of what it holds: an inline value, or a
    block with a reference count of 1. *)
Definition owns_alone h d : Prop :=
  match d with
  | heap_buf (Some l) => ∃ b, h !! l = Some (Some b) ∧ ref_count b = Some 1
  | heap_buf None => False
  | _ => True
  end.

(** The block of the vector, if it has one, can count one more owner. *)
Definition can_share h (a : variant T) : Prop :=
  match a with
  | heap_buf (Some l) =>
      ∃ b rc, h !! l = Some (Some b) ∧ ref_count b = Some rc ∧ rc + 1 < size_max
  | _ => True
  end.

(** What a call on the buffer with this [store], one of [rc] owners of a
    block with the elements [xs], leaves to everyone else in the heap
    [h']: every other block is as it was in [h], and so is the buffer's
    own block when it has other owners, up to the count of its owners. *)
Definition others_kept h st xs (c rc : Z) h' : Prop :=
  (∀ k, Some k ≠ st → is_Some (h !! k) → h' !! k = h !! k)
  ∧ (∀ l, st = Some l → 2 ≤ rc →
       h' !! l = Some (Some (block_of xs c (rc - 1)))
       ∨ h' !! l = Some (Some (block_of xs c rc))).

(** What is at the address of a block with [rc] owners after one of them
    has given it up: a freed block when it was the last. *)
Definition given_up xs (c rc : Z) : option (storage T) :=
  if decide (rc = 1) then None else Some (block_of xs c (rc - 1)).
End Holding.

#[global] Instance Z_ordered : Ordered Z := {| less := Z.ltb |}.

(** A heap of [Z] elements with one block, at address 1: [xs] in a block
    of capacity [c] with [rc] owners. *)
Definition one_block (xs : list Z) (c rc : Z) : heap Z :=
  {[ 1%positive := Some (block_of xs c rc) ]}.

(** The same for elements of type [item]. *)
Definition one_item_block (xs : list item) (c rc : Z) : heap item :=
  {[ 1%positive := Some (block_of xs c rc) ]}.

(** * Reasoning about member functions *)

Lemma bind_Ret {S A B} (m : M S A) (k : A → M S B) s a s' :
  m s = Ret a s' → (x <- m ;; k x) s = k a s'.
Proof. unfold bind. by intros ->. Qed.

Lemma bind_Raise {S A B} (m : M S A) (k : A → M S B) s e s' :
  m s = Raise e s' → (x <- m ;; k x) s = Raise e s'.
Proof. unfold bind. by intros ->. Qed.

Lemma bind_Undef {S A B} (m : M S A) (k : A → M S B) s :
  m s = Undef → (x <- m ;; k x) s = Undef.
Proof. unfold bind. by intros ->. Qed.

Lemma try_catch_Ret {S A} (m : M S A) h s a s' :
  m s = Ret a s' → try_catch m h s = Ret a s'.
Proof. unfold try_catch. by intros ->. Qed.

(** ** The heap primitives on a live block *)

Section HeapFacts.
Context {T : Type} `{Element T}.
Implicit Types (h : heap T) (l : loc) (b : storage T).

Lemma live_Ret h l b : h !! l = Some (Some b) → live l h = Ret b h.
Proof. unfold live. by intros ->. Qed.

Lemma rd_size_Ret h l b n :
  h !! l = Some (Some b) → size_ b = Some n → rd_size l h = Ret n h.
Proof. intros Hl Hn. unfold rd_size. rewrite (bind_Ret _ _ _ _ _ (live_Ret _ _ _ Hl)). by rewrite Hn. Qed.

Lemma rd_capacity_Ret h l b n :
  h !! l = Some (Some b) → capacity_ b = Some n → rd_capacity l h = Ret n h.
Proof. intros Hl Hn. unfold rd_capacity. rewrite (bind_Ret _ _ _ _ _ (live_Ret _ _ _ Hl)). by rewrite Hn. Qed.

Lemma rd_ref_count_Ret h l b n :
  h !! l = Some (Some b) → ref_count b = Some n → rd_ref_count l h = Ret n h.
Proof. intros Hl Hn. unfold rd_ref_count. rewrite (bind_Ret _ _ _ _ _ (live_Ret _ _ _ Hl)). by rewrite Hn. Qed.

Lemma update_Ret h l b f :
  h !! l = Some (Some b) → update l f h = Ret tt (<[l := Some (f b)]> h).
Proof. intros Hl. unfold update. by rewrite (bind_Ret _ _ _ _ _ (live_Ret _ _ _ Hl)). Qed.

Lemma operator_delete_Ret h l b :
  h !! l = Some (Some b) → operator_delete l h = Ret tt (<[l := None]> h).
Proof. intros Hl. unfold operator_delete. by rewrite (bind_Ret _ _ _ _ _ (live_Ret _ _ _ Hl)). Qed.

Lemma fresh_not_live h : h !! fresh (dom h) = None.
Proof. apply not_elem_of_dom, is_fresh. Qed.

Lemma slot_Ret h l b (i : nat) :
  h !! l = Some (Some b) → (i < length (data b))%nat →
  slot (data_at l (Z.of_nat i)) h = Ret (l, i, b) h.
Proof.
  intros Hl Hi. unfold slot. rewrite (bind_Ret _ _ _ _ _ (live_Ret _ _ _ Hl)).
  destruct (0 <=? Z.of_nat i) eqn:E1; [|lia].
  destruct (Z.of_nat i <? Z.of_nat (length (data b))) eqn:E2; [|lia].
  simpl. by rewrite Nat2Z.id.
Qed.

Lemma put_slot_Ret h l b (i : nat) v :
  h !! l = Some (Some b) → (i < length (data b))%nat →
  put_slot (data_at l (Z.of_nat i)) v h
  = Ret tt (<[l := Some (Storage (size_ b) (capacity_ b) (ref_count b)
                           (<[i := v]> (data b)))]> h).
Proof.
  intros Hl Hi. unfold put_slot.
  rewrite (bind_Ret _ _ _ _ _ (slot_Ret _ _ _ _ Hl Hi)).
  by rewrite (update_Ret _ _ _ _ Hl).
Qed.

Lemma load_Ret h l b (i : nat) v :
  h !! l = Some (Some b) → data b !! i = Some (Some v) →
  load (data_at l (Z.of_nat i)) h = Ret v h.
Proof.
  intros Hl Hv. unfold load.
  rewrite (bind_Ret _ _ _ _ _ (slot_Ret _ _ _ _ Hl (lookup_lt_Some _ _ _ Hv))).
  by rewrite Hv.
Qed.

Lemma construct_at_Ret h l b (i : nat) v :
  h !! l = Some (Some b) → (i < length (data b))%nat → copy_throws v = false →
  construct_at (data_at l (Z.of_nat i)) v h
  = Ret tt (<[l := Some (Storage (size_ b) (capacity_ b) (ref_count b)
                           (<[i := Some v]> (data b)))]> h).
Proof.
  intros Hl Hi Hv. unfold construct_at.
  rewrite (bind_Ret _ _ _ _ _ (slot_Ret _ _ _ _ Hl Hi)), Hv.
  by apply put_slot_Ret.
Qed.
End HeapFacts.

(** One step of a computation whose first action returns. *)
Tactic Notation "step" "by" tactic3(t) :=
  (erewrite bind_Ret; [ | solve [t] ]);
  cbv beta iota; cbn [store mem vec_data vmem this tmp_store].

(** ** Loops over the slots of a block *)

Section LoopFacts.
Context {T : Type} `{Element T}.
Implicit Types (h : heap T) (l : loc) (b : storage T) (d : list (option T)).

Lemma blank_length k : ∀ i d, length (blank i k d) = length d.
Proof.
  induction k as [|k IH]; intros i d; simpl; [done|].
  by rewrite IH, length_insert.
Qed.

Lemma blank_lookup_below k : ∀ i d (j : nat),
  (j < i)%nat → blank i k d !! j = d !! j.
Proof.
  induction k as [|k IH]; intros i d j Hj; simpl; [done|].
  rewrite IH by lia. apply list_lookup_insert_ne. lia.
Qed.

Lemma blank_lookup k : ∀ i d (j : nat),
  (i ≤ j < i + k)%nat → (i + k ≤ length d)%nat → blank i k d !! j = Some None.
Proof.
  induction k as [|k IH]; intros i d j Hj Hlen; simpl; [lia|].
  destruct (decide (j = i)) as [->|Hne].
  - rewrite blank_lookup_below by lia. apply list_lookup_insert_eq. lia.
  - apply IH; [lia|]. rewrite length_insert. lia.
Qed.

Lemma storage_eta b :
  Storage (size_ b) (capacity_ b) (ref_count b) (data b) = b.
Proof. by destruct b. Qed.

Lemma destroy_n_Ret k : ∀ h l b (i : nat),
  h !! l = Some (Some b) → (i + k ≤ length (data b))%nat →
  destroy_n (data_at l (Z.of_nat i)) k h
  = Ret tt (<[l := Some (Storage (size_ b) (capacity_ b) (ref_count b)
                           (blank i k (data b)))]> h).
Proof.
  induction k as [|k IH]; intros h l b i Hl Hlen; simpl.
  - rewrite storage_eta. by rewrite insert_id.
  - unfold destroy_at.
    step by (apply put_slot_Ret; [eassumption | lia]).
    step by reflexivity.
    replace (Z.of_nat i + 1) with (Z.of_nat (S i)) by lia.
    erewrite IH; [| apply lookup_insert_eq | simpl; rewrite length_insert; lia ].
    simpl. by rewrite insert_insert_eq.
Qed.

Lemma distance_Ret h l (i j : Z) :
  i ≤ j → distance (data_at l i) (data_at l j) h = Ret (Z.to_nat (j - i)) h.
Proof.
  intros Hij. unfold distance, ptr_diff. rewrite decide_True by done.
  step by reflexivity.
  destruct (j - i <? 0) eqn:E; [lia | done].
Qed.

Lemma destroy_Ret h l b (i j : nat) :
  h !! l = Some (Some b) → (i ≤ j ≤ length (data b))%nat →
  destroy (data_at l (Z.of_nat i)) (data_at l (Z.of_nat j)) h
  = Ret tt (<[l := Some (Storage (size_ b) (capacity_ b) (ref_count b)
                           (blank i (j - i) (data b)))]> h).
Proof.
  intros Hl Hij. unfold destroy.
  step by (apply distance_Ret; lia).
  replace (Z.to_nat (Z.of_nat j - Z.of_nat i)) with (j - i)%nat by lia.
  apply destroy_n_Ret; [done | lia].
Qed.

(** Copying the elements [vs2] that follow [vs1] in the source block to
    the same place in another block, which already holds [vs1] and has
    room. *)
Lemma uninitialized_copy_n_Ret vs2 : ∀ vs1 rest (m : nat) h l t bl bt (p0 : ptr),
  l ≠ t →
  h !! l = Some (Some bl) → h !! t = Some (Some bt) →
  data bl = (Some <$> (vs1 ++ vs2)) ++ rest →
  data bt = (Some <$> vs1) ++ replicate (length vs2 + m) None →
  Forall (fun v => copy_throws v = false) vs2 →
  uninitialized_copy_n (data_at l (Z.of_nat (length vs1))) (length vs2) p0
    (data_at t (Z.of_nat (length vs1))) h
  = Ret tt (<[t := Some (Storage (size_ bt) (capacity_ bt) (ref_count bt)
                           ((Some <$> (vs1 ++ vs2)) ++ replicate m None))]> h).
Proof.
  induction vs2 as [|v vs2 IH]; intros vs1 rest m h l t bl bt p0 Hne Hl Ht Hdl Hdt Hok.
  - simpl. rewrite app_nil_r. simpl in Hdt. rewrite <- Hdt, storage_eta.
    by rewrite insert_id.
  - apply Forall_cons in Hok as [Hv Hok]. simpl.
    assert (data bl !! length vs1 = Some (Some v)) as Hsrc.
    { rewrite Hdl, fmap_app, <- app_assoc.
      rewrite lookup_app_r by (rewrite length_fmap; lia).
      by rewrite length_fmap, Nat.sub_diag. }
    assert (length vs1 < length (data bt))%nat as Hroom.
    { rewrite Hdt, length_app, length_fmap, length_replicate. simpl. lia. }
    step by (eapply load_Ret; eassumption).
    step by (apply try_catch_Ret; apply construct_at_Ret; eassumption).
    step by reflexivity. step by reflexivity.
    replace (Z.of_nat (length vs1) + 1) with (Z.of_nat (length (vs1 ++ [v])))
      by (rewrite length_app; simpl; lia).
    set (bt' := Storage (size_ bt) (capacity_ bt) (ref_count bt)
                  (<[length vs1 := Some v]> (data bt))).
    rewrite (IH (vs1 ++ [v]) rest m (<[t := Some bt']> h) l t bl bt' p0).
    + simpl. rewrite insert_insert_eq. by rewrite <- app_assoc.
    + done.
    + by rewrite lookup_insert_ne.
    + apply lookup_insert_eq.
    + by rewrite <- app_assoc.
    + simpl. rewrite Hdt.
      replace (length vs1) with (length (Some <$> vs1) + 0)%nat at 1
        by (rewrite length_fmap; lia).
      rewrite insert_app_r. simpl.
      by rewrite fmap_app, <- app_assoc.
    + done.
Qed.
End LoopFacts.

(** ** Member functions of [bigvector] on a live block *)

Section BigVectorFacts.
Context {T : Type} `{Element T}.
Implicit Types (h : heap T) (l : loc) (b : storage T) (st : option loc).

Lemma hp_Ret {A} (m : M (heap T) A) h st a h' :
  m h = Ret a h' → bigvector.hp m (BigVector h st) = Ret a (BigVector h' st).
Proof. unfold bigvector.hp, zoom. simpl. by intros ->. Qed.

Lemma size_Ret h l b n :
  h !! l = Some (Some b) → size_ b = Some n →
  bigvector.size (BigVector h (Some l)) = Ret n (BigVector h (Some l)).
Proof.
  intros Hl Hn. unfold bigvector.size. step by reflexivity.
  apply hp_Ret. by eapply rd_size_Ret.
Qed.

Lemma capacity_Ret h l b c :
  h !! l = Some (Some b) → capacity_ b = Some c →
  bigvector.capacity (BigVector h (Some l)) = Ret c (BigVector h (Some l)).
Proof.
  intros Hl Hn. unfold bigvector.capacity. step by reflexivity.
  apply hp_Ret. by eapply rd_capacity_Ret.
Qed.

Lemma end_Ret h l b n :
  h !! l = Some (Some b) → size_ b = Some n →
  bigvector.end_ (BigVector h (Some l)) = Ret (data_at l n) (BigVector h (Some l)).
Proof.
  intros Hl Hn. unfold bigvector.end_. step by reflexivity.
  step by (apply hp_Ret; by eapply rd_size_Ret). done.
Qed.

End BigVectorFacts.

(** ** Growth by [push_back] *)

Section PushBack.
Context {T : Type} `{Element T}.
Implicit Types (h : heap T) (l : loc) (b : storage T) (st : option loc)
  (xs : list T).

Lemma insert_after_prefix xs (x : T) (k : nat) :
  <[length xs := Some x]> ((Some <$> xs) ++ replicate (S k) None)
  = (Some <$> (xs ++ [x])) ++ replicate k None.
Proof.
  replace (length xs) with (length (Some <$> xs) + 0)%nat
    by (rewrite length_fmap; lia).
  rewrite insert_app_r, fmap_app, <- app_assoc. done.
Qed.

Lemma wrap_small z : 0 ≤ z < size_max → wrap z = z.
Proof. intros Hz. unfold wrap. by apply Z.mod_small. Qed.

Lemma push_back_owns h st xs c x :
  owns h st xs c →
  Forall (fun v => copy_throws v = false) xs → copy_throws x = false →
  2 * Z.of_nat (length xs) < size_max →
  ∃ h' st',
    bigvector.push_back x (BigVector h st) = Ret tt (BigVector h' st')
    ∧ owns h' st' (xs ++ [x]) (grow (Z.of_nat (length xs)) c).
Proof.
  intros Hown Hxs Hx Hbound.
  assert (Hsm : size_max = 2 ^ 64) by reflexivity.
  destruct st as [l|]; simpl in Hown.
  - destruct Hown as [Hl Hnc].
    set (n := Z.of_nat (length xs)) in *.
    set (b := Storage (Some n) (Some c) (Some 1) _) in Hl.
    unfold bigvector.push_back, bigvector.or_else.
    assert ((sz <- bigvector.size ;; cap <- bigvector.capacity ;; ret (sz =? cap))
              (BigVector h (Some l)) = Ret (n =? c) (BigVector h (Some l))) as Hfull.
    { step by (eapply size_Ret; [exact Hl | reflexivity]).
      step by (eapply capacity_Ret; [exact Hl | reflexivity]).
      reflexivity. }
    unfold grow. destruct (n =? c) eqn:E.
    + (* full: a new block *)
      erewrite bind_Ret; [ | erewrite bind_Ret; [ | apply Hfull ]; reflexivity ].
      cbv beta iota.
      apply Z.eqb_eq in E.
      step by (eapply size_Ret; [exact Hl | reflexivity]).
      step by (eapply capacity_Ret; [exact Hl | reflexivity]).
      rewrite (proj2 (Z.eqb_eq n c) E).
      set (cap_needed := if c >? 0 then wrap (c * 2) else 2).
      assert (cap_needed = if c >? 0 then 2 * c else 2) as Hcap.
      { unfold cap_needed. destruct (c >? 0); [|done]. rewrite wrap_small; lia. }
      assert (n < cap_needed) as Hroom.
      { rewrite Hcap. destruct (c >? 0) eqn:E0; lia. }
      step by reflexivity.
      set (tmp := fresh (dom h)).
      assert (tmp ≠ l) as Hne.
      { intros Heq. pose proof (fresh_not_live h) as Hf.
        unfold tmp in Heq. rewrite Heq in Hf. congruence. }
      set (b0 := Storage None None None (replicate (Z.to_nat cap_needed) None)).
      set (m := (Z.to_nat cap_needed - length xs)%nat).
      set (b1 := Storage None None None ((Some <$> ([] ++ xs)) ++ replicate m None)).
      assert (bigvector.hp (uninitialized_copy (data_at l 0) (data_at l n) (data_at tmp 0))
                (BigVector (<[tmp := Some b0]> h) (Some l))
              = Ret tt (BigVector (<[tmp := Some b1]> (<[tmp := Some b0]> h)) (Some l))) as Hcopy.
      { apply hp_Ret. unfold uninitialized_copy.
        step by (apply distance_Ret; lia).
        replace (Z.to_nat (n - 0)) with (length xs) by lia.
        apply (uninitialized_copy_n_Ret xs [] (replicate (Z.to_nat c - length xs) None) m
                 _ l tmp b b0 (data_at tmp 0)).
        - done.
        - by rewrite lookup_insert_ne.
        - apply lookup_insert_eq.
        - done.
        - simpl. f_equal. lia.
        - done. }
      erewrite bind_Ret; [ |
        apply try_catch_Ret;
        step by reflexivity;
        step by (eapply end_Ret; [by rewrite lookup_insert_ne | reflexivity]);
        apply Hcopy ].
      cbv beta iota. rewrite insert_insert_eq.
      set (b2 := Storage None None None ((Some <$> (xs ++ [x])) ++ replicate (m - 1) None)).
      erewrite bind_Ret; [ |
        apply try_catch_Ret;
        step by (eapply size_Ret; [by rewrite lookup_insert_ne | reflexivity]);
        apply hp_Ret;
        apply (construct_at_Ret _ tmp b1 (length xs) x);
          [ apply lookup_insert_eq
          | simpl; rewrite length_app, length_fmap, length_replicate; lia
          | done ] ].
      cbv beta iota. rewrite insert_insert_eq.
      replace (<[length xs := Some x]> (data b1)) with (data b2).
      2:{ simpl. destruct m as [|m'] eqn:Em; [lia|].
          rewrite insert_after_prefix. simpl. by rewrite Nat.sub_0_r. }
      step by reflexivity.
      erewrite bind_Ret; [ |
        step by (apply hp_Ret; eapply rd_size_Ret; [by rewrite lookup_insert_ne | reflexivity]);
        step by (apply hp_Ret; apply update_Ret; apply lookup_insert_eq);
        rewrite insert_insert_eq;
        unfold bigvector.release;
        step by (apply hp_Ret; eapply rd_ref_count_Ret; [by rewrite lookup_insert_ne | reflexivity]);
        change (1 =? 1) with true; cbv iota;
        step by reflexivity;
        step by (eapply end_Ret; [by rewrite lookup_insert_ne | reflexivity]);
        change (data_at l 0) with (data_at l (Z.of_nat 0));
        step by (apply hp_Ret; eapply destroy_Ret;
                 [by rewrite lookup_insert_ne
                 | simpl; rewrite length_app, length_fmap; lia]);
        apply hp_Ret; eapply operator_delete_Ret; apply lookup_insert_eq ].
      cbv beta iota.
      rewrite insert_insert_eq.
      step by (apply hp_Ret; apply update_Ret; by rewrite lookup_insert_ne, lookup_insert_eq).
      step by (apply hp_Ret; apply update_Ret; apply lookup_insert_eq).
      rewrite insert_insert_eq.
      eexists _, (Some tmp). split; [reflexivity|].
      simpl. rewrite lookup_insert_eq. simpl. split.
      * rewrite wrap_small by lia. rewrite length_app. simpl.
        rewrite <- Hcap.
        replace (Z.of_nat (length xs + 1)) with (n + 1) by (unfold n; lia).
        by replace (Z.to_nat cap_needed - (length xs + 1))%nat with (m - 1)%nat
          by (unfold m; lia).
      * rewrite length_app. simpl. fold n. rewrite <- Hcap. lia.
    + (* room left: in place *)
      erewrite bind_Ret; [ |
        erewrite bind_Ret; [ | apply Hfull ]; cbv beta iota;
        step by reflexivity;
        step by (apply hp_Ret; eapply rd_ref_count_Ret; [exact Hl | reflexivity]);
        reflexivity ].
      change (1 >? 1) with false. cbv beta iota.
      apply Z.eqb_neq in E.
      step by reflexivity.
      step by (apply hp_Ret; eapply rd_size_Ret; [exact Hl | reflexivity]).
      step by (apply hp_Ret; apply (construct_at_Ret _ l b (length xs) x);
               [ done
               | simpl; rewrite length_app, length_fmap, length_replicate; lia
               | done ]).
      step by (apply hp_Ret; eapply rd_size_Ret; [apply lookup_insert_eq | reflexivity]).
      eexists _, (Some l). split.
      { apply hp_Ret. apply update_Ret. apply lookup_insert_eq. }
      simpl. rewrite lookup_insert_eq. split.
      * rewrite wrap_small by lia. rewrite length_app. simpl.
        destruct (Z.to_nat c - length xs)%nat as [|k] eqn:Ek; [lia|].
        rewrite insert_after_prefix.
        replace (Z.of_nat (length xs + 1)) with (n + 1) by (unfold n; lia).
        by replace (Z.to_nat c - (length xs + 1))%nat with k by lia.
      * rewrite length_app. simpl. lia.
  - (* no block yet *)
    destruct Hown as [-> ->].
    unfold bigvector.push_back, bigvector.or_else.
    step by reflexivity.
    step by reflexivity. step by reflexivity.
    step by reflexivity.
    step by reflexivity.
    set (tmp := fresh (dom h)).
    erewrite bind_Ret; [ |
      apply try_catch_Ret;
      step by reflexivity;
      apply hp_Ret;
      eapply (construct_at_Ret _ tmp _ 0%nat x);
        [ apply lookup_insert_eq | simpl; lia | done ] ].
    cbv beta iota. rewrite insert_insert_eq.
    step by reflexivity.
    step by (apply hp_Ret; apply update_Ret; apply lookup_insert_eq).
    step by (apply hp_Ret; apply update_Ret; apply lookup_insert_eq).
    step by (apply hp_Ret; apply update_Ret; apply lookup_insert_eq).
    rewrite !insert_insert_eq.
    eexists _, (Some tmp). split; [reflexivity|].
    simpl. rewrite lookup_insert_eq. done.
Qed.
End PushBack.

Section PushAll.
Context {T : Type} `{Element T}.
Implicit Types (h : heap T) (l : loc) (b : storage T) (st : option loc)
  (xs ys : list T) (d : variant T).

Lemma bigvector_push_all_owns xs : ∀ ys h st,
  owns h st ys (cap_law (length ys)) →
  Forall (fun v => copy_throws v = false) (ys ++ xs) →
  2 * Z.of_nat (length (ys ++ xs)) ≤ size_max →
  ∃ h' st',
    bigvector_push_all xs (BigVector h st) = Ret tt (BigVector h' st')
    ∧ owns h' st' (ys ++ xs) (cap_law (length (ys ++ xs))).
Proof.
  induction xs as [|x xs IH]; intros ys h st Hown Hok Hbound.
  - exists h, st. by rewrite app_nil_r.
  - simpl.
    apply Forall_app in Hok as Hok'. destruct Hok' as [Hys Hxs].
    apply Forall_cons in Hxs as [Hx Hxs].
    rewrite length_app in Hbound. simpl in Hbound.
    destruct (push_back_owns h st ys _ x Hown Hys Hx) as (h1 & st1 & Hrun & Hown1); [lia|].
    rewrite (bind_Ret _ _ _ _ _ Hrun).
    replace (ys ++ x :: xs) with ((ys ++ [x]) ++ xs) in * by by rewrite <- app_assoc.
    apply IH; [ | done | rewrite !length_app; simpl; lia ].
    rewrite length_app, Nat.add_1_r. done.
Qed.

Lemma get2_Ret {A} (m : B T A) h st a h' st' :
  m (BigVector h st) = Ret a (BigVector h' st') →
  vector.get2 m (Vector h (heap_buf st)) = Ret a (Vector h' (heap_buf st')).
Proof. unfold vector.get2. simpl. by intros ->. Qed.

Lemma on_tmp_Ret {A} (m : B T A) h d st a h' st' :
  m (BigVector h st) = Ret a (BigVector h' st') →
  vector.on_tmp m (Frame (Vector h d) st) = Ret a (Frame (Vector h' d) st').
Proof. unfold vector.on_tmp, zoom. simpl. by intros ->. Qed.

Lemma on_this_Ret {A} (m : V T A) s t a s' :
  m s = Ret a s' → vector.on_this m (Frame s t) = Ret a (Frame s' t).
Proof. unfold vector.on_this, zoom. simpl. by intros ->. Qed.

Lemma vhp_Ret {A} (m : M (heap T) A) h d a h' :
  m h = Ret a h' → vector.hp m (Vector h d) = Ret a (Vector h' d).
Proof. unfold vector.hp, zoom. simpl. by intros ->. Qed.

Lemma owns_nonempty h st xs c : owns h st xs c → xs ≠ [] → ∃ l, st = Some l.
Proof. destruct st; [eauto|]. by intros [-> _]. Qed.

Lemma vector_push_back_holds h d ys x :
  vec_holds h d ys →
  Forall (fun v => copy_throws v = false) ys → copy_throws x = false →
  2 * Z.of_nat (length ys) < size_max →
  ∃ h' d',
    vector.push_back x (Vector h d) = Ret tt (Vector h' d')
    ∧ vec_holds h' d' (ys ++ [x]).
Proof.
  intros Hholds Hys Hx Hbound.
  destruct ys as [|y [|y' ys]]; simpl in Hholds.
  - subst d. exists h, (inline_elem x). split; [|done].
    unfold vector.push_back. step by reflexivity.
    change (0 =? 0) with true. cbv iota.
    unfold vector.assign_elem. by rewrite Hx.
  - subst d. apply Forall_cons in Hys as [Hy _]. simpl in Hbound.
    destruct (push_back_owns h None [] 0 y) as (h1 & st1 & Hrun1 & Hown1);
      [done | done | done | simpl; lia |].
    destruct (owns_nonempty _ _ _ _ Hown1) as [l ->]; [done|].
    destruct (push_back_owns h1 (Some l) [y] _ x Hown1) as (h2 & st2 & Hrun2 & Hown2);
      [by apply Forall_cons | done | simpl; lia |].
    destruct (owns_nonempty _ _ _ _ Hown2) as [l2 ->]; [done|].
    simpl in Hown2. destruct Hown2 as [Hl2 _].
    change (grow 1 (grow 0 0)) with 2 in Hl2.
    set (b2 := Storage (Some 2) (Some 2) (Some 2) [Some y; Some x]).
    set (b3 := Storage (Some 2) (Some 2) (Some 1) [Some y; Some x]).
    exists (<[l2 := Some b3]> (<[l2 := Some b2]> h2)), (heap_buf (Some l2)). split.
    + unfold vector.push_back. step by reflexivity.
      change (1 =? 0) with false. change (1 =? 1) with true. cbv iota.
      unfold vector.with_tmp, finally.
      assert ((x0 <- vector.on_this vector.get1 ;;
               vector.on_tmp (bigvector.push_back x0) ;;
               vector.on_tmp (bigvector.push_back x) ;;
               vector.assign_tmp) (Frame (Vector h (inline_elem y)) None)
              = Ret tt (Frame (Vector (<[l2 := Some b2]> h2) (heap_buf (Some l2))) (Some l2)))
        as ->.
      { step by reflexivity.
        step by (apply on_tmp_Ret; exact Hrun1).
        step by (apply on_tmp_Ret; exact Hrun2).
        unfold vector.assign_tmp. cbn [tmp_store].
        apply on_this_Ret. unfold vector.assign_bigvector.
        step by reflexivity.
        change (1 =? 2) with false. cbv iota.
        erewrite bind_Ret; [ |
          apply vhp_Ret; unfold bigvector.copy_ctor;
          step by (eapply rd_ref_count_Ret; [exact Hl2 | reflexivity]);
          step by (apply update_Ret; exact Hl2);
          reflexivity ].
        reflexivity. }
      assert (vector.on_tmp bigvector.dtor
                (Frame (Vector (<[l2 := Some b2]> h2) (heap_buf (Some l2))) (Some l2))
              = Ret tt (Frame (Vector (<[l2 := Some b3]> (<[l2 := Some b2]> h2))
                                 (heap_buf (Some l2))) (Some l2))) as ->.
      { apply on_tmp_Ret. unfold bigvector.dtor.
        step by reflexivity.
        step by (apply hp_Ret; eapply rd_ref_count_Ret; [apply lookup_insert_eq | reflexivity]).
        change (2 >? 1) with true. cbv iota.
        apply hp_Ret. unfold wr_ref_count.
        by erewrite update_Ret by apply lookup_insert_eq. }
      reflexivity.
    + exists (Some l2). split; [done|].
      unfold owns. rewrite lookup_insert_eq. split; [done|].
      change (cap_law (length ([y] ++ [x]))) with 2. simpl. lia.
  - destruct Hholds as (st & -> & Hown).
    destruct (push_back_owns h st _ _ x Hown Hys Hx Hbound) as (h1 & st1 & Hrun & Hown1).
    exists h1, (heap_buf st1). split.
    + unfold vector.push_back. step by reflexivity.
      change (2 =? 0) with false. change (2 =? 1) with false. cbv iota.
      by apply get2_Ret.
    + simpl. exists st1. split; [done|].
      replace (length (ys ++ [x])) with (S (length ys)) by (rewrite length_app; simpl; lia).
      exact Hown1.
Qed.

Lemma vector_push_all_holds xs : ∀ ys h d,
  vec_holds h d ys →
  Forall (fun v => copy_throws v = false) (ys ++ xs) →
  2 * Z.of_nat (length (ys ++ xs)) ≤ size_max →
  ∃ h' d',
    vector_push_all xs (Vector h d) = Ret tt (Vector h' d')
    ∧ vec_holds h' d' (ys ++ xs).
Proof.
  induction xs as [|x xs IH]; intros ys h d Hholds Hok Hbound.
  - exists h, d. by rewrite app_nil_r.
  - simpl.
    apply Forall_app in Hok as Hok'. destruct Hok' as [Hys Hxs].
    apply Forall_cons in Hxs as [Hx Hxs].
    rewrite length_app in Hbound. simpl in Hbound.
    destruct (vector_push_back_holds h d ys x Hholds Hys Hx) as (h1 & d1 & Hrun & Hholds1); [lia|].
    rewrite (bind_Ret _ _ _ _ _ Hrun).
    replace (ys ++ x :: xs) with ((ys ++ [x]) ++ xs) in * by by rewrite <- app_assoc.
    apply IH; [ done | done | rewrite !length_app; simpl; lia ].
Qed.

Lemma vec_holds_capacity h d ys :
  vec_holds h d ys →
  vector.capacity (Vector h d) = Ret (vec_cap_law (length ys)) (Vector h d).
Proof.
  intros Hholds. unfold vector.capacity.
  destruct ys as [|y [|y' ys]]; simpl in Hholds.
  - by subst d.
  - by subst d.
  - destruct Hholds as (st & -> & Hown).
    destruct (owns_nonempty _ _ _ _ Hown) as [l ->]; [done|].
    destruct Hown as [Hl _].
    step by reflexivity.
    change (2 =? 0) with false. change (2 =? 1) with false. cbv iota.
    apply get2_Ret. eapply capacity_Ret; [exact Hl | reflexivity].
Qed.

Lemma owns_capacity h st xs c :
  owns h st xs c →
  bigvector.capacity (BigVector h st) = Ret c (BigVector h st).
Proof.
  destruct st as [l|]; simpl.
  - intros [Hl _]. eapply capacity_Ret; [exact Hl | reflexivity].
  - by intros [_ ->].
Qed.
End PushAll.

Section Keeps.
Context {S : Type} (P : S → Prop).

Lemma keeps_ret {A} (a : A) : keeps P (ret a).
Proof. by intros s Hs. Qed.

Lemma keeps_throw {A} e : keeps P (@throw S A e).
Proof. by intros s Hs. Qed.

Lemma keeps_undef {A} : keeps P (@undef S A).
Proof. by intros s Hs. Qed.

Lemma keeps_bind {A B} (m : M S A) (k : A → M S B) :
  keeps P m → (∀ a, keeps P (k a)) → keeps P (x <- m ;; k x).
Proof.
  intros Hm Hk s Hs. unfold bind. specialize (Hm s Hs).
  destruct (m s) as [a s'| |]; [|done..]. by apply Hk.
Qed.

Lemma keeps_finally {A} (m : M S A) (c : M S unit) :
  keeps P m → keeps P c → keeps P (finally m c).
Proof.
  intros Hm Hc s Hs. unfold finally. specialize (Hm s Hs).
  destruct (m s) as [a s'|e s'|]; [| |done].
  - specialize (Hc s' Hm). by destruct (c s').
  - specialize (Hc s' Hm). by destruct (c s').
Qed.

Lemma keeps_ptr_add p n : keeps P (ptr_add p n).
Proof. destruct p; simpl; [destruct (n =? 0)|..]; by intros s Hs. Qed.

Lemma keeps_ptr_diff p q : keeps P (ptr_diff p q).
Proof.
  destruct p, q; simpl; try by intros s Hs.
  case_decide; by intros s Hs.
Qed.
End Keeps.

(** ** No demotion *)

Section NoDemotion.
Context {T : Type} `{Element T}.
Local Abbreviation shared := (@shared T).
Local Abbreviation shared_frame := (@shared_frame T).

Lemma keeps_get2 {A} (m : B T A) : keeps shared (vector.get2 m).
Proof.
  intros [h d] [st Hd]. simpl in Hd. subst d. unfold vector.get2. simpl.
  destruct (m _); [| |done]; unfold shared, is_heap_buf; simpl; eauto.
Qed.

Lemma keeps_hp {A} (m : M (heap T) A) : keeps shared (vector.hp m).
Proof.
  intros [h d] Hs. unfold vector.hp, zoom. simpl. by destruct (m h).
Qed.

Lemma keeps_get1 : keeps shared vector.get1.
Proof.
  intros [h d] [st Hd]. simpl in Hd. subst d. simpl.
  unfold shared, is_heap_buf; simpl; eauto.
Qed.

(** On a vector that holds a [bigvector], [index()] is 2. *)
Lemma keeps_index {A} (k : Z → V T A) :
  keeps shared (k 2) → keeps shared (i <- vector.index ;; k i).
Proof.
  intros Hk [h d] [st Hd]. simpl in Hd. subst d.
  unfold bind, vector.index. simpl. apply Hk. unfold shared_frame, shared, is_heap_buf; simpl; eauto.
Qed.

Lemma keeps_on_this {A} (m : V T A) :
  keeps shared m → keeps shared_frame (vector.on_this m).
Proof.
  intros Hm [s t] Hs. unfold vector.on_this, zoom. simpl.
  specialize (Hm s Hs). by destruct (m s).
Qed.

Lemma keeps_on_tmp {A} (m : B T A) : keeps shared_frame (vector.on_tmp m).
Proof.
  intros [[h d] t] Hs. unfold vector.on_tmp, zoom. simpl. by destruct (m _).
Qed.

Lemma keeps_frame_index {A} (k : Z → F T A) :
  keeps shared_frame (k 2) →
  keeps shared_frame (i <- vector.on_this vector.index ;; k i).
Proof.
  intros Hk [[h d] t] [st Hd]. simpl in Hd. subst d.
  unfold bind, vector.on_this, zoom, vector.index. simpl. apply Hk. unfold shared_frame, shared, is_heap_buf; simpl; eauto.
Qed.

Lemma keeps_with_tmp {A} (body : F T A) :
  keeps shared_frame body → keeps shared (vector.with_tmp body).
Proof.
  intros Hb s Hs. unfold vector.with_tmp.
  pose proof (keeps_finally shared_frame body (vector.on_tmp bigvector.dtor) Hb
                (keeps_on_tmp _) (Frame s None) Hs) as Hf.
  by destruct (finally _ _ _).
Qed.

Lemma keeps_data_mut : keeps shared vector.data_mut.
Proof. apply keeps_index. simpl. apply keeps_get2. Qed.

Lemma keeps_push_back x : keeps shared (vector.push_back x).
Proof. apply keeps_index. simpl. apply keeps_get2. Qed.

Lemma keeps_pop_back : keeps shared vector.pop_back.
Proof. apply keeps_index. simpl. apply keeps_get2. Qed.

Lemma keeps_reserve n : keeps shared (vector.reserve n).
Proof.
  apply keeps_with_tmp, keeps_frame_index. simpl.
  apply keeps_on_this, keeps_get2.
Qed.

Lemma keeps_shrink_to_fit : keeps shared vector.shrink_to_fit.
Proof. apply keeps_index. simpl. apply keeps_get2. Qed.

Lemma keeps_resize_job n x : keeps shared (vector.resize_job n x).
Proof.
  apply keeps_with_tmp, keeps_frame_index. simpl.
  apply keeps_on_this, keeps_get2.
Qed.

Lemma keeps_insert pos x : keeps shared (vector.insert pos x).
Proof.
  apply keeps_with_tmp.
  apply keeps_bind; [apply keeps_on_this, keeps_data_mut|]. intros b.
  apply keeps_bind; [apply keeps_ptr_diff|]. intros d.
  apply keeps_frame_index. simpl.
  apply keeps_on_this, keeps_get2.
Qed.

Lemma keeps_erase beg en : keeps shared (vector.erase beg en).
Proof.
  unfold vector.erase. case_decide.
  - apply keeps_bind; [apply keeps_data_mut|]. intros b.
    apply keeps_bind; [apply keeps_data_mut|]. intros b'.
    apply keeps_bind; [apply keeps_ptr_diff|]. intros d.
    apply keeps_ptr_add.
  - apply keeps_index. simpl. apply keeps_get2.
Qed.

Lemma keeps_clear resize_1 : keeps shared (vector.clear resize_1).
Proof. apply keeps_index. simpl. apply keeps_get2. Qed.

Lemma keeps_write p x : keeps shared (vector.write p x).
Proof.
  destruct p; simpl; try apply keeps_hp.
  destruct (k =? 0); [|apply keeps_undef].
  (* [get1] throws on a vector that holds a [bigvector] *)
  intros [h d] [st Hd]. simpl in Hd. subst d. unfold bind. simpl.
  unfold shared, is_heap_buf; simpl; eauto.
Qed.

Lemma keeps_index_mut i : keeps shared (vector.index_mut i).
Proof. apply keeps_index. simpl. apply keeps_get2. Qed.

Lemma keeps_front_mut : keeps shared vector.front_mut.
Proof. apply keeps_index. simpl. apply keeps_get2. Qed.

Lemma keeps_back_mut : keeps shared vector.back_mut.
Proof. apply keeps_index. simpl. apply keeps_get2. Qed.

Lemma keeps_erase_at ind : keeps shared (vector.erase_at ind).
Proof.
  apply keeps_bind; [apply keeps_ptr_add|]. intros en. apply keeps_erase.
Qed.
End NoDemotion.

Section Perform.
Context {T : Type} `{Element T}.
Local Abbreviation shared := (@shared T).

Lemma keeps_perform op : keeps shared (perform op).
Proof.
  destruct op; simpl; unfold vector.resize_default, vector.resize;
    try (apply keeps_bind; [|intros; apply keeps_ret]);
    auto using keeps_push_back, keeps_pop_back, keeps_insert, keeps_erase,
      keeps_erase_at, keeps_clear, keeps_resize_job, keeps_reserve,
      keeps_shrink_to_fit, keeps_index_mut, keeps_front_mut, keeps_back_mut,
      keeps_data_mut, keeps_write.
Qed.

(** [assign] from an empty range, on a vector that holds a [bigvector]:
    when it returns the vector holds nothing. *)
Lemma assign_empty_range (h : heap T) st s' :
  vector.assign_range [] (Vector h (heap_buf st)) = Ret tt s' →
  vec_data s' = monostate.
Proof.
  unfold vector.assign_range, vector.range_ctor. simpl.
  unfold finally, vector.assign, vector.assign_monostate, bind, vector.destroy_held.
  simpl.
  destruct (vector.get2 bigvector.dtor _) as [[] [h1 d1]|e [h1 d1]|]; simpl;
    [ | done | done ].
  by intros [= <-].
Qed.
End Perform.

(** ** The growth law in closed form *)

Example cap_law_values :
  map cap_law (seq 0 10) = [0; 2; 2; 4; 4; 8; 8; 8; 8; 16].
Proof. reflexivity. Qed.

Example vec_cap_law_values :
  map vec_cap_law (seq 0 10) = [0; 1; 2; 4; 4; 8; 8; 8; 8; 16].
Proof. reflexivity. Qed.

(** From the first element on, the capacity is the least power of two
    that is at least 2 and at least the number of elements. *)
Lemma cap_law_power_of_two (n : nat) :
  (1 ≤ n)%nat →
  ∃ k, 1 ≤ k ∧ cap_law n = 2 ^ k ∧ Z.of_nat n ≤ 2 ^ k
       ∧ (k = 1 ∨ 2 ^ (k - 1) < Z.of_nat n).
Proof.
  induction n as [|n IH]; [lia|]. intros _.
  destruct n as [|n].
  { exists 1. split; [done|]. split; [done|]. split; [done|]. by left. }
  destruct IH as (k & Hk & Hc & Hle & Hlow); [lia|].
  change (cap_law (S (S n))) with (grow (Z.of_nat (S n)) (cap_law (S n))).
  rewrite Hc. unfold grow.
  destruct (Z.of_nat (S n) =? 2 ^ k) eqn:E.
  - apply Z.eqb_eq in E.
    assert (0 < 2 ^ k) by (apply Z.pow_pos_nonneg; lia).
    destruct (2 ^ k >? 0) eqn:E0; [|lia].
    exists (k + 1). rewrite Z.pow_add_r by lia.
    replace (k + 1 - 1) with k by lia.
    split; [lia|]. split; [lia|]. split; [lia|]. right. lia.
  - apply Z.eqb_neq in E.
    exists k. split; [done|]. split; [done|]. split; [lia|].
    destruct Hlow as [->|Hlow]; [by left | right; lia].
Qed.

(** ** The unguarded paths, on every input *)

Section Unguarded.
Context {T : Type} `{Element T}.
Implicit Types (h : heap T) (l : loc) (b : storage T) (d : variant T).

(** [operator[]] on the inline element answers every index. *)
Lemma index_mut_inline h (x : T) (i : Z) :
  vector.index_mut i (Vector h (inline_elem x))
  = Ret (inline_at 0) (Vector h (inline_elem x))
  ∧ vector.read (inline_at 0) (Vector h (inline_elem x))
    = Ret x (Vector h (inline_elem x)).
Proof. done. Qed.

Lemma hp_Undef {A} (m : M (heap T) A) h st :
  m h = Undef → bigvector.hp m (BigVector h st) = Undef.
Proof. unfold bigvector.hp, zoom. simpl. by intros ->. Qed.

Lemma slot_outside h l b (k : Z) :
  h !! l = Some (Some b) → Z.of_nat (length (data b)) ≤ k →
  slot (data_at l k) h = Undef.
Proof.
  intros Hl Hk. unfold slot. rewrite (bind_Ret _ _ _ _ _ (live_Ret _ _ _ Hl)).
  destruct (k <? Z.of_nat (length (data b))) eqn:E; [lia|].
  by rewrite andb_false_r.
Qed.

(** [pop_back] on a buffer of size 0 that owns its block alone. *)
Lemma pop_back_empty_block h l b c :
  h !! l = Some (Some b) →
  size_ b = Some 0 → capacity_ b = Some c → ref_count b = Some 1 →
  Z.of_nat (length (data b)) < size_max →
  bigvector.pop_back (BigVector h (Some l)) = Undef.
Proof.
  intros Hl Hn Hc Hrc Hlen. unfold bigvector.pop_back.
  erewrite bind_Ret; [ |
    unfold bigvector.unique_copy;
    step by reflexivity;
    step by (step by (apply hp_Ret; by eapply rd_ref_count_Ret); reflexivity);
    reflexivity ].
  cbv beta iota.
  step by reflexivity.
  step by (apply hp_Ret; by eapply rd_size_Ret).
  step by (apply hp_Ret; apply update_Ret; exact Hl).
  apply hp_Undef. unfold destroy_at, put_slot. apply bind_Undef.
  eapply slot_outside; [apply lookup_insert_eq|]. simpl.
  replace (wrap (0 - 1)) with (size_max - 1) by reflexivity. lia.
Qed.

(** The range constructor on two elements or more. *)
Lemma range_ctor_two_or_more h d (xs : list T) :
  (2 ≤ length xs)%nat → vector.range_ctor xs (Vector h d) = Undef.
Proof.
  intros Hlen. unfold vector.range_ctor.
  destruct (Z.of_nat (length xs) >? 1) eqn:E; [|lia].
  unfold bigvector.range_ctor.
  destruct (Z.of_nat (length xs) <=? 0) eqn:E0; [lia|].
  cbn [vmem].
  step by reflexivity.
  step by reflexivity.
  assert (bigvector.end_
            (BigVector (<[fresh (dom h) :=
                          Some (Storage None None None
                                  (replicate (Z.to_nat (Z.of_nat (length xs))) None))]> h)
               (Some (fresh (dom h)))) = Undef) as Hend.
  { unfold bigvector.end_. step by reflexivity.
    apply bind_Undef, hp_Undef. unfold rd_size.
    erewrite bind_Ret; [|apply live_Ret, lookup_insert_eq]. done. }
  unfold try_catch. rewrite bind_Ret with (a := data_at (fresh (dom h)) 0)
    (s' := BigVector _ (Some (fresh (dom h)))) by reflexivity.
  by rewrite (bind_Undef _ _ _ Hend).
Qed.

(** [operator==] between a buffer with no block and one with a block. *)
Lemma eq_null_store h l :
  bigvector.eq None (Some l) h = Undef ∧ bigvector.eq (Some l) None h = Undef.
Proof.
  split; [done|].
  unfold bigvector.eq. rewrite decide_False by done.
  unfold bind, bigvector.on_object, bigvector.deref, bind, bigvector.get_store,
    rd_size, live, known, bind, ret. simpl.
  destruct (h !! l) as [[b|]|]; [|done..].
  by destruct (size_ b).
Qed.

(** [shrink_to_fit] on a buffer of size 0 that owns its block alone: the
    block is freed and [store] still points to it. *)
Lemma shrink_to_fit_dangling h l b c :
  h !! l = Some (Some b) →
  size_ b = Some 0 → capacity_ b = Some c → ref_count b = Some 1 → c ≠ 0 →
  bigvector.shrink_to_fit (BigVector h (Some l))
  = Ret tt (BigVector (<[l := None]> h) (Some l))
  ∧ bigvector.capacity (BigVector (<[l := None]> h) (Some l)) = Undef.
Proof.
  intros Hl Hn Hc Hrc Hc0. split.
  - unfold bigvector.shrink_to_fit.
    step by (by eapply size_Ret).
    step by (by eapply capacity_Ret).
    destruct (0 =? c) eqn:E; [lia|].
    step by (by eapply size_Ret).
    change (0 =? 0) with true. cbv iota.
    step by reflexivity.
    step by (apply hp_Ret; by eapply rd_ref_count_Ret).
    change (1 =? 1) with true. cbv iota.
    step by reflexivity.
    step by (by eapply end_Ret).
    step by (apply hp_Ret; unfold destroy;
             step by (apply distance_Ret; lia); reflexivity).
    apply hp_Ret. by eapply operator_delete_Ret.
  - unfold bigvector.capacity. step by reflexivity.
    apply hp_Undef. unfold rd_capacity. apply bind_Undef.
    unfold live. by rewrite lookup_insert_eq.
Qed.

(** [reserve(1)] on the inline element: the element moves to a buffer of
    capacity 2. *)
Lemma reserve_one_inline h (x : T) :
  copy_throws x = false →
  ∃ h' l,
    vector.reserve 1 (Vector h (inline_elem x)) = Ret tt (Vector h' (heap_buf (Some l)))
    ∧ vector.capacity (Vector h' (heap_buf (Some l)))
      = Ret 2 (Vector h' (heap_buf (Some l))).
Proof.
  intros Hx.
  destruct (push_back_owns h None [] 0 x) as (h1 & st1 & Hrun1 & Hown1);
    [done | done | done | done |].
  destruct (owns_nonempty _ _ _ _ Hown1) as [l ->]; [done|].
  destruct Hown1 as [Hl _]. change (grow (Z.of_nat (length [])) 0) with 2 in Hl.
  simpl in Hl.
  set (b1 := Storage (Some 1) (Some 2) (Some 1) [Some x; None]) in Hl.
  set (b2 := Storage (Some 1) (Some 2) (Some 2) [Some x; None]).
  exists (<[l := Some b1]> (<[l := Some b2]> h1)), l. split.
  - unfold vector.reserve, vector.with_tmp, finally.
    assert ((k <- vector.on_this vector.index ;;
             if k =? 0 then
               if 1 =? 0 then ret tt
               else vector.on_tmp (bigvector.reserve 1) ;; vector.assign_tmp
             else if k =? 1 then
               if 1 <? 1 then ret tt
               else
                 x0 <- vector.on_this vector.get1 ;;
                 vector.on_tmp (bigvector.push_back x0) ;;
                 vector.on_tmp (bigvector.reserve 1) ;; vector.assign_tmp
             else vector.on_this (vector.get2 (bigvector.reserve 1)))
              (Frame (Vector h (inline_elem x)) None)
            = Ret tt (Frame (Vector (<[l := Some b2]> h1) (heap_buf (Some l))) (Some l)))
      as ->.
    { step by reflexivity.
      change (1 =? 0) with false. change (1 =? 1) with true.
      change (1 <? 1) with false. cbv iota.
      step by reflexivity.
      step by (apply on_tmp_Ret; exact Hrun1).
      erewrite bind_Ret; [ |
        apply on_tmp_Ret; unfold bigvector.reserve;
        step by (eapply capacity_Ret; [exact Hl | reflexivity]);
        reflexivity ].
      cbv beta iota.
      unfold vector.assign_tmp. cbn [tmp_store].
      apply on_this_Ret. unfold vector.assign_bigvector.
      step by reflexivity.
      change (1 =? 2) with false. cbv iota.
      erewrite bind_Ret; [ |
        apply vhp_Ret; unfold bigvector.copy_ctor;
        step by (eapply rd_ref_count_Ret; [exact Hl | reflexivity]);
        step by (apply update_Ret; exact Hl);
        reflexivity ].
      reflexivity. }
    assert (vector.on_tmp bigvector.dtor
              (Frame (Vector (<[l := Some b2]> h1) (heap_buf (Some l))) (Some l))
            = Ret tt (Frame (Vector (<[l := Some b1]> (<[l := Some b2]> h1))
                               (heap_buf (Some l))) (Some l))) as ->.
    { apply on_tmp_Ret. unfold bigvector.dtor.
      step by reflexivity.
      step by (apply hp_Ret; eapply rd_ref_count_Ret; [apply lookup_insert_eq | reflexivity]).
      change (2 >? 1) with true. cbv iota.
      apply hp_Ret. unfold wr_ref_count.
      by erewrite update_Ret by apply lookup_insert_eq. }
    reflexivity.
  - unfold vector.capacity. step by reflexivity.
    change (2 =? 0) with false. change (2 =? 1) with false. cbv iota.
    apply get2_Ret. eapply capacity_Ret; [apply lookup_insert_eq | reflexivity].
Qed.
End Unguarded.

(** ** Equality after a copy *)

Section Copy.
Context {T : Type} `{Element T}.
Implicit Types (h : heap T) (l : loc) (b : storage T) (d : variant T).

(** A copy-constructed vector compares equal to its source, for an
    [operator==] of [T] that is reflexive. *)
Lemma eq_after_copy h a c h' :
  (∀ x : T, equal x x = true) →
  vector.copy_ctor a h = Ret c h' →
  vector.eq a c h' = Ret true h'.
Proof.
  intros Hrefl Hcopy. destruct a as [|x|st]; simpl in Hcopy.
  - injection Hcopy as <- <-. reflexivity.
  - destruct (copy_throws x); [done|]. injection Hcopy as <- <-.
    unfold vector.eq.
    do 4 (step by reflexivity).
    unfold std_equal. do 2 (step by reflexivity).
    rewrite decide_True by done.
    change (Z.to_nat (0 + 1 - 0)) with 1%nat. simpl.
    step by reflexivity. step by reflexivity.
    by rewrite Hrefl.
  - assert (c = heap_buf st) as ->.
    { destruct st as [l|]; simpl in Hcopy.
      - unfold bind in Hcopy.
        destruct (rd_ref_count l h) as [rc h1| |]; [|done..].
        destruct (wr_ref_count l _ h1) as [[] h2| |]; [|done..].
        by injection Hcopy as <- <-.
      - by injection Hcopy as <- <-. }
    simpl. unfold bigvector.eq. by rewrite decide_True.
Qed.
End Copy.

(** * The claims *)

(** C1 (copy-on-write isolation), on the code: a vector [b] copy-constructed
    from [a = [1, 2, 3, 4]] compares equal to [a]; erasing its two middle
    elements, through iterators taken from the const [b], then leaves [a]
    holding [[1, 4, 3, 4]].  [bigvector::erase] copies the tail of a shared
    block onto the shared block. *)
Theorem C1_erase_on_copy_changes_original :
  value (erase_on_copy ∅) = Some (true, [1; 4; 3; 4]).
Proof. vm_compute. reflexivity. Qed.

(** C2 (strong exception guarantee), on the code: [resize(4, x)] on a vector
    of two elements returns when copies of [x] succeed; when the copy of
    [x] throws, the exception is caught in [bigvector::resize_job] and not
    rethrown, and the block freed by the handler is written to. *)
Theorem C2_resize_swallows_exception :
  value (resize_to_four (Int 7)) = Some tt
  ∧ resize_to_four Faulty = Undef.
Proof. split; vm_compute; reflexivity. Qed.

(** C3 (growth law), as stated: the capacity of a vector after [n] calls of
    [push_back] is not the law 0, 2, 2, 4, 4, 8, ... for every [n]; after
    one call it is 1, where the law has 2. *)
Lemma C3_counterexample :
  value ((vector_push_all [5] ;; vector.capacity) empty_vector) = Some 1
  ∧ cap_law 1 = 2
  ∧ ¬ ∀ xs : list Z,
        value ((vector_push_all xs ;; vector.capacity) empty_vector)
        = Some (cap_law (length xs)).
Proof.
  split; [vm_compute; reflexivity|]. split; [reflexivity|].
  intros Hlaw. specialize (Hlaw [5]). vm_compute in Hlaw. discriminate.
Qed.

(** C3 (growth law), amended: pushing the elements [xs], whose copies do
    not throw, onto a buffer with no block leaves the capacity
    [cap_law (length xs)]: 0 at the start, 2 at the first growth, doubled
    at each later growth and unchanged in between.  On the facade the
    capacity is 1 while the single element is held inline, and the
    buffer's from the second element on. *)
Theorem C3_growth_law {T : Type} `{Element T} (h : heap T) (xs : list T) :
  Forall (fun x => copy_throws x = false) xs →
  2 * Z.of_nat (length xs) ≤ size_max →
  value ((bigvector_push_all xs ;; bigvector.capacity) (BigVector h None))
  = Some (cap_law (length xs))
  ∧ value ((vector_push_all xs ;; vector.capacity) (Vector h monostate))
    = Some (vec_cap_law (length xs)).
Proof.
  intros Hok Hbound. split.
  - destruct (bigvector_push_all_owns xs [] h None) as (h' & st' & Hrun & Hown);
      [done | done | done |].
    rewrite (bind_Ret _ _ _ _ _ Hrun).
    by rewrite (owns_capacity _ _ _ _ Hown).
  - destruct (vector_push_all_holds xs [] h monostate) as (h' & d' & Hrun & Hholds);
      [done | done | done |].
    rewrite (bind_Ret _ _ _ _ _ Hrun).
    by rewrite (vec_holds_capacity _ _ _ Hholds).
Qed.

Lemma C3_growth_law_witness :
  Forall (fun x : Z => copy_throws x = false) [1; 2; 3; 4; 5]
  ∧ 2 * Z.of_nat (length [1; 2; 3; 4; 5]) ≤ size_max
  ∧ value ((bigvector_push_all [1; 2; 3; 4; 5] ;; bigvector.capacity) (BigVector ∅ None))
    = Some 8
  ∧ value ((vector_push_all [1; 2; 3; 4; 5] ;; vector.capacity) (Vector ∅ monostate))
    = Some 8.
Proof.
  split; [repeat constructor|].
  split; [vm_compute; intros E; discriminate E|].
  apply (C3_growth_law ∅ [1; 2; 3; 4; 5]).
  - repeat constructor.
  - vm_compute. intros E. discriminate E.
Defined.

(** C4 (invalid access), on the code: on a vector of one element, held
    inline, [v[3]] returns that element; and [pop_back] on a heap-backed
    vector whose size has dropped to 0 raises nothing: the size wraps
    around and a slot far outside the block is destroyed. *)
Theorem C4_unchecked_accesses :
  index_past_inline = Ret 5 (Vector ∅ (inline_elem 5))
  ∧ value ((promoted_empty ;; vector.size) empty_vector) = Some 0
  ∧ (promoted_empty ;; vector.pop_back) empty_vector = Undef.
Proof. repeat split; vm_compute; reflexivity. Qed.

(** C5 (no demotion), as stated: after two calls of [push_back] the vector
    holds a [bigvector], and [assign] from an empty range leaves it holding
    nothing. *)
Lemma C5_counterexample :
  vec_data <$> final (vector_push_all [1; 2] empty_vector)
  = Some (heap_buf (Some 1%positive))
  ∧ vec_data <$> final assign_empty_on_two = Some monostate.
Proof. split; vm_compute; reflexivity. Qed.

(** C5 (no demotion), amended: a vector that holds a [bigvector] still
    holds one after any member function that changes it in place
    ([push_back], [pop_back], [insert], [erase], [clear], [resize],
    [reserve], [shrink_to_fit], mutable element access and writes through
    it), whether the call returns or throws; whereas [assign] builds a new
    vector and takes its representation: from an empty range, none. *)
Theorem C5_no_demotion_in_place {T : Type} `{Element T}
    (op : mutation T) (h : heap T) (st : option loc) :
  (∀ s', final (perform op (Vector h (heap_buf st))) = Some s' →
         is_heap_buf (vec_data s'))
  ∧ (∀ s', vector.assign_range [] (Vector h (heap_buf st)) = Ret tt s' →
           vec_data s' = monostate).
Proof.
  split.
  - intros s' Hop.
    pose proof (keeps_perform op (Vector h (heap_buf st))) as Hk.
    destruct (perform op _) as [a s|e s|]; simplify_eq/=.
    + apply Hk. by eexists.
    + apply Hk. by eexists.
  - intros s'. apply assign_empty_range.
Qed.

Lemma C5_no_demotion_in_place_witness :
  ∃ s1 s2,
    final (perform PopBack three_elements) = Some s1
    ∧ vector.assign_range [] three_elements = Ret tt s2
    ∧ is_heap_buf (vec_data s1) ∧ vec_data s2 = monostate.
Proof.
  eexists _, _.
  split; [vm_compute; reflexivity|].
  split; [vm_compute; reflexivity|].
  destruct (C5_no_demotion_in_place PopBack (vmem three_elements) (Some 2%positive))
    as [Hkeep Hassign].
  split; [apply Hkeep | apply Hassign]; vm_compute; reflexivity.
Defined.

(** C6 (range construction), on the code: constructing a vector from a
    range of two elements reads the size of the block it has just
    allocated, which nothing has set; ranges of no or one element give the
    empty and the one-element vector. *)
Theorem C6_range_ctor_reads_unset_size :
  vector.range_ctor [1; 2] empty_vector = Undef
  ∧ vector.range_ctor [] empty_vector = Ret tt (Vector ∅ monostate)
  ∧ vector.range_ctor [1] empty_vector = Ret tt (Vector ∅ (inline_elem 1)).
Proof. repeat split; vm_compute; reflexivity. Qed.

(** C7 (equality), on the code: when [b], a copy of a vector [a] with
    reserved but unused capacity, has been shrunk to fit, [b] is a
    heap-backed buffer with no block and [a] one with a block; comparing
    them, either way round, dereferences the null [store]. *)
Theorem C7_eq_dereferences_null :
  value (shrink_a_copy ∅) = Some (heap_buf (Some 1%positive), heap_buf None)
  ∧ (p <- shrink_a_copy ;; vector.eq p.1 p.2) ∅ = Undef
  ∧ (p <- shrink_a_copy ;; vector.eq p.2 p.1) ∅ = Undef.
Proof. repeat split; vm_compute; reflexivity. Qed.

(** C8 (reserve), on the code: on a vector of one element, held inline,
    [capacity()] is 1, and [reserve(1)] moves the element to a buffer of
    capacity 2. *)
Theorem C8_reserve_one_on_single :
  value reserve_one_on_single = Some (1, 2, 2).
Proof. vm_compute. reflexivity. Qed.

(** C9 (shrink_to_fit), on the code: on a buffer of size 0 that is the
    only owner of its block, [shrink_to_fit] frees the block and keeps the
    pointer to it; [capacity()] then reads freed memory. *)
Theorem C9_shrink_to_fit_leaves_dangling_store :
  value shrink_unshared_empty = Some (heap_buf (Some 1%positive), Some None)
  ∧ (vector.reserve 4 ;; vector.shrink_to_fit ;; vector.capacity) empty_vector
    = Undef.
Proof. split; vm_compute; reflexivity. Qed.

(** * Further properties of the member functions *)

(** ** Running a member function *)

Lemma bind_assoc {S A B C} (m : M S A) (f : A → M S B) (g : B → M S C) s :
  (y <- (x <- m ;; f x) ;; g y) s = (x <- m ;; y <- f x ;; g y) s.
Proof. unfold bind. by destruct (m s). Qed.

Lemma try_catch_Raise {S A} (m : M S A) h s e s' :
  m s = Raise e s' → try_catch m h s = h e s'.
Proof. unfold try_catch. by intros ->. Qed.

(** A closed fact about a concrete heap. *)
Ltac by_computing :=
  repeat split; vm_compute; first [ reflexivity | discriminate ].

(** A block at an address, through the updates made since. *)
Ltac lookup_tac :=
  repeat first
    [ eassumption
    | apply lookup_insert_eq
    | rewrite lookup_insert_ne by (first [done | congruence]) ].

(** The first action of a computation, when it is a primitive that
    returns. *)
Ltac prim :=
  first
    [ reflexivity
    | apply hp_Ret;
      first
        [ eapply rd_size_Ret; [lookup_tac | reflexivity]
        | eapply rd_capacity_Ret; [lookup_tac | reflexivity]
        | eapply rd_ref_count_Ret; [lookup_tac | reflexivity]
        | apply update_Ret; lookup_tac
        | eapply operator_delete_Ret; lookup_tac ]
    | eapply size_Ret; [lookup_tac | reflexivity]
    | eapply capacity_Ret; [lookup_tac | reflexivity]
    | eapply end_Ret; [lookup_tac | reflexivity] ].

Ltac run :=
  repeat (rewrite ?bind_assoc; step by prim);
  try prim.

Section Reading.
Context {T : Type} `{Element T}.
Implicit Types (h : heap T) (l : loc) (st : option loc) (xs : list T)
  (d : variant T).

Lemma block_of_lookup xs c rc (i : nat) x :
  xs !! i = Some x → data (block_of xs c rc) !! i = Some (Some x).
Proof.
  intros Hx. simpl. rewrite lookup_app_l by (rewrite length_fmap; by eapply lookup_lt_Some).
  by rewrite list_lookup_fmap, Hx.
Qed.

Lemma block_of_length xs c rc :
  Z.of_nat (length xs) ≤ c → length (data (block_of xs c rc)) = Z.to_nat c.
Proof. intros Hc. simpl. rewrite length_app, length_fmap, length_replicate. lia. Qed.

Lemma owns_views h st xs c :
  owns h st xs c → c < size_max → views h st xs c 1.
Proof.
  destruct st; simpl; [|done]. unfold block_of.
  assert (1 < size_max) by done. intuition lia.
Qed.

Lemma cap_law_bound (n : nat) :
  2 * Z.of_nat n ≤ size_max → cap_law n < size_max.
Proof.
  intros Hn. destruct n as [|n]; [done|].
  destruct (cap_law_power_of_two (S n)) as (k & Hk & -> & _ & [->|Hlow]); [lia|done|].
  replace k with (k - 1 + 1) by lia. rewrite Z.pow_add_r by lia. lia.
Qed.

Lemma vec_holds_represents h d xs :
  vec_holds h d xs → 2 * Z.of_nat (length xs) ≤ size_max → represents h d xs.
Proof.
  destruct xs as [|x [|y xs]]; simpl length; simpl vec_holds.
  - by intros ->.
  - by intros ->.
  - intros (st & -> & Hown) Hn. exists (cap_law (S (S (length xs)))), 1.
    apply owns_views; [done|]. by apply cap_law_bound.
Qed.

(** Reading [k] elements from the [i]-th on, through iterators into the
    block. *)
Lemma read_n_block h d l xs c rc (k : nat) : ∀ i : nat,
  h !! l = Some (Some (block_of xs c rc)) →
  (i + k ≤ length xs)%nat →
  read_n (data_at l (Z.of_nat i)) k (Vector h d)
  = Ret (take k (drop i xs)) (Vector h d).
Proof.
  induction k as [|k IH]; intros i Hl Hik; [done|].
  destruct (lookup_lt_is_Some_2 xs i) as [x Hx]; [lia|].
  cbn [read_n].
  step by (apply vhp_Ret; eapply load_Ret; [exact Hl | by apply block_of_lookup]).
  step by reflexivity.
  replace (Z.of_nat i + 1) with (Z.of_nat (S i)) by lia.
  rewrite (bind_Ret _ _ _ _ _ (IH (S i) Hl ltac:(lia))).
  rewrite (drop_S _ _ _ Hx). done.
Qed.

Lemma represents_size h d xs :
  represents h d xs →
  vector.size (Vector h d) = Ret (Z.of_nat (length xs)) (Vector h d).
Proof.
  destruct d as [|x|[l|]]; simpl.
  - by intros ->.
  - by intros ->.
  - intros (c & rc & Hl & _). unfold vector.size. step by reflexivity.
    apply get2_Ret. eapply size_Ret; [exact Hl | reflexivity].
  - by intros (c & rc & -> & _).
Qed.

Lemma represents_contents h d xs :
  represents h d xs → contents (Vector h d) = Ret xs (Vector h d).
Proof.
  intros Hrep. unfold contents.
  destruct d as [|x|[l|]]; simpl in Hrep.
  - by subst xs.
  - by subst xs.
  - destruct Hrep as (c & rc & Hl & Hc & Hrc).
    step by reflexivity.
    step by (apply (represents_size h (heap_buf (Some l)) xs); by exists c, rc).
    rewrite Nat2Z.id.
    rewrite (read_n_block h _ l xs c rc (length xs) 0 Hl) by lia.
    by rewrite drop_0, firstn_all.
  - destruct Hrep as (c & rc & -> & _). done.
Qed.
End Reading.

(** ** Cloning a block *)

Section Cloning.
Context {T : Type} `{Element T}.
Implicit Types (h : heap T) (l : loc) (st : option loc) (xs : list T)
  (d : variant T).

Lemma fresh_ne h l b : h !! l = Some b → fresh (dom h) ≠ l.
Proof. intros Hl Heq. pose proof (fresh_not_live h) as Hf. congruence. Qed.

Lemma copyable_take xs (n : nat) : copyable xs → copyable (take n xs).
Proof. unfold copyable. apply Forall_take. Qed.

Lemma copyable_app xs ys : copyable (xs ++ ys) ↔ copyable xs ∧ copyable ys.
Proof. apply Forall_app. Qed.

(** The first [n] elements of a block copied to the start of a block of
    empty slots. *)
Lemma uninitialized_copy_prefix h l t xs c rc bt (n K : nat) :
  l ≠ t →
  h !! l = Some (Some (block_of xs c rc)) →
  h !! t = Some (Some bt) → data bt = replicate K None →
  (n ≤ length xs)%nat → (n ≤ K)%nat → copyable (take n xs) →
  uninitialized_copy (data_at l 0) (data_at l (Z.of_nat n)) (data_at t 0) h
  = Ret tt (<[t := Some (Storage (size_ bt) (capacity_ bt) (ref_count bt)
                           ((Some <$> take n xs) ++ replicate (K - n) None))]> h).
Proof.
  intros Hne Hl Ht Hdt Hn HK Hok. unfold uninitialized_copy.
  step by (apply distance_Ret; lia).
  replace (Z.to_nat (Z.of_nat n - 0)) with (length (take n xs))
    by (rewrite length_take; lia).
  apply (uninitialized_copy_n_Ret (take n xs) []
           ((Some <$> drop n xs) ++ replicate (Z.to_nat c - length xs) None)
           (K - n) h l t (block_of xs c rc) bt (data_at t 0)); try done.
  - simpl. by rewrite app_assoc, <- fmap_app, take_drop.
  - rewrite Hdt. simpl. f_equal. rewrite length_take. lia.
Qed.

(** The copy that every reallocating member function starts with. *)
Lemma copy_all_Ret handler h l t xs c rc bt (K : nat) :
  l ≠ t →
  h !! l = Some (Some (block_of xs c rc)) →
  h !! t = Some (Some bt) → data bt = replicate K None →
  (length xs ≤ K)%nat → copyable xs →
  try_catch
    (b <- bigvector.begin ;; e <- bigvector.end_ ;;
     bigvector.hp (uninitialized_copy b e (data_at t 0)))
    handler (BigVector h (Some l))
  = Ret tt (BigVector
              (<[t := Some (Storage (size_ bt) (capacity_ bt) (ref_count bt)
                              ((Some <$> xs) ++ replicate (K - length xs) None))]> h)
              (Some l)).
Proof.
  intros Hne Hl Ht Hdt HK Hok. apply try_catch_Ret.
  step by reflexivity.
  step by (eapply end_Ret; [exact Hl | reflexivity]).
  apply hp_Ret.
  rewrite (uninitialized_copy_prefix h l t xs c rc bt (length xs) K); try done.
  - by rewrite firstn_all.
  - by rewrite firstn_all.
Qed.

(** [unique_copy] on a block with other owners: the buffer gets a block of
    its own with the same elements and capacity, and the old block has one
    owner fewer and is otherwise untouched. *)
Lemma unique_copy_shared h l xs c rc :
  h !! l = Some (Some (block_of xs c rc)) →
  Z.of_nat (length xs) ≤ c → 2 ≤ rc < size_max → copyable xs →
  bigvector.unique_copy (BigVector h (Some l))
  = Ret tt (BigVector
              (<[l := Some (block_of xs c (rc - 1))]>
                 (<[fresh (dom h) := Some (block_of xs c 1)]> h))
              (Some (fresh (dom h)))).
Proof.
  intros Hl Hc Hrc Hok.
  pose proof (fresh_ne h l _ Hl) as Hne.
  unfold bigvector.unique_copy.
  step by reflexivity.
  erewrite bind_Ret; [| step by prim; reflexivity ]. cbv beta iota.
  destruct (rc =? 1) eqn:E; [lia|]. clear E.
  run.
  set (t := fresh (dom h)) in *.
  erewrite bind_Ret; [|
    eapply (copy_all_Ret _ _ l t xs c rc _ (Z.to_nat c));
      [done | lookup_tac | lookup_tac | reflexivity | lia | done] ].
  cbv beta iota. rewrite insert_insert_eq.
  run. rewrite !insert_insert_eq.
  rewrite wrap_small by lia. reflexivity.
Qed.
End Cloning.

(** ** The buffer on a block with given elements *)

(** Two heaps that were updated at the same addresses. *)
Ltac heap_eq :=
  apply map_eq; intros ?k;
  repeat match goal with
    | |- context [<[?a := _]> _ !! ?k] =>
        destruct (decide (a = k)) as [->|?];
        [ rewrite !lookup_insert_eq | rewrite !(lookup_insert_ne _ a k) by done ]
    end;
  first [ done | congruence ].

Section Buffer.
Context {T : Type} `{Element T}.
Implicit Types (h : heap T) (l : loc) (st : option loc) (xs : list T)
  (d : variant T).

Lemma blank_lookup_above (k : nat) : ∀ (i : nat) (dd : list (option T)) (j : nat),
  (i + k ≤ j)%nat → blank i k dd !! j = dd !! j.
Proof.
  induction k as [|k IH]; intros i dd j Hj; simpl; [done|].
  rewrite IH by lia. apply list_lookup_insert_ne. lia.
Qed.

Lemma blank_block xs (c : Z) (n : nat) :
  (n ≤ length xs)%nat → Z.of_nat (length xs) ≤ c →
  blank n (length xs - n) ((Some <$> xs) ++ replicate (Z.to_nat c - length xs) None)
  = (Some <$> take n xs) ++ replicate (Z.to_nat c - n) None.
Proof.
  intros Hn Hc. apply list_eq. intros j.
  destruct (decide (j < n)%nat) as [Hj|Hj].
  - rewrite blank_lookup_below by done.
    rewrite !lookup_app_l by (rewrite length_fmap, ?length_take; lia).
    rewrite !list_lookup_fmap. by rewrite lookup_take_lt.
  - rewrite (lookup_app_r (Some <$> take n xs))
      by (rewrite length_fmap, length_take; lia).
    rewrite length_fmap, length_take.
    destruct (decide (j < length xs)%nat) as [Hj'|Hj'].
    + rewrite blank_lookup
        by (rewrite ?length_app, ?length_fmap, ?length_replicate; lia).
      symmetry. apply lookup_replicate_2. lia.
    + rewrite blank_lookup_above by lia.
      rewrite lookup_app_r by (rewrite length_fmap; lia).
      rewrite length_fmap.
      destruct (decide (j < Z.to_nat c)%nat) as [Hjc|Hjc].
      * rewrite !lookup_replicate_2 by lia. done.
      * rewrite !lookup_ge_None_2; [done | |]; rewrite length_replicate; lia.
Qed.
End Buffer.

(** ** Giving up a block *)

Section Release.
Context {T : Type} `{Element T}.
Implicit Types (h : heap T) (l : loc) (st : option loc) (xs : list T).

(** The last owner destroys the elements and frees the block. *)
Lemma release_last h l xs c :
  h !! l = Some (Some (block_of xs c 1)) → Z.of_nat (length xs) ≤ c →
  bigvector.release l (BigVector h (Some l))
  = Ret tt (BigVector (<[l := None]> h) (Some l)).
Proof.
  intros Hl Hc. unfold bigvector.release. run.
  change (1 =? 1) with true. cbv iota. run.
  change (data_at l 0) with (data_at l (Z.of_nat 0)).
  step by (apply hp_Ret; eapply destroy_Ret;
           [ exact Hl | rewrite block_of_length by done; lia ]).
  erewrite hp_Ret; [| eapply operator_delete_Ret; apply lookup_insert_eq ].
  by rewrite insert_insert_eq.
Qed.

(** Any other owner only counts itself out. *)
Lemma release_other h st l xs c rc :
  h !! l = Some (Some (block_of xs c rc)) → 2 ≤ rc < size_max →
  bigvector.release l (BigVector h st)
  = Ret tt (BigVector (<[l := Some (block_of xs c (rc - 1))]> h) st).
Proof.
  intros Hl Hrc. unfold bigvector.release. run.
  destruct (rc =? 1) eqn:E; [lia|].
  erewrite hp_Ret; [| apply update_Ret; exact Hl ].
  by rewrite wrap_small by lia.
Qed.

(** [~bigvector()] *)
Lemma dtor_last h l xs c :
  h !! l = Some (Some (block_of xs c 1)) → Z.of_nat (length xs) ≤ c →
  bigvector.dtor (BigVector h (Some l))
  = Ret tt (BigVector (<[l := None]> h) (Some l)).
Proof.
  intros Hl Hc. unfold bigvector.dtor. run.
  change (1 >? 1) with false. cbv iota. run.
  change (data_at l 0) with (data_at l (Z.of_nat 0)).
  step by (apply hp_Ret; eapply destroy_Ret;
           [ exact Hl | rewrite block_of_length by done; lia ]).
  erewrite hp_Ret; [| eapply operator_delete_Ret; apply lookup_insert_eq ].
  by rewrite insert_insert_eq.
Qed.

Lemma dtor_other h l xs c rc :
  h !! l = Some (Some (block_of xs c rc)) → 2 ≤ rc < size_max →
  bigvector.dtor (BigVector h (Some l))
  = Ret tt (BigVector (<[l := Some (block_of xs c (rc - 1))]> h) (Some l)).
Proof.
  intros Hl Hrc. unfold bigvector.dtor. run.
  destruct (rc >? 1) eqn:E; [|lia].
  erewrite hp_Ret; [| apply update_Ret; exact Hl ].
  by rewrite wrap_small by lia.
Qed.

(** [bigvector(bigvector const &)] *)
Lemma copy_ctor_block h l xs c rc :
  h !! l = Some (Some (block_of xs c rc)) → 0 ≤ rc → rc + 1 < size_max →
  bigvector.copy_ctor (Some l) h
  = Ret (Some l) (<[l := Some (block_of xs c (rc + 1))]> h).
Proof.
  intros Hl Hrc0 Hrc. unfold bigvector.copy_ctor.
  step by (eapply rd_ref_count_Ret; [exact Hl | reflexivity]).
  step by (apply update_Ret; exact Hl).
  by rewrite wrap_small by lia.
Qed.
End Release.

(** ** What a caller reads *)

(** X1: [push_back] and the read accessors round-trip.  Pushing the
    elements [xs] one by one onto an empty vector returns, and then
    [size()] is their number, [empty()] tells whether there are none, and
    reading from [begin()] to [end()] gives back [xs] in order; for
    elements whose copies do not throw, and at most 2^63 of them. *)
Theorem X1_push_back_then_read {T : Type} `{Element T} (h : heap T) (xs : list T) :
  copyable xs → 2 * Z.of_nat (length xs) ≤ size_max →
  ∃ s, vector_push_all xs (Vector h monostate) = Ret tt s
       ∧ vector.size s = Ret (Z.of_nat (length xs)) s
       ∧ vector.empty s = Ret (match xs with [] => true | _ => false end) s
       ∧ contents s = Ret xs s.
Proof.
  intros Hok Hn.
  destruct (vector_push_all_holds xs [] h monostate) as (h' & d' & Hrun & Hholds);
    [done | done | done |].
  simpl in Hholds. apply vec_holds_represents in Hholds; [|done].
  exists (Vector h' d'). split; [done|].
  pose proof (represents_size _ _ _ Hholds) as Hsize.
  split; [done|]. split.
  - unfold vector.empty. rewrite (bind_Ret _ _ _ _ _ Hsize).
    by destruct xs.
  - by apply represents_contents.
Qed.

Lemma X1_push_back_then_read_witness :
  ∃ s, vector_push_all [10; 20; 30] (Vector (∅ : heap Z) monostate) = Ret tt s
       ∧ vector.size s = Ret 3 s
       ∧ vector.empty s = Ret false s
       ∧ contents s = Ret [10; 20; 30] s.
Proof.
  apply (X1_push_back_then_read (∅ : heap Z) [10; 20; 30]).
  - repeat constructor.
  - vm_compute. discriminate.
Defined.

(** X2: the slack [push_back] leaves.  After [n >= 2] elements have been
    pushed onto an empty vector, [capacity()] is at least [n] and less
    than [2 * n]: never more than half of the block is unused. *)
Theorem X2_capacity_after_pushes {T : Type} `{Element T} (h : heap T) (xs : list T) :
  copyable xs → 2 * Z.of_nat (length xs) ≤ size_max → (2 ≤ length xs)%nat →
  ∃ s c, vector_push_all xs (Vector h monostate) = Ret tt s
         ∧ vector.capacity s = Ret c s
         ∧ Z.of_nat (length xs) ≤ c < 2 * Z.of_nat (length xs).
Proof.
  intros Hok Hn Hlen.
  destruct (vector_push_all_holds xs [] h monostate) as (h' & d' & Hrun & Hholds);
    [done | done | done |].
  simpl in Hholds.
  exists (Vector h' d'), (vec_cap_law (length xs)).
  split; [done|]. split; [by apply vec_holds_capacity|].
  destruct (length xs) as [|[|n]] eqn:E; [lia | lia |].
  change (vec_cap_law (S (S n))) with (cap_law (S (S n))).
  destruct (cap_law_power_of_two (S (S n))) as (k & Hk & -> & Hle & [->|Hlow]);
    [lia | lia |].
  replace k with (k - 1 + 1) in * by lia. rewrite Z.pow_add_r in * by lia.
  replace (k - 1 + 1 - 1) with (k - 1) in Hlow by lia. lia.
Qed.

Lemma X2_capacity_after_pushes_witness :
  ∃ s c, vector_push_all [1; 2; 3; 4; 5] (Vector (∅ : heap Z) monostate) = Ret tt s
         ∧ vector.capacity s = Ret c s
         ∧ 5 ≤ c < 10.
Proof.
  apply (X2_capacity_after_pushes (∅ : heap Z) [1; 2; 3; 4; 5]).
  - repeat constructor.
  - vm_compute. discriminate.
  - simpl. lia.
Defined.

Section Access.
Context {T : Type} `{Element T}.
Implicit Types (h : heap T) (l : loc) (st : option loc) (xs : list T).

(** [operator[] const] of the buffer. *)
Lemma bigvector_index_const h l xs c rc (i : Z) :
  h !! l = Some (Some (block_of xs c rc)) →
  bigvector.index_const i (BigVector h (Some l))
  = if i >=? Z.of_nat (length xs)
    then Raise (runtime_error "vector index out of range") (BigVector h (Some l))
    else Ret (data_at l i) (BigVector h (Some l)).
Proof.
  intros Hl. unfold bigvector.index_const. run.
  destruct (i >=? Z.of_nat (length xs)); [done|]. by run.
Qed.

Lemma get2_Raise {A} (m : B T A) h st e h' st' :
  m (BigVector h st) = Raise e (BigVector h' st') →
  vector.get2 m (Vector h (heap_buf st)) = Raise e (Vector h' (heap_buf st')).
Proof. unfold vector.get2. cbn [vec_data vmem]. by intros ->. Qed.

Lemma block_capacity h l xs c rc :
  h !! l = Some (Some (block_of xs c rc)) →
  vector.capacity (Vector h (heap_buf (Some l)))
  = Ret c (Vector h (heap_buf (Some l))).
Proof.
  intros Hl. unfold vector.capacity. step by reflexivity.
  change (2 =? 0) with false. change (2 =? 1) with false. cbv iota.
  apply get2_Ret. eapply capacity_Ret; [exact Hl | reflexivity].
Qed.

Lemma read_block h d l xs c rc (i : nat) x :
  h !! l = Some (Some (block_of xs c rc)) → xs !! i = Some x →
  vector.read (data_at l (Z.of_nat i)) (Vector h d) = Ret x (Vector h d).
Proof.
  intros Hl Hx. apply vhp_Ret.
  eapply load_Ret; [exact Hl | by apply block_of_lookup].
Qed.
End Access.

(** X3: [operator[] const] on a heap-backed vector is bounds-checked.
    On a vector whose block holds [xs], [v[i]] reads the [i]-th element
    when [i < size()], and otherwise throws
    [runtime_error("vector index out of range")]; either way nothing
    changes. *)
Theorem X3_index_const_checked {T : Type} `{Element T}
    (h : heap T) (l : loc) (xs : list T) (c rc i : Z) :
  h !! l = Some (Some (block_of xs c rc)) → 0 ≤ i →
  (p <- vector.index_const i ;; vector.read p) (Vector h (heap_buf (Some l)))
  = match xs !! Z.to_nat i with
    | Some x => Ret x (Vector h (heap_buf (Some l)))
    | None => Raise (runtime_error "vector index out of range")
                (Vector h (heap_buf (Some l)))
    end.
Proof.
  intros Hl Hi.
  pose proof (bigvector_index_const h l xs c rc i Hl) as Hidx.
  unfold vector.index_const. rewrite bind_assoc. step by reflexivity.
  change (2 =? 1) with false. cbv iota.
  destruct (xs !! Z.to_nat i) as [x|] eqn:Hx.
  - apply lookup_lt_Some in Hx as Hlt.
    destruct (i >=? Z.of_nat (length xs)) eqn:E; [lia|].
    step by (apply get2_Ret; exact Hidx).
    replace i with (Z.of_nat (Z.to_nat i)) by lia.
    by eapply read_block.
  - apply lookup_ge_None in Hx.
    destruct (i >=? Z.of_nat (length xs)) eqn:E; [|lia].
    apply bind_Raise. by apply get2_Raise.
Qed.

Lemma X3_index_const_checked_witness :
  (p <- vector.index_const 1 ;; vector.read p)
    (Vector (one_block [10; 20; 30] 4 1) (heap_buf (Some 1%positive)))
  = Ret 20 (Vector (one_block [10; 20; 30] 4 1) (heap_buf (Some 1%positive)))
  ∧ (p <- vector.index_const 3 ;; vector.read p)
      (Vector (one_block [10; 20; 30] 4 1) (heap_buf (Some 1%positive)))
    = Raise (runtime_error "vector index out of range")
        (Vector (one_block [10; 20; 30] 4 1) (heap_buf (Some 1%positive))).
Proof.
  split.
  - apply (X3_index_const_checked (one_block [10; 20; 30] 4 1) 1%positive
             [10; 20; 30] 4 1 1); [vm_compute; reflexivity | lia].
  - apply (X3_index_const_checked (one_block [10; 20; 30] 4 1) 1%positive
             [10; 20; 30] 4 1 3); [vm_compute; reflexivity | lia].
Defined.

(** X4: [front() const] and [back() const] on a heap-backed vector.  On a
    vector whose block holds [xs], they read the first and the last
    element; when the block holds no element both throw
    [runtime_error("vector index out of range")], [back()] because the
    index [size() - 1] wraps around to the largest [size_t]. *)
Theorem X4_front_back_const {T : Type} `{Element T}
    (h : heap T) (l : loc) (xs : list T) (c rc : Z) :
  h !! l = Some (Some (block_of xs c rc)) → Z.of_nat (length xs) < size_max →
  let s := Vector h (heap_buf (Some l)) in
  (p <- vector.front_const ;; vector.read p) s
  = match head xs with
    | Some x => Ret x s
    | None => Raise (runtime_error "vector index out of range") s
    end
  ∧ (p <- vector.back_const ;; vector.read p) s
    = match last xs with
      | Some x => Ret x s
      | None => Raise (runtime_error "vector index out of range") s
      end.
Proof.
  intros Hl Hn s. unfold s. split.
  - pose proof (bigvector_index_const h l xs c rc 0 Hl) as Hidx.
    unfold vector.front_const, bigvector.front_const.
    rewrite bind_assoc. step by reflexivity.
    change (2 =? 1) with false. cbv iota.
    destruct xs as [|x xs]; simpl head.
    + apply bind_Raise. by apply get2_Raise.
    + destruct (0 >=? Z.of_nat (length (x :: xs))) eqn:E; [done|].
      step by (apply get2_Ret; exact Hidx).
      by apply (read_block h _ l (x :: xs) c rc 0%nat x).
  - set (i := wrap (Z.of_nat (length xs) - 1)).
    pose proof (bigvector_index_const h l xs c rc i Hl) as Hidx.
    assert (bigvector.back_const (BigVector h (Some l))
            = bigvector.index_const i (BigVector h (Some l))) as Hback.
    { unfold bigvector.back_const. by run. }
    unfold vector.back_const.
    rewrite bind_assoc. step by reflexivity.
    change (2 =? 1) with false. cbv iota.
    destruct (decide (xs = [])) as [->|Hne].
    + apply bind_Raise. apply get2_Raise. rewrite Hback, Hidx. done.
    + assert (∃ x, last xs = Some x) as [x Hx].
      { destruct (last xs) eqn:E; [by eexists|]. by apply last_None in E. }
      rewrite Hx. rewrite last_lookup in Hx.
      assert (length xs ≠ 0%nat) by (by destruct xs).
      replace (pred (length xs)) with (length xs - 1)%nat in Hx
        by (destruct (length xs); [done | simpl; lia]).
      assert (i = Z.of_nat (length xs - 1)) as Hi.
      { unfold i. rewrite wrap_small; lia. }
      rewrite Hi in *.
      destruct (Z.of_nat (length xs - 1) >=? Z.of_nat (length xs)) eqn:E;
        [apply Z.geb_le in E; lia|].
      step by (apply get2_Ret; rewrite Hback; exact Hidx).
      by eapply read_block.
Qed.

Lemma X4_front_back_const_witness :
  let s := Vector (one_block [10; 20; 30] 4 1) (heap_buf (Some 1%positive)) in
  (p <- vector.front_const ;; vector.read p) s = Ret 10 s
  ∧ (p <- vector.back_const ;; vector.read p) s = Ret 30 s.
Proof.
  apply (X4_front_back_const (one_block [10; 20; 30] 4 1) 1%positive
           [10; 20; 30] 4 1); [vm_compute; reflexivity | vm_compute; reflexivity].
Defined.

(** ** What a mutating call leaves to the other vectors *)

Section Others.
Context {T : Type} `{Element T}.
Implicit Types (h : heap T) (l : loc) (st : option loc) (xs ys : list T)
  (d a : variant T).

Lemma others_kept_refl h st xs c rc :
  views h st xs c rc → others_kept h st xs c rc h.
Proof.
  intros Hv. split; [done|]. intros l -> _. right. by destruct Hv.
Qed.

(** The buffer was the only owner and changed its block in place. *)
Lemma others_kept_in_place h l xs c b :
  others_kept h (Some l) xs c 1 (<[l := b]> h).
Proof.
  split; [|lia]. intros k Hk _. apply lookup_insert_ne. congruence.
Qed.

(** The buffer was the only owner and moved to a new block. *)
Lemma others_kept_moved h l xs c b b' :
  others_kept h (Some l) xs c 1 (<[l := b]> (<[fresh (dom h) := b']> h)).
Proof.
  split; [|lia]. intros k Hk [v Hv].
  rewrite lookup_insert_ne by congruence.
  apply lookup_insert_ne. by apply fresh_ne in Hv.
Qed.

(** The buffer left a block to its other owners and moved to a new one. *)
Lemma others_kept_left h l xs c rc b' :
  others_kept h (Some l) xs c rc
    (<[l := Some (block_of xs c (rc - 1))]> (<[fresh (dom h) := b']> h)).
Proof.
  split.
  - intros k Hk [v Hv].
    rewrite lookup_insert_ne by congruence.
    apply lookup_insert_ne. by apply fresh_ne in Hv.
  - intros ? [= <-] _. left. apply lookup_insert_eq.
Qed.

(** The buffer had no block and allocated one. *)
Lemma others_kept_new h xs c rc b' :
  others_kept h None xs c rc (<[fresh (dom h) := b']> h).
Proof.
  split; [|done]. intros k _ [v Hv].
  apply lookup_insert_ne. by apply fresh_ne in Hv.
Qed.

Lemma kept_represents h st xs c rc h' a ys :
  views h st xs c rc → others_kept h st xs c rc h' →
  represents h a ys → apart h (heap_buf st) a →
  represents h' a ys.
Proof.
  intros Hv [Hframe Hown] Hrep Hapart.
  destruct a as [|y|[l'|]]; [done | done | | done].
  destruct Hrep as (c' & rc' & Hl' & Hc' & Hrc').
  destruct (decide (Some l' = st)) as [<-|Hne].
  - destruct Hv as (Hl & Hc & Hrc).
    destruct Hapart as (b & rc0 & Hb & Hrc0 & Hshared); [done|].
    assert (block_of ys c' rc' = block_of xs c rc) as Heq by congruence.
    assert (rc0 = rc) as -> by (rewrite Hl in Hb; injection Hb as <-; by injection Hrc0).
    injection Heq as Hsz <- <- Hdata.
    assert (∀ r, block_of ys c' r = block_of xs c' r) as Hbl.
    { intros r. unfold block_of. by rewrite Hsz, Hdata. }
    destruct (Hown l' eq_refl Hshared) as [Hl1|Hl1].
    + exists c', (rc' - 1). cbn [views]. rewrite Hbl. split; [done|]. split; [done|lia].
    + exists c', rc'. cbn [views]. rewrite Hbl. done.
  - exists c', rc'. split; [|done].
    rewrite Hframe; [done | congruence | by rewrite Hl'].
Qed.
End Others.

(** ** Copy on write *)

Section CopyOnWrite.
Context {T : Type} `{Element T}.
Implicit Types (h : heap T) (l : loc) (st : option loc) (xs ys : list T)
  (d a : variant T).

Lemma others_kept_update h l xs c rc h1 l1 b :
  others_kept h (Some l) xs c rc h1 →
  (l1 = l ∧ rc = 1) ∨ (h !! l1 = None ∧ l1 ≠ l) →
  others_kept h (Some l) xs c rc (<[l1 := b]> h1).
Proof.
  intros [Hframe Hown] Hl1. split.
  - intros k Hk [v Hv]. rewrite lookup_insert_ne; [apply Hframe; by eauto|].
    destruct Hl1 as [[-> _]|[Hnone _]]; congruence.
  - intros ? [= <-] Hrc. rewrite lookup_insert_ne; [by apply Hown|].
    destruct Hl1 as [[_ ->]|[_ ?]]; [lia | done].
Qed.

(** [unique_copy]: afterwards the buffer is the only owner of its block,
    which is the one it had when it was alone and a new one with the same
    elements and capacity otherwise. *)
Lemma unique_copy_views h l xs c rc :
  views h (Some l) xs c rc → copyable xs →
  ∃ h1 l1,
    bigvector.unique_copy (BigVector h (Some l)) = Ret tt (BigVector h1 (Some l1))
    ∧ h1 !! l1 = Some (Some (block_of xs c 1))
    ∧ others_kept h (Some l) xs c rc h1
    ∧ ((l1 = l ∧ rc = 1) ∨ (h !! l1 = None ∧ l1 ≠ l)).
Proof.
  intros (Hl & Hc & Hrc) Hok.
  destruct (decide (rc = 1)) as [->|Hne].
  - exists h, l. split; [|split; [done|split; [by apply others_kept_refl|by left]]].
    unfold bigvector.unique_copy. run.
  - eexists _, _. split; [apply (unique_copy_shared h l xs c rc); by try lia|].
    split; [|split].
    + rewrite lookup_insert_ne by (by apply fresh_ne in Hl).
      apply lookup_insert_eq.
    + apply others_kept_left.
    + right. split; [apply fresh_not_live | by apply fresh_ne in Hl].
Qed.

Lemma pop_slot xs (x : T) (k : nat) :
  <[length xs := None]> ((Some <$> (xs ++ [x])) ++ replicate k None)
  = (Some <$> xs) ++ replicate (S k) None.
Proof.
  rewrite fmap_app, <- app_assoc.
  replace (length xs) with (length (Some <$> xs) + 0)%nat
    by (rewrite length_fmap; lia).
  by rewrite insert_app_r.
Qed.

(** [pop_back] *)
Lemma pop_back_views h l xs x c rc :
  views h (Some l) (xs ++ [x]) c rc → copyable (xs ++ [x]) →
  ∃ h' l',
    bigvector.pop_back (BigVector h (Some l)) = Ret tt (BigVector h' (Some l'))
    ∧ views h' (Some l') xs c 1
    ∧ others_kept h (Some l) (xs ++ [x]) c rc h'.
Proof.
  intros Hv Hok.
  destruct (unique_copy_views h l _ c rc Hv Hok) as (h1 & l1 & Hrun & Hl1 & Hkept & Hnew).
  destruct Hv as (_ & Hc & Hrc).
  rewrite length_app in Hc. simpl in Hc.
  unfold bigvector.pop_back.
  rewrite (bind_Ret _ _ _ _ _ Hrun). run.
  rewrite length_app. simpl length.
  replace (wrap (Z.of_nat (length xs + 1) - 1)) with (Z.of_nat (length xs))
    by (rewrite wrap_small; lia).
  eexists _, l1. split; [|split].
  - apply hp_Ret. unfold destroy_at.
    eapply put_slot_Ret; [apply lookup_insert_eq|].
    simpl. rewrite length_app, !length_fmap, length_app, length_replicate. simpl. lia.
  - cbn [views]. rewrite !insert_insert_eq, lookup_insert_eq. split; [|lia].
    unfold block_of. cbn [size_ capacity_ ref_count data].
    rewrite length_app. simpl length.
    rewrite pop_slot.
    by replace (S (Z.to_nat c - (length xs + 1))) with (Z.to_nat c - length xs)%nat
      by lia.
  - rewrite insert_insert_eq. by apply others_kept_update.
Qed.
End CopyOnWrite.

(** X5: [pop_back] removes the last element and nothing else.  On a
    vector that holds [xs ++ [x]], inline or in a block, [pop_back()]
    returns and the vector holds [xs]; a heap-backed vector keeps its
    capacity; and every other vector, also one that shared the block,
    holds what it held (the block is cloned first when it is shared, so
    the copies of the elements must not throw). *)
Theorem X5_pop_back {T : Type} `{Element T}
    (h : heap T) (d a : variant T) (xs ys : list T) (x : T) :
  represents h d (xs ++ [x]) → copyable (xs ++ [x]) →
  represents h a ys → apart h d a →
  ∃ h' d',
    vector.pop_back (Vector h d) = Ret tt (Vector h' d')
    ∧ represents h' d' xs
    ∧ represents h' a ys
    ∧ (is_heap_buf d → ∀ c,
         vector.capacity (Vector h d) = Ret c (Vector h d) →
         vector.capacity (Vector h' d') = Ret c (Vector h' d')).
Proof.
  intros Hrep Hok Ha Hapart.
  destruct d as [|x0|[l|]]; simpl in Hrep.
  - by destruct xs.
  - exists h, monostate. split; [done|]. split.
    + destruct xs as [|? [|? ?]]; simplify_eq/=; done.
    + split; [done|]. by intros [st [=]].
  - destruct Hrep as (c & rc & Hv).
    destruct (pop_back_views h l xs x c rc Hv Hok) as (h' & l' & Hrun & Hv' & Hkept).
    exists h', (heap_buf (Some l')). split; [|split; [|split]].
    + unfold vector.pop_back. step by reflexivity.
      change (2 =? 0) with false. change (2 =? 1) with false. cbv iota.
      by apply get2_Ret.
    + by exists c, 1.
    + by apply (kept_represents h (Some l) (xs ++ [x]) c rc h' a ys).
    + intros _ c0 Hcap.
      assert (c0 = c) as ->.
      { destruct Hv as (Hl & _).
        rewrite (block_capacity _ _ _ _ _ Hl) in Hcap. by injection Hcap. }
      destruct Hv' as (Hl' & _). by eapply block_capacity.
  - destruct Hrep as (c & rc & Hnil & _). by destruct xs.
Qed.

Lemma X5_pop_back_witness :
  ∃ h' d',
    vector.pop_back (Vector (one_block [10; 20; 30] 4 2) (heap_buf (Some 1%positive)))
    = Ret tt (Vector h' d')
    ∧ represents h' d' [10; 20]
    ∧ represents h' (heap_buf (Some 1%positive)) [10; 20; 30]
    ∧ (@is_heap_buf Z (heap_buf (Some 1%positive)) → ∀ c,
         vector.capacity (Vector (one_block [10; 20; 30] 4 2) (heap_buf (Some 1%positive)))
         = Ret c (Vector (one_block [10; 20; 30] 4 2) (heap_buf (Some 1%positive))) →
         vector.capacity (Vector h' d') = Ret c (Vector h' d')).
Proof.
  apply (X5_pop_back (one_block [10; 20; 30] 4 2) (heap_buf (Some 1%positive))
           (heap_buf (Some 1%positive)) [10; 20] [10; 20; 30] 30).
  - exists 4, 2. by_computing.
  - repeat constructor.
  - exists 4, 2. by_computing.
  - intros _. eexists _, 2. split; [vm_compute; reflexivity|]. split; [reflexivity|lia].
Defined.

(** ** Reallocation *)

(** The heap after a call that moved the buffer from block [l] to a new
    block: what is left to the others. *)
Ltac kept_tac :=
  split;
  [ let k := fresh "k" in
    let Hk := fresh "Hk" in
    let Hv := fresh "Hv" in
    intros k Hk [? Hv];
    pose proof (fresh_ne _ _ _ Hv);
    rewrite ?lookup_insert_ne by (first [congruence | assumption]); reflexivity
  | let Hrc := fresh "Hrc" in
    intros ? [= <-] Hrc;
    try (rewrite decide_False by lia);
    first [ lia | left; lookup_tac ] ].

Section Realloc.
Context {T : Type} `{Element T}.
Implicit Types (h : heap T) (l : loc) (st : option loc) (xs ys : list T)
  (d a : variant T).

Lemma release_views h l xs c rc :
  views h (Some l) xs c rc →
  bigvector.release l (BigVector h (Some l))
  = Ret tt (BigVector (<[l := given_up xs c rc]> h) (Some l)).
Proof.
  intros (Hl & Hc & Hrc). unfold given_up. destruct (decide (rc = 1)) as [->|Hne].
  - apply (release_last h l xs c); [done | lia].
  - apply release_other; [done | lia].
Qed.
End Realloc.

Section PushBackViews.
Context {T : Type} `{Element T}.
Implicit Types (h : heap T) (l : loc) (st : option loc) (xs ys : list T)
  (d a : variant T).

Lemma block_of_room xs (c : Z) (x : T) :
  Z.of_nat (length xs) < c →
  <[length xs := Some x]> ((Some <$> xs) ++ replicate (Z.to_nat c - length xs) None)
  = (Some <$> (xs ++ [x])) ++ replicate (Z.to_nat c - length (xs ++ [x])) None.
Proof.
  intros Hc. destruct (Z.to_nat c - length xs)%nat as [|k] eqn:Ek; [lia|].
  rewrite insert_after_prefix, length_app. simpl length.
  by replace (Z.to_nat c - (length xs + 1))%nat with k by lia.
Qed.

(** The first [push_back] of a buffer allocates a block for two. *)
Lemma push_back_first h x :
  copy_throws x = false →
  bigvector.push_back x (BigVector h None)
  = Ret tt (BigVector (<[fresh (dom h) := Some (block_of [x] 2 1)]> h)
              (Some (fresh (dom h)))).
Proof.
  intros Hx. unfold bigvector.push_back, bigvector.or_else. run.
  set (t := fresh (dom h)) in *.
  erewrite bind_Ret; [ |
    apply try_catch_Ret; run;
    apply hp_Ret;
    eapply (construct_at_Ret _ t _ 0%nat x);
      [ apply lookup_insert_eq | simpl; lia | done ] ].
  cbv beta iota. run.
  by rewrite !insert_insert_eq.
Qed.

(** [push_back], whatever the number of owners of the block. *)
Lemma push_back_views h st xs c rc x :
  views h st xs c rc → copyable xs → copy_throws x = false →
  2 * Z.of_nat (length xs) < size_max →
  ∃ h' l',
    bigvector.push_back x (BigVector h st) = Ret tt (BigVector h' (Some l'))
    ∧ views h' (Some l') (xs ++ [x]) (grow (Z.of_nat (length xs)) c) 1
    ∧ others_kept h st xs c rc h'
    ∧ (st = Some l' ∨ h !! l' = None).
Proof.
  intros Hv Hok Hx Hbound.
  assert (Hsm : size_max = 2 ^ 64) by reflexivity.
  destruct st as [l|]; cbn [views] in Hv.
  - destruct Hv as (Hl & Hc & Hrc).
    pose proof (fresh_ne h l _ Hl) as Hne.
    set (n := Z.of_nat (length xs)) in *.
    destruct (decide (n = c ∨ 2 ≤ rc)) as [Hgrow|Hstay].
    + (* a new block *)
      set (c' := grow n c).
      assert (n < c' < size_max) as Hc'.
      { unfold c', grow. destruct (n =? c) eqn:E; [|lia].
        destruct (c >? 0) eqn:E0; lia. }
      unfold bigvector.push_back, bigvector.or_else. run.
      assert ((if n =? c then ret true
               else l0 <- bigvector.deref ;;
                    rc0 <- bigvector.hp (rd_ref_count l0) ;; ret (rc0 >? 1))
                (BigVector h (Some l)) = Ret true (BigVector h (Some l))) as Hcond.
      { destruct (n =? c) eqn:E; [done|]. run.
        destruct (rc >? 1) eqn:E1; [done|lia]. }
      rewrite (bind_Ret _ _ _ _ _ Hcond). cbv beta iota. clear Hcond.
      run. fold n.
      replace (if n =? c then if c >? 0 then wrap (c * 2) else 2 else c) with c'.
      2:{ unfold c', grow. destruct (n =? c) eqn:E; [|done].
          destruct (c >? 0) eqn:E0; [|done]. rewrite wrap_small; lia. }
      set (t := fresh (dom h)) in *.
      erewrite bind_Ret; [|
        eapply (copy_all_Ret _ _ l t xs c rc _ (Z.to_nat c'));
          [done | lookup_tac | lookup_tac | reflexivity | lia | done] ].
      cbv beta iota. rewrite insert_insert_eq.
      cbn [size_ capacity_ ref_count].
      erewrite bind_Ret; [|
        apply try_catch_Ret; run;
        apply hp_Ret;
        eapply (construct_at_Ret _ t _ (length xs) x);
          [ apply lookup_insert_eq
          | cbn [data]; rewrite length_app, length_fmap, length_replicate; lia
          | done ] ].
      cbv beta iota. rewrite insert_insert_eq. cbn [size_ capacity_ ref_count data].
      rewrite block_of_room by lia.
      run. rewrite insert_insert_eq. cbn [size_ capacity_ ref_count data].
      erewrite bind_Ret; [|
        apply (release_views _ l xs c rc); cbn [views];
        rewrite lookup_insert_ne by done; done ].
      cbv beta iota.
      run. rewrite !insert_insert_eq. cbn [size_ capacity_ ref_count data].
      eexists _, t. split; [reflexivity|]. cbn [mem store].
      split; [|split; [|right; apply fresh_not_live]].
      * cbn [views]. rewrite lookup_insert_eq. split; [|].
        -- unfold block_of. rewrite wrap_small by lia.
           rewrite length_app. simpl length. do 4 f_equal. lia.
        -- rewrite length_app. simpl length. lia.
      * unfold given_up. kept_tac.
    + (* in place *)
      assert (rc = 1) as -> by lia. assert (n < c) by lia.
      assert (grow n c = c) as ->.
      { unfold grow. destruct (n =? c) eqn:E; [lia|done]. }
      unfold bigvector.push_back, bigvector.or_else. run. fold n.
      destruct (n =? c) eqn:E; [lia|]. run.
      change (1 >? 1) with false. cbv iota. run.
      step by (apply hp_Ret; eapply (construct_at_Ret _ l _ (length xs) x);
               [ exact Hl
               | cbn [data block_of]; rewrite length_app, length_fmap, length_replicate; lia
               | done ]).
      run.
      eexists _, l. split; [apply hp_Ret; apply update_Ret; apply lookup_insert_eq|].
      rewrite insert_insert_eq. cbn [size_ capacity_ ref_count data block_of].
      rewrite block_of_room by lia. split; [|split; [|by left]].
      * cbn [views]. rewrite lookup_insert_eq. split.
        -- unfold block_of. rewrite wrap_small by lia.
           rewrite length_app. simpl length. do 4 f_equal. lia.
        -- rewrite length_app. simpl length. lia.
      * apply others_kept_in_place.
  - destruct Hv as [-> ->].
    eexists _, _. split; [by apply push_back_first|].
    split; [|split; [|right; apply fresh_not_live]].
    + cbn [views]. rewrite lookup_insert_eq. done.
    + apply others_kept_new.
Qed.
End PushBackViews.

(** X6: [push_back] on a heap-backed vector, with copy on write.  On a
    vector whose buffer views [xs] in a block of capacity [c] with any
    number of owners, [push_back(x)] returns and the vector holds
    [xs ++ [x]] in a block it owns alone, whose capacity is [c], or twice
    [c] (2 for no block) when the block was full; every other vector, also
    one sharing the block, holds what it held.  For copies that do not
    throw and no overflow of [size_t]. *)
Theorem X6_push_back_copy_on_write {T : Type} `{Element T}
    (h : heap T) (st : option loc) (xs ys : list T) (c rc : Z) (x : T)
    (a : variant T) :
  views h st xs c rc → copyable xs → copy_throws x = false →
  2 * Z.of_nat (length xs) < size_max →
  represents h a ys → apart h (heap_buf st) a →
  ∃ h' l',
    vector.push_back x (Vector h (heap_buf st)) = Ret tt (Vector h' (heap_buf (Some l')))
    ∧ views h' (Some l') (xs ++ [x]) (grow (Z.of_nat (length xs)) c) 1
    ∧ represents h' a ys.
Proof.
  intros Hv Hok Hx Hbound Ha Hapart.
  destruct (push_back_views h st xs c rc x Hv Hok Hx Hbound)
    as (h' & l' & Hrun & Hv' & Hkept & _).
  exists h', l'. split; [|split; [done|]].
  - unfold vector.push_back. step by reflexivity.
    change (2 =? 0) with false. change (2 =? 1) with false. cbv iota.
    by apply get2_Ret.
  - by apply (kept_represents h st xs c rc h' a ys).
Qed.

Lemma X6_push_back_copy_on_write_witness :
  ∃ h' l',
    vector.push_back 30 (Vector (one_block [10; 20] 2 2) (heap_buf (Some 1%positive)))
    = Ret tt (Vector h' (heap_buf (Some l')))
    ∧ views h' (Some l') [10; 20; 30] 4 1
    ∧ represents h' (heap_buf (Some 1%positive)) [10; 20].
Proof.
  apply (X6_push_back_copy_on_write (one_block [10; 20] 2 2) (Some 1%positive)
           [10; 20] [10; 20] 2 2 30 (heap_buf (Some 1%positive))).
  - by_computing.
  - repeat constructor.
  - reflexivity.
  - by_computing.
  - exists 2, 2. by_computing.
  - intros _. eexists _, 2. by_computing.
Defined.

Section Write.
Context {T : Type} `{Element T}.
Implicit Types (h : heap T) (l : loc) (st : option loc) (xs ys : list T)
  (d a : variant T).

Lemma block_of_write xs (c : Z) (i : nat) (v : T) :
  (i < length xs)%nat →
  <[i := Some v]> ((Some <$> xs) ++ replicate (Z.to_nat c - length xs) None)
  = (Some <$> <[i := v]> xs) ++ replicate (Z.to_nat c - length (<[i := v]> xs)) None.
Proof.
  intros Hi. rewrite insert_app_l by (by rewrite length_fmap).
  by rewrite list_fmap_insert, length_insert.
Qed.

(** [operator[]] of the buffer, for an index in range. *)
Lemma index_mut_views h l xs c rc (i : Z) :
  views h (Some l) xs c rc → copyable xs → 0 ≤ i < Z.of_nat (length xs) →
  ∃ h' l',
    bigvector.index_mut i (BigVector h (Some l))
    = Ret (data_at l' i) (BigVector h' (Some l'))
    ∧ views h' (Some l') xs c 1
    ∧ others_kept h (Some l) xs c rc h'
    ∧ ((l' = l ∧ rc = 1) ∨ (h !! l' = None ∧ l' ≠ l)).
Proof.
  intros Hv Hok Hi.
  destruct (unique_copy_views h l _ c rc Hv Hok) as (h1 & l1 & Hrun & Hl1 & Hkept & Hnew).
  destruct Hv as (Hl & Hc & Hrc).
  exists h1, l1. split; [|split; [done|done]].
  unfold bigvector.index_mut. run.
  destruct (i >=? Z.of_nat (length xs)) eqn:E; [apply Z.geb_le in E; lia|].
  rewrite (bind_Ret _ _ _ _ _ Hrun). run.
Qed.
End Write.

(** X7: a write through the mutable [operator[]] changes one element of
    one vector.  On a heap-backed vector that holds [xs], with [i] in
    range, [v[i] = x] returns and the vector holds [xs] with the [i]-th
    element replaced, in a block of the same capacity that it owns alone;
    every other vector, also one sharing the block, holds what it held. *)
Theorem X7_write_copy_on_write {T : Type} `{Element T}
    (h : heap T) (l : loc) (xs ys : list T) (c rc i : Z) (x : T)
    (a : variant T) :
  views h (Some l) xs c rc → copyable xs → copy_throws x = false →
  0 ≤ i < Z.of_nat (length xs) →
  represents h a ys → apart h (heap_buf (Some l)) a →
  ∃ h' l',
    (p <- vector.index_mut i ;; vector.write p x) (Vector h (heap_buf (Some l)))
    = Ret tt (Vector h' (heap_buf (Some l')))
    ∧ views h' (Some l') (<[Z.to_nat i := x]> xs) c 1
    ∧ represents h' a ys.
Proof.
  intros Hv Hok Hx Hi Ha Hapart.
  destruct (index_mut_views h l xs c rc i Hv Hok Hi)
    as (h1 & l1 & Hrun & (Hl1 & Hc1 & Hrc1) & Hkept & Hnew).
  assert (∃ n : nat, i = Z.of_nat n) as [n ->] by (exists (Z.to_nat i); lia).
  rewrite Nat2Z.id.
  eexists _, l1. split; [|split].
  - unfold vector.index_mut. rewrite bind_assoc. step by reflexivity.
    change (2 =? 1) with false. cbv iota.
    step by (apply get2_Ret; exact Hrun).
    apply vhp_Ret. unfold assign_at.
    step by (eapply slot_Ret; [exact Hl1 | rewrite block_of_length by lia; lia]).
    rewrite Hx.
    eapply put_slot_Ret; [exact Hl1 | rewrite block_of_length by lia; lia].
  - cbn [views]. rewrite lookup_insert_eq. split; [|by rewrite length_insert].
    unfold block_of. cbn [size_ capacity_ ref_count data].
    by rewrite block_of_write, length_insert by lia.
  - apply (kept_represents h (Some l) xs c rc _ a ys); try done.
    by apply others_kept_update.
Qed.

Lemma X7_write_copy_on_write_witness :
  ∃ h' l',
    (p <- vector.index_mut 1 ;; vector.write p 25)
      (Vector (one_block [10; 20; 30] 4 2) (heap_buf (Some 1%positive)))
    = Ret tt (Vector h' (heap_buf (Some l')))
    ∧ views h' (Some l') [10; 25; 30] 4 1
    ∧ represents h' (heap_buf (Some 1%positive)) [10; 20; 30].
Proof.
  apply (X7_write_copy_on_write (one_block [10; 20; 30] 4 2) 1%positive
           [10; 20; 30] [10; 20; 30] 4 2 1 25 (heap_buf (Some 1%positive))).
  - by_computing.
  - repeat constructor.
  - reflexivity.
  - by_computing.
  - exists 4, 2. by_computing.
  - intros _. eexists _, 2. by_computing.
Defined.

(** ** Capacity *)

(** ** Requests that fit in [size_t] *)


Lemma fits_le {T : Type} `{Layout T} (n m : Z) : fits T n → m ≤ n → fits T m.
Proof.
  unfold fits, storage_bytes. intros Hn Hm.
  pose proof (Pos2Z.is_pos sizeof_T). nia.
Qed.

Section Bounds.
Context {T : Type} `{Element T}.

Lemma views_bounds (h : heap T) st xs c rc :
  views h st xs c rc → Z.of_nat (length xs) ≤ c < size_max.
Proof.
  destruct st; cbn [views]; [intuition lia|].
  intros [-> ->]. by split.
Qed.
End Bounds.

Section Capacity.
Context {T : Type} `{Element T}.
Implicit Types (h : heap T) (l : loc) (st : option loc) (xs ys : list T)
  (d a : variant T).

(** A member function of the facade that declares [bigvector tmp] and
    leaves it without a block. *)
Lemma with_tmp_unused {A} (body : F T A) s (r : A) s' :
  body (Frame s None) = Ret r (Frame s' None) →
  vector.with_tmp body s = Ret r s'.
Proof.
  intros Hbody. unfold vector.with_tmp, finally. rewrite Hbody.
  by destruct s'.
Qed.

End Capacity.

Section Promotion.
Context {T : Type} `{Element T}.
Implicit Types (h : heap T) (l : loc) (st : option loc) (xs ys : list T)
  (d a : variant T).

(** [vec_data = tmp;] in a member function whose vector holds no buffer
    yet: the vector takes over the block of [tmp], which counts two owners
    until [tmp] is destroyed. *)
Lemma assign_tmp_Ret h1 d1 l xs c :
  ¬ is_heap_buf d1 →
  h1 !! l = Some (Some (block_of xs c 1)) →
  vector.assign_tmp (Frame (Vector h1 d1) (Some l))
  = Ret tt (Frame (Vector (<[l := Some (block_of xs c 2)]> h1) (heap_buf (Some l)))
              (Some l)).
Proof.
  intros Hd1 Hl.
  assert (2 < size_max) as Hsm by done.
  unfold vector.assign_tmp. cbn [tmp_store].
  apply on_this_Ret. unfold vector.assign_bigvector.
  step by reflexivity.
  assert ((match d1 with monostate => 0 | inline_elem _ => 1 | heap_buf _ => 2 end
           =? 2) = false) as ->.
  { destruct d1; [done | done |]. destruct Hd1. by eexists. }
  erewrite bind_Ret; [| apply vhp_Ret; by apply (copy_ctor_block h1 l xs c 1) ].
  reflexivity.
Qed.

Lemma with_tmp_hand_over (body : F T unit) s h1 l xs c :
  body (Frame s None)
  = Ret tt (Frame (Vector (<[l := Some (block_of xs c 2)]> h1) (heap_buf (Some l)))
              (Some l)) →
  h1 !! l = Some (Some (block_of xs c 1)) →
  vector.with_tmp body s = Ret tt (Vector h1 (heap_buf (Some l))).
Proof.
  intros Hbody Hl.
  assert (2 < size_max) as Hsm by done.
  unfold vector.with_tmp, finally. rewrite Hbody.
  erewrite on_tmp_Ret;
    [| apply (dtor_other _ l xs c 2); [apply lookup_insert_eq | lia] ].
  cbn [this]. rewrite insert_insert_eq.
  change (2 - 1) with 1. by rewrite insert_id.
Qed.

Lemma frame_represents h h' a ys :
  (∀ k, is_Some (h !! k) → h' !! k = h !! k) →
  represents h a ys → represents h' a ys.
Proof.
  intros Hframe Hrep.
  destruct a as [|y|[l'|]]; [done | done | | done].
  destruct Hrep as (c' & rc' & Hl' & Hc').
  exists c', rc'. split; [|done]. rewrite Hframe; [done | by rewrite Hl'].
Qed.

Lemma views_anew h xs c rc h' a ys :
  others_kept h None xs c rc h' → represents h a ys → represents h' a ys.
Proof. intros [Hframe _]. apply frame_represents. intros k. by apply Hframe. Qed.
End Promotion.





Section Shrink.
Context {T : Type} `{Element T}.
Implicit Types (h : heap T) (l : loc) (st : option loc) (xs ys : list T)
  (d a : variant T).

(** [shrink_to_fit], except on an empty block with a single owner. *)
Lemma shrink_to_fit_views h st xs c rc :
  views h st xs c rc → copyable xs →
  xs ≠ [] ∨ c = 0 ∨ 2 ≤ rc →
  ∃ h' st' rc',
    bigvector.shrink_to_fit (BigVector h st) = Ret tt (BigVector h' st')
    ∧ views h' st' xs (Z.of_nat (length xs)) rc'
    ∧ (Z.of_nat (length xs) = c → h' = h ∧ st' = st)
    ∧ others_kept h st xs c rc h'.
Proof.
  intros Hv Hok Hcase.
  destruct st as [l|]; cbn [views] in Hv.
  - destruct Hv as (Hl & Hc & Hrc).
    pose proof (fresh_ne h l _ Hl) as Hne.
    set (n := Z.of_nat (length xs)) in *.
    unfold bigvector.shrink_to_fit. run. fold n.
    destruct (n =? c) eqn:E.
    + apply Z.eqb_eq in E. exists h, (Some l), rc.
      split; [done|]. split; [|split; [done|]].
      * fold n. rewrite E. cbn [views]. split; [done|]. lia.
      * by apply others_kept_refl.
    + apply Z.eqb_neq in E. run. fold n.
      destruct (n =? 0) eqn:E0.
      * (* an empty block with other owners *)
        apply Z.eqb_eq in E0.
        assert (xs = []) as -> by (destruct xs; [done | simpl in n; lia]).
        assert (2 ≤ rc) as Hshared by (destruct Hcase as [?|[?|?]]; [done | lia | done]).
        run. destruct (rc =? 1) eqn:E1; [lia|]. run.
        eexists _, None, 1. split; [reflexivity|]. cbn [mem store].
        split; [done|]. split; [simpl in *; lia|].
        split.
        -- intros k Hk _. apply lookup_insert_ne. congruence.
        -- intros ? [= <-] _. left. rewrite lookup_insert_eq.
           by rewrite wrap_small by lia.
      * apply Z.eqb_neq in E0. run. fold n.
        set (t := fresh (dom h)) in *.
        erewrite bind_Ret; [|
          eapply (copy_all_Ret _ _ l t xs c rc _ (Z.to_nat n));
            [done | lookup_tac | lookup_tac | reflexivity | lia | done] ].
        cbv beta iota. rewrite insert_insert_eq. cbn [size_ capacity_ ref_count].
        run. rewrite !insert_insert_eq. cbn [size_ capacity_ ref_count data].
        erewrite bind_Ret; [|
          apply (release_views _ l xs c rc); cbn [views];
          rewrite lookup_insert_ne by done; done ].
        cbv beta iota.
        eexists _, (Some t), 1. split; [reflexivity|]. cbn [mem store].
        split; [|split; [lia|]].
        -- cbn [views]. rewrite lookup_insert_ne by done. rewrite lookup_insert_eq.
           fold n. split; [done|]. lia.
        -- unfold given_up. kept_tac.
  - destruct Hv as [-> ->]. exists h, None, 1.
    split; [done|]. split; [done|]. split; [done|]. by apply others_kept_refl.
Qed.
End Shrink.

(** X10: [shrink_to_fit] on a heap-backed vector.  On a vector whose
    buffer views [xs] in a block of capacity [c], and that holds an
    element, or no block, or a block with other owners, [shrink_to_fit()]
    returns, the vector holds [xs] and its capacity is their number; when
    the block was full already nothing at all changes.  Every other
    vector, also one that shared the block, holds what it held.  (The
    case left out, an empty block with a single owner, is the one where
    the freed block stays in [store].) *)
Theorem X10_shrink_to_fit {T : Type} `{Element T}
    (h : heap T) (st : option loc) (xs ys : list T) (c rc : Z)
    (a : variant T) :
  views h st xs c rc → copyable xs →
  xs ≠ [] ∨ c = 0 ∨ 2 ≤ rc →
  represents h a ys → apart h (heap_buf st) a →
  ∃ h' st' rc',
    vector.shrink_to_fit (Vector h (heap_buf st)) = Ret tt (Vector h' (heap_buf st'))
    ∧ views h' st' xs (Z.of_nat (length xs)) rc'
    ∧ (Z.of_nat (length xs) = c → h' = h ∧ st' = st)
    ∧ represents h' a ys.
Proof.
  intros Hv Hok Hcase Ha Hapart.
  destruct (shrink_to_fit_views h st xs c rc Hv Hok Hcase)
    as (h' & st' & rc' & Hrun & Hv' & Hsame & Hkept).
  exists h', st', rc'. split; [|split; [done|split; [done|]]].
  - unfold vector.shrink_to_fit. step by reflexivity.
    change (negb (2 =? 2)) with false. cbv iota.
    by apply get2_Ret.
  - by apply (kept_represents h st xs c rc h' a ys).
Qed.

Lemma X10_shrink_to_fit_witness :
  ∃ h' st' rc',
    vector.shrink_to_fit
      (Vector (one_block [10; 20; 30] 8 2) (heap_buf (Some 1%positive)))
    = Ret tt (Vector h' (heap_buf st'))
    ∧ views h' st' [10; 20; 30] 3 rc'
    ∧ (3 = 8 → h' = one_block [10; 20; 30] 8 2 ∧ st' = Some 1%positive)
    ∧ represents h' (heap_buf (Some 1%positive)) [10; 20; 30].
Proof.
  apply (X10_shrink_to_fit (one_block [10; 20; 30] 8 2) (Some 1%positive)
           [10; 20; 30] [10; 20; 30] 8 2 (heap_buf (Some 1%positive))).
  - by_computing.
  - repeat constructor.
  - left. discriminate.
  - exists 8, 2. by_computing.
  - intros _. eexists _, 2. by_computing.
Defined.

(** ** Resizing *)

Section Resize.
Context {T : Type} `{Element T}.
Implicit Types (h : heap T) (l : loc) (st : option loc) (xs ys : list T)
  (d a : variant T).

Lemma assign_at_Ret h l b (i : nat) (v : T) :
  h !! l = Some (Some b) → (i < length (data b))%nat → copy_throws v = false →
  assign_at (data_at l (Z.of_nat i)) v h
  = Ret tt (<[l := Some (Storage (size_ b) (capacity_ b) (ref_count b)
                           (<[i := Some v]> (data b)))]> h).
Proof.
  intros Hl Hi Hv. unfold assign_at.
  rewrite (bind_Ret _ _ _ _ _ (slot_Ret _ _ _ _ Hl Hi)), Hv.
  by apply put_slot_Ret.
Qed.

(** [std::fill_n] on the slots that follow the elements of a block. *)
Lemma fill_n_Ret (v : T) (k : nat) : ∀ h l b xs (m : nat),
  h !! l = Some (Some b) →
  data b = (Some <$> xs) ++ replicate (k + m) None →
  copy_throws v = false →
  fill_n (data_at l (Z.of_nat (length xs))) k v h
  = Ret tt (<[l := Some (Storage (size_ b) (capacity_ b) (ref_count b)
                           ((Some <$> (xs ++ replicate k v)) ++ replicate m None))]> h).
Proof.
  induction k as [|k IH]; intros h l b xs m Hl Hdata Hv; cbn [fill_n].
  - simpl in Hdata. rewrite app_nil_r, <- Hdata, storage_eta. by rewrite insert_id.
  - assert (length xs < length (data b))%nat as Hlen.
    { rewrite Hdata, length_app, length_fmap, length_replicate. lia. }
    step by (by apply assign_at_Ret).
    step by reflexivity.
    replace (Z.of_nat (length xs) + 1) with (Z.of_nat (length (xs ++ [v])))
      by (rewrite length_app; simpl; lia).
    erewrite (IH _ l _ (xs ++ [v]) m); [| apply lookup_insert_eq | | done ].
    + cbn [size_ capacity_ ref_count]. rewrite insert_insert_eq.
      by rewrite <- app_assoc.
    + cbn [data]. rewrite Hdata. apply insert_after_prefix.
Qed.

(** [shorten] to fewer elements. *)
Lemma shorten_views h l xs c rc (n : nat) :
  views h (Some l) xs c rc → (n < length xs)%nat → copyable (take n xs) →
  ∃ h' l',
    bigvector.shorten (Z.of_nat n) (BigVector h (Some l))
    = Ret tt (BigVector h' (Some l'))
    ∧ views h' (Some l') (take n xs) c 1
    ∧ others_kept h (Some l) xs c rc h'.
Proof.
  intros (Hl & Hc & Hrc) Hn Hok.
  pose proof (fresh_ne h l _ Hl) as Hne.
  assert (length (take n xs) = n) as Hlen by (rewrite length_take; lia).
  unfold bigvector.shorten. run.
  destruct (Z.of_nat n =? Z.of_nat (length xs)) eqn:E; [lia|]. clear E.
  run. destruct (rc =? 1) eqn:E.
  - apply Z.eqb_eq in E. subst rc. run.
    rewrite Z.add_0_l.
    step by (apply hp_Ret; eapply destroy_Ret;
             [ exact Hl | rewrite block_of_length by lia; lia ]).
    eexists _, l. split; [apply hp_Ret; apply update_Ret; apply lookup_insert_eq|].
    rewrite insert_insert_eq. cbn [size_ capacity_ ref_count data block_of].
    rewrite blank_block by lia. split.
    + cbn [views]. rewrite lookup_insert_eq. unfold block_of. rewrite Hlen.
      split; [done|]. lia.
    + apply others_kept_in_place.
  - apply Z.eqb_neq in E. run.
    set (t := fresh (dom h)) in *.
    erewrite bind_Ret; [|
      apply try_catch_Ret; run; rewrite Z.add_0_l; apply hp_Ret;
      eapply (uninitialized_copy_prefix _ l t xs c rc _ n (Z.to_nat c));
        [done | lookup_tac | lookup_tac | reflexivity | lia | lia | done] ].
    cbv beta iota. rewrite insert_insert_eq. cbn [size_ capacity_ ref_count].
    run. rewrite !insert_insert_eq. cbn [size_ capacity_ ref_count data].
    eexists _, t. split; [reflexivity|]. cbn [mem store]. split.
    + cbn [views]. rewrite lookup_insert_ne by done. rewrite lookup_insert_eq.
      unfold block_of. rewrite Hlen. split; [done|]. lia.
    + rewrite wrap_small by lia.
      change (Storage (size_ (block_of xs c rc)) (capacity_ (block_of xs c rc))
                (Some (rc - 1)) (data (block_of xs c rc)))
        with (block_of xs c (rc - 1)).
      kept_tac.
Qed.

(** [resize_job] to more elements. *)
Lemma resize_job_views h st xs c rc (k : nat) (x : T) :
  views h st xs c rc → copyable xs → copy_throws x = false →
  (0 < k)%nat → Z.of_nat (length xs + k) < size_max →
  ∃ h' l',
    bigvector.resize_job (Z.of_nat (length xs + k)) x (BigVector h st)
    = Ret tt (BigVector h' (Some l'))
    ∧ views h' (Some l') (xs ++ replicate k x) (Z.max c (Z.of_nat (length xs + k))) 1
    ∧ others_kept h st xs c rc h'.
Proof.
  intros Hv Hok Hx Hk Hbound.
  set (n := Z.of_nat (length xs + k)) in *.
  assert (length (xs ++ replicate k x) = (length xs + k)%nat) as Hlen
    by (by rewrite length_app, length_replicate).
  destruct st as [l|]; cbn [views] in Hv.
  - destruct Hv as (Hl & Hc & Hrc).
    pose proof (fresh_ne h l _ Hl) as Hne.
    assert (wrap (n - Z.of_nat (length xs)) = Z.of_nat k) as Hfill
      by (rewrite wrap_small; unfold n; lia).
    unfold bigvector.resize_job, bigvector.or_else. run.
    change (bool_decide (Some l = None)) with false. cbv iota. run.
    destruct (decide (c < n ∨ 2 ≤ rc)) as [Hnew|Hstay].
    + assert ((if Z.max c n >? c then ret true
               else l0 <- bigvector.deref ;;
                    rc0 <- bigvector.hp (rd_ref_count l0) ;; ret (rc0 >? 1))
                (BigVector h (Some l)) = Ret true (BigVector h (Some l))) as Hcond.
      { destruct (Z.max c n >? c) eqn:E; [done|]. run.
        destruct (rc >? 1) eqn:E1; [done|lia]. }
      rewrite (bind_Ret _ _ _ _ _ Hcond). cbv beta iota. clear Hcond.
      run. set (t := fresh (dom h)) in *.
      erewrite bind_Ret; [|
        eapply (copy_all_Ret _ _ l t xs c rc _ (Z.to_nat (Z.max c n)));
          [done | lookup_tac | lookup_tac | reflexivity | lia | done] ].
      cbv beta iota. rewrite insert_insert_eq. cbn [size_ capacity_ ref_count].
      erewrite bind_Ret; [|
        apply try_catch_Ret; run; rewrite Hfill, Nat2Z.id; apply hp_Ret;
        eapply (fill_n_Ret x k _ t _ xs (Z.to_nat (Z.max c n) - length xs - k));
          [ apply lookup_insert_eq | cbn [data]; f_equal; f_equal; lia | done ] ].
      cbv beta iota. rewrite insert_insert_eq. cbn [size_ capacity_ ref_count].
      run. rewrite !insert_insert_eq. cbn [size_ capacity_ ref_count data].
      erewrite bind_Ret; [|
        apply (release_views _ l xs c rc); cbn [views];
        rewrite lookup_insert_ne by done; done ].
      cbv beta iota.
      eexists _, t. split; [reflexivity|]. cbn [mem store]. split.
      * cbn [views]. rewrite lookup_insert_ne by done. rewrite lookup_insert_eq.
        unfold block_of. rewrite Hlen. fold n.
        replace (Z.to_nat (Z.max c n) - (length xs + k))%nat
          with (Z.to_nat (Z.max c n) - length xs - k)%nat by lia.
        split; [done|]. lia.
      * unfold given_up. kept_tac.
    + assert (rc = 1) as -> by lia. assert (n ≤ c) by lia.
      rewrite Z.max_l by lia.
      destruct (c >? c) eqn:E; [lia|]. run.
      change (1 >? 1) with false. cbv iota. run.
      rewrite Z.add_0_l, Hfill, Nat2Z.id.
      step by (apply hp_Ret;
               eapply (fill_n_Ret x k _ l _ xs (Z.to_nat c - length xs - k));
                 [ exact Hl | cbn [data block_of]; f_equal; f_equal; lia | done ]).
      run.
      eexists _, l. split; [apply hp_Ret; apply update_Ret; apply lookup_insert_eq|].
      rewrite insert_insert_eq. cbn [size_ capacity_ ref_count data block_of]. split.
      * cbn [views]. rewrite lookup_insert_eq.
        unfold block_of. rewrite Hlen. fold n.
        replace (Z.to_nat c - (length xs + k))%nat
          with (Z.to_nat c - length xs - k)%nat by lia.
        split; [done|]. lia.
      * apply others_kept_in_place.
  - destruct Hv as [-> ->].
    assert (wrap (n - 0) = Z.of_nat k) as Hfill
      by (rewrite wrap_small; unfold n; simpl; lia).
    rewrite Z.max_r by lia.
    unfold bigvector.resize_job, bigvector.or_else. run.
    rewrite Z.max_r by lia.
    set (t := fresh (dom h)) in *.
    erewrite bind_Ret; [|
      apply try_catch_Ret; run; fold n; rewrite Hfill, Nat2Z.id; apply hp_Ret;
      eapply (fill_n_Ret x k _ t _ [] (Z.to_nat n - k));
        [ apply lookup_insert_eq | cbn [data]; simpl; f_equal; lia | done ] ].
    cbv beta iota. rewrite insert_insert_eq. cbn [size_ capacity_ ref_count].
    run. rewrite !insert_insert_eq. cbn [size_ capacity_ ref_count data].
    eexists _, t. split; [reflexivity|]. cbn [mem store]. split.
    + cbn [views]. rewrite lookup_insert_eq.
      unfold block_of. rewrite Hlen. fold n. simpl length in *.
      replace (Z.to_nat n - (0 + k))%nat with (Z.to_nat n - k)%nat by lia.
      split; [done|]. unfold n. lia.
    + apply others_kept_new.
Qed.
End Resize.

Section ResizeViews.
Context {T : Type} `{Element T}.
Implicit Types (h : heap T) (l : loc) (st : option loc) (xs ys : list T).

(** [resize] of the buffer. *)
Lemma resize_views h st xs c rc (n : Z) (x : T) :
  views h st xs c rc → copyable xs →
  (Z.of_nat (length xs) < n → copy_throws x = false) →
  0 ≤ n < size_max →
  ∃ h' st' rc',
    bigvector.resize n x (BigVector h st) = Ret tt (BigVector h' st')
    ∧ views h' st'
        (take (Z.to_nat n) xs ++ replicate (Z.to_nat n - length xs) x)
        (Z.max c n) rc'
    ∧ (Z.of_nat (length xs) < n → rc' = 1 ∧ is_Some st')
    ∧ others_kept h st xs c rc h'.
Proof.
  intros Hv Hok Hx Hn.
  assert (bigvector.size (BigVector h st)
          = Ret (Z.of_nat (length xs)) (BigVector h st)) as Hsize.
  { destruct st as [l|]; cbn [views] in Hv.
    - destruct Hv as (Hl & _). eapply size_Ret; [exact Hl | reflexivity].
    - by destruct Hv as [-> _]. }
  assert (Z.of_nat (length xs) ≤ c) as Hc.
  { destruct st; cbn [views] in Hv; [lia|]. destruct Hv as [-> ->]. done. }
  unfold bigvector.resize. rewrite (bind_Ret _ _ _ _ _ Hsize).
  destruct (n <=? Z.of_nat (length xs)) eqn:E.
  - apply Z.leb_le in E. rewrite Z.max_l by lia.
    replace (Z.to_nat n - length xs)%nat with 0%nat by lia.
    rewrite app_nil_r.
    destruct (decide (Z.to_nat n = length xs)) as [Heq|Hlt].
    + exists h, st, rc. rewrite Heq, firstn_all.
      split; [|split; [done | split; [lia | by apply others_kept_refl]]].
      unfold bigvector.shorten. rewrite (bind_Ret _ _ _ _ _ Hsize).
      destruct (n =? Z.of_nat (length xs)) eqn:E1; [done|lia].
    + destruct st as [l|];
        [|destruct Hv as [-> _]; simpl in *; lia].
      destruct (shorten_views h l xs c rc (Z.to_nat n) Hv)
        as (h' & l' & Hrun & Hv' & Hkept);
        [lia | by apply copyable_take |].
      rewrite Z2Nat.id in Hrun by lia.
      exists h', (Some l'), 1. split; [done|]. split; [done|]. split; [lia|done].
  - apply Z.leb_gt in E.
    destruct (resize_job_views h st xs c rc (Z.to_nat n - length xs) x Hv Hok (Hx E))
      as (h' & l' & Hrun & Hv' & Hkept); [lia | lia |].
    replace (Z.of_nat (length xs + (Z.to_nat n - length xs))) with n in * by lia.
    rewrite take_ge by lia.
    exists h', (Some l'), 1. split; [done|]. split; [done|].
    split; [by eauto | done].
Qed.
End ResizeViews.

Section ResizeFacade.
Context {T : Type} `{Element T}.
Implicit Types (h : heap T) (l : loc) (st : option loc) (xs ys : list T)
  (d a : variant T).

Lemma is_heap_buf_cases d : is_heap_buf d ∨ ¬ is_heap_buf d.
Proof. destruct d; [right | right | left; by eexists]; by intros [? [=]]. Qed.

(** [capacity()] of a heap-backed vector. *)
Lemma views_capacity h st xs c rc :
  views h st xs c rc →
  vector.capacity (Vector h (heap_buf st)) = Ret c (Vector h (heap_buf st)).
Proof.
  destruct st as [l|]; cbn [views].
  - intros (Hl & _). by eapply block_capacity.
  - by intros [_ ->].
Qed.

(** [resize] of the facade on a vector that holds a buffer. *)
Lemma resize_heap_buf h st xs ys c rc (n : Z) (x : T) a :
  views h st xs c rc → copyable xs →
  (Z.of_nat (length xs) < n → copy_throws x = false) →
  0 ≤ n < size_max →
  represents h a ys → apart h (heap_buf st) a →
  ∃ h' st' rc',
    vector.resize n x (Vector h (heap_buf st)) = Ret tt (Vector h' (heap_buf st'))
    ∧ views h' st'
        (take (Z.to_nat n) xs ++ replicate (Z.to_nat n - length xs) x)
        (Z.max c n) rc'
    ∧ (Z.of_nat (length xs) < n → rc' = 1 ∧ is_Some st')
    ∧ represents h' a ys.
Proof.
  intros Hv Hok Hx Hn Ha Hapart.
  destruct (resize_views h st xs c rc n x Hv Hok Hx Hn)
    as (h' & st' & rc' & Hrun & Hv' & Hnew & Hkept).
  exists h', st', rc'. split; [|split; [done|split; [done|]]].
  - unfold vector.resize, vector.resize_job. apply with_tmp_unused.
    step by reflexivity.
    change (2 =? 0) with false. change (2 =? 1) with false. cbv iota.
    apply on_this_Ret. by apply get2_Ret.
  - by apply (kept_represents h st xs c rc h' a ys).
Qed.

(** [resize] of the facade on a vector that holds no buffer: the result
    is inline up to one element, and from two on a new block of exactly
    that capacity. *)
Lemma resize_inline h d xs (n : Z) (x : T) :
  represents h d xs → ¬ is_heap_buf d → copyable xs →
  (Z.of_nat (length xs) < n → copy_throws x = false) →
  0 ≤ n < size_max →
  ∃ h' d',
    vector.resize n x (Vector h d) = Ret tt (Vector h' d')
    ∧ represents h' d' (take (Z.to_nat n) xs ++ replicate (Z.to_nat n - length xs) x)
    ∧ (n ≤ 1 → ¬ is_heap_buf d')
    ∧ (2 ≤ n → ∃ l', d' = heap_buf (Some l')
                 ∧ views h' (Some l')
                     (take (Z.to_nat n) xs ++ replicate (Z.to_nat n - length xs) x) n 1)
    ∧ (∀ a ys, represents h a ys → represents h' a ys).
Proof.
  intros Hrep Hd Hok Hx Hn.
  assert (Hsm : 2 < size_max) by done.
  unfold vector.resize, vector.resize_job.
  destruct d as [|y|st]; [ | | destruct Hd; by eexists ]; simpl in Hrep; subst xs.
  - (* Empty *)
    destruct (decide (n = 0)) as [->|Hn0].
    { exists h, monostate. split; [by apply with_tmp_unused|].
      split; [done|]. split; [by intros _ [? [=]]|]. split; [lia|done]. }
    assert (copy_throws x = false) as Hx' by (apply Hx; simpl; lia).
    destruct (decide (n = 1)) as [->|Hn1].
    { exists h, (inline_elem x). split.
      - apply with_tmp_unused. step by reflexivity.
        change (0 =? 0) with true. cbv iota.
        change (1 =? 0) with false. change (1 =? 1) with true. cbv iota.
        apply on_this_Ret. unfold vector.assign_elem. by rewrite Hx'.
      - split; [done|]. split; [by intros _ [? [=]]|]. split; [lia|done]. }
    destruct (resize_views h None [] 0 1 n x) as (h' & st' & rc' & Hrun & Hv' & Hnew & Hkept);
      [done | done | done | lia |].
    destruct Hnew as [-> [l' ->]]; [simpl; lia|].
    rewrite Z.max_r in Hv' by lia.
    exists h', (heap_buf (Some l')). split; [|split; [|split; [|split]]].
    + destruct Hv' as (Hl' & _).
      eapply with_tmp_hand_over; [|exact Hl'].
      step by reflexivity. change (0 =? 0) with true. cbv iota.
      destruct (n =? 0) eqn:E0; [lia|]. destruct (n =? 1) eqn:E1; [lia|].
      step by (apply on_tmp_Ret; exact Hrun).
      apply assign_tmp_Ret; [by intros [? [=]] | done].
    + by exists n, 1.
    + lia.
    + intros _. by exists l'.
    + intros a ys. by apply (views_anew h [] 0 1 h').
  - (* Single *)
    apply Forall_cons in Hok as [Hy _].
    destruct (decide (n = 0)) as [->|Hn0].
    { exists h, monostate. split.
      - apply with_tmp_unused. step by reflexivity.
        change (1 =? 0) with false. change (1 =? 1) with true. cbv iota.
        change (0 =? 0) with true. cbv iota.
        by apply on_this_Ret.
      - split; [done|]. split; [by intros _ [? [=]]|]. split; [lia|done]. }
    destruct (decide (n = 1)) as [->|Hn1].
    { exists h, (inline_elem y). split.
      - apply with_tmp_unused. step by reflexivity.
        change (1 =? 0) with false. change (1 =? 1) with true. cbv iota. done.
      - split; [done|]. split; [by intros _ [? [=]]|]. split; [lia|done]. }
    assert (copy_throws x = false) as Hx' by (apply Hx; simpl; lia).
    pose proof (push_back_first h y Hy) as Hrun1.
    set (l1 := fresh (dom h)) in *.
    set (h1 := <[l1 := Some (block_of [y] 2 1)]> h) in *.
    assert (views h1 (Some l1) [y] 2 1) as Hv1.
    { cbn [views]. unfold h1. rewrite lookup_insert_eq. done. }
    destruct (resize_views h1 (Some l1) [y] 2 1 n x)
      as (h' & st' & rc' & Hrun & Hv' & Hnew & Hkept);
      [done | by apply Forall_cons | done | lia |].
    destruct Hnew as [-> [l' ->]]; [simpl; lia|].
    rewrite Z.max_r in Hv' by lia.
    exists h', (heap_buf (Some l')). split; [|split; [|split; [|split]]].
    + destruct Hv' as (Hl' & _).
      eapply with_tmp_hand_over; [|exact Hl'].
      step by reflexivity.
      change (1 =? 0) with false. change (1 =? 1) with true. cbv iota.
      destruct (n =? 0) eqn:E0; [lia|]. destruct (n =? 1) eqn:E1; [lia|].
      step by reflexivity.
      step by (apply on_tmp_Ret; exact Hrun1).
      step by (apply on_tmp_Ret; exact Hrun).
      apply assign_tmp_Ret; [by intros [? [=]] | done].
    + by exists n, 1.
    + lia.
    + intros _. by exists l'.
    + intros a ys Ha.
      assert (represents h1 a ys) as Ha1.
      { apply (views_anew h [y] 2 1); [apply others_kept_new | done]. }
      apply (kept_represents h1 (Some l1) [y] 2 1 h' a ys); try done.
      destruct a as [|?|[l2|]]; try done.
      intros <-. exfalso.
      destruct Ha as (c2 & rc2 & Hl2 & _).
      pose proof (fresh_not_live h) as Hf. fold l1 in Hf. congruence.
Qed.
End ResizeFacade.

(** X11: [resize] to a size the vector has.  On a vector that holds [xs],
    in any representation, [resize(n, x)] with [n <= size()] returns and
    the vector holds the first [n] elements of [xs]; a heap-backed vector
    stays heap-backed and keeps its capacity, an inline one stays inline
    (or becomes empty).  Every other vector, also one that shared the
    block, holds what it held.  The fill value is not used.  For elements
    whose copies do not throw (a shared block is cloned). *)
Theorem X11_resize_truncates {T : Type} `{Element T}
    (h : heap T) (d a : variant T) (xs ys : list T) (n : Z) (x : T) :
  represents h d xs → copyable xs → 0 ≤ n ≤ Z.of_nat (length xs) →
  represents h a ys → apart h d a →
  ∃ h' d',
    vector.resize n x (Vector h d) = Ret tt (Vector h' d')
    ∧ represents h' d' (take (Z.to_nat n) xs)
    ∧ (is_heap_buf d' ↔ is_heap_buf d)
    ∧ (is_heap_buf d → ∀ c,
         vector.capacity (Vector h d) = Ret c (Vector h d) →
         vector.capacity (Vector h' d') = Ret c (Vector h' d'))
    ∧ represents h' a ys.
Proof.
  intros Hrep Hok Hn Ha Hapart.
  assert (take (Z.to_nat n) xs ++ replicate (Z.to_nat n - length xs) x
          = take (Z.to_nat n) xs) as Hzs.
  { replace (Z.to_nat n - length xs)%nat with 0%nat by lia. apply app_nil_r. }
  destruct (is_heap_buf_cases d) as [[st ->]|Hd].
  - destruct Hrep as (c & rc & Hv).
    pose proof (views_bounds h st xs c rc Hv) as Hc.
    destruct (resize_heap_buf h st xs ys c rc n x a Hv Hok)
      as (h' & st' & rc' & Hrun & Hv' & _ & Ha'); [lia | lia | done | done |].
    rewrite Hzs, Z.max_l in Hv' by lia.
    exists h', (heap_buf st'). split; [done|]. split; [by exists c, rc'|].
    split; [split; intros _; by eexists|]. split; [|done].
    intros _ c0 Hcap.
    rewrite (views_capacity h st xs c rc Hv) in Hcap. injection Hcap as <-.
    by eapply views_capacity.
  - assert (Z.of_nat (length xs) ≤ 1) as Hlen.
    { destruct d as [| |st]; simpl in Hrep; subst; simpl; try lia.
      destruct Hd. by eexists. }
    assert (Hsm : 1 < size_max) by done.
    destruct (resize_inline h d xs n x Hrep Hd Hok)
      as (h' & d' & Hrun & Hrep' & Hflat & _ & Hkept); [lia | lia |].
    rewrite Hzs in Hrep'.
    exists h', d'. split; [done|]. split; [done|].
    split; [split; intros Hh; [destruct Hflat; [lia | done] | done]|].
    split; [done | by apply Hkept].
Qed.

Lemma X11_resize_truncates_witness :
  ∃ h' d',
    vector.resize 1 0 (Vector (one_block [10; 20; 30] 4 2) (heap_buf (Some 1%positive)))
    = Ret tt (Vector h' d')
    ∧ represents h' d' [10]
    ∧ (is_heap_buf d' ↔ @is_heap_buf Z (heap_buf (Some 1%positive)))
    ∧ (@is_heap_buf Z (heap_buf (Some 1%positive)) → ∀ c,
         vector.capacity (Vector (one_block [10; 20; 30] 4 2) (heap_buf (Some 1%positive)))
         = Ret c (Vector (one_block [10; 20; 30] 4 2) (heap_buf (Some 1%positive))) →
         vector.capacity (Vector h' d') = Ret c (Vector h' d'))
    ∧ represents h' (heap_buf (Some 1%positive)) [10; 20; 30].
Proof.
  apply (X11_resize_truncates (one_block [10; 20; 30] 4 2) (heap_buf (Some 1%positive))
           (heap_buf (Some 1%positive)) [10; 20; 30] [10; 20; 30] 1 0).
  - exists 4, 2. by_computing.
  - repeat constructor.
  - simpl. lia.
  - exists 4, 2. by_computing.
  - intros _. eexists _, 2. by_computing.
Defined.

(** ** When the copy of the new element throws *)

Section Throwing.
Context {T : Type} `{Element T}.
Implicit Types (h : heap T) (l : loc) (st : option loc) (xs ys : list T)
  (d a : variant T).

Lemma construct_at_Raise h l b (i : nat) (v : T) :
  h !! l = Some (Some b) → (i < length (data b))%nat → copy_throws v = true →
  construct_at (data_at l (Z.of_nat i)) v h = Raise element_exception h.
Proof.
  intros Hl Hi Hv. unfold construct_at.
  rewrite (bind_Ret _ _ _ _ _ (slot_Ret _ _ _ _ Hl Hi)), Hv. done.
Qed.

Lemma hp_Raise {A} (m : M (heap T) A) h st e h' :
  m h = Raise e h' → bigvector.hp m (BigVector h st) = Raise e (BigVector h' st).
Proof. unfold bigvector.hp, zoom. simpl. by intros ->. Qed.

(** A block that was allocated and freed again is all that a failed call
    leaves behind. *)
Lemma freed_kept h (b : option (storage T)) k :
  is_Some (h !! k) → <[fresh (dom h) := b]> h !! k = h !! k.
Proof. intros [v Hv]. apply lookup_insert_ne. by apply fresh_ne in Hv. Qed.

(** [push_back] of an element whose copy throws. *)
Lemma push_back_throws h st xs c rc x :
  views h st xs c rc → copyable xs → copy_throws x = true →
  2 * Z.of_nat (length xs) < size_max →
  ∃ h',
    bigvector.push_back x (BigVector h st) = Raise element_exception (BigVector h' st)
    ∧ (∀ k, is_Some (h !! k) → h' !! k = h !! k).
Proof.
  intros Hv Hok Hx Hbound.
  assert (Hsm : size_max = 2 ^ 64) by reflexivity.
  destruct st as [l|]; cbn [views] in Hv.
  - destruct Hv as (Hl & Hc & Hrc).
    pose proof (fresh_ne h l _ Hl) as Hne.
    set (n := Z.of_nat (length xs)) in *.
    destruct (decide (n = c ∨ 2 ≤ rc)) as [Hgrow|Hstay].
    + set (c' := grow n c).
      assert (n < c' < size_max) as Hc'.
      { unfold c', grow. destruct (n =? c) eqn:E; [|lia].
        destruct (c >? 0) eqn:E0; lia. }
      unfold bigvector.push_back, bigvector.or_else. run.
      assert ((if n =? c then ret true
               else l0 <- bigvector.deref ;;
                    rc0 <- bigvector.hp (rd_ref_count l0) ;; ret (rc0 >? 1))
                (BigVector h (Some l)) = Ret true (BigVector h (Some l))) as Hcond.
      { destruct (n =? c) eqn:E; [done|]. run.
        destruct (rc >? 1) eqn:E1; [done|lia]. }
      rewrite (bind_Ret _ _ _ _ _ Hcond). cbv beta iota. clear Hcond.
      run. fold n.
      replace (if n =? c then if c >? 0 then wrap (c * 2) else 2 else c) with c'.
      2:{ unfold c', grow. destruct (n =? c) eqn:E; [|done].
          destruct (c >? 0) eqn:E0; [|done]. rewrite wrap_small; lia. }
      set (t := fresh (dom h)) in *.
      erewrite bind_Ret; [|
        eapply (copy_all_Ret _ _ l t xs c rc _ (Z.to_nat c'));
          [done | lookup_tac | lookup_tac | reflexivity | lia | done] ].
      cbv beta iota. rewrite insert_insert_eq.
      cbn [size_ capacity_ ref_count].
      eexists. split.
      * apply bind_Raise. erewrite try_catch_Raise.
        2:{ run. apply hp_Raise.
            eapply (construct_at_Raise _ t _ (length xs) x);
              [ apply lookup_insert_eq
              | cbn [data]; rewrite length_app, length_fmap, length_replicate; lia
              | done ]. }
        run. change (data_at t 0) with (data_at t (Z.of_nat 0)).
        step by (apply hp_Ret; eapply destroy_Ret;
                 [ apply lookup_insert_eq
                 | cbn [data]; rewrite length_app, length_fmap, length_replicate; lia ]).
        step by (apply hp_Ret; eapply operator_delete_Ret; apply lookup_insert_eq).
        reflexivity.
      * intros k Hk. rewrite !insert_insert_eq. by apply freed_kept.
    + assert (rc = 1) as -> by lia. assert (n < c) by lia.
      exists h. split; [|done].
      unfold bigvector.push_back, bigvector.or_else. run. fold n.
      destruct (n =? c) eqn:E; [lia|]. run.
      change (1 >? 1) with false. cbv iota. run.
      apply bind_Raise. apply hp_Raise.
      eapply (construct_at_Raise _ l _ (length xs) x);
        [ exact Hl
        | cbn [data block_of]; rewrite length_app, length_fmap, length_replicate; lia
        | done ].
  - destruct Hv as [-> ->].
    unfold bigvector.push_back, bigvector.or_else. run.
    set (t := fresh (dom h)) in *.
    eexists. split.
    + apply bind_Raise. erewrite try_catch_Raise.
      2:{ run. apply hp_Raise.
          eapply (construct_at_Raise _ t _ 0%nat x);
            [ apply lookup_insert_eq | simpl; lia | done ]. }
      run. change (data_at t 0) with (data_at t (Z.of_nat 0)).
      step by (apply hp_Ret; eapply destroy_Ret;
               [ apply lookup_insert_eq | simpl; lia ]).
      step by (apply hp_Ret; eapply operator_delete_Ret; apply lookup_insert_eq).
      reflexivity.
    + intros k Hk. rewrite !insert_insert_eq. by apply freed_kept.
Qed.
End Throwing.

Section ThrowingFacade.
Context {T : Type} `{Element T}.
Implicit Types (h : heap T) (l : loc) (st : option loc) (xs ys : list T)
  (d a : variant T).

Lemma on_tmp_Raise {A} (m : B T A) h d st e h' st' :
  m (BigVector h st) = Raise e (BigVector h' st') →
  vector.on_tmp m (Frame (Vector h d) st) = Raise e (Frame (Vector h' d) st').
Proof. unfold vector.on_tmp, zoom. simpl. by intros ->. Qed.
End ThrowingFacade.

(** X12: the strong exception guarantee of [push_back].  When the copy of
    the new element throws, [push_back(x)] throws that exception and the
    vector keeps its representation and its elements, and so does every
    other vector; the heap differs at most by a block that was allocated
    for the call and freed again.  For a vector in any representation
    whose own elements can be copied. *)
Theorem X12_push_back_strong_guarantee {T : Type} `{Element T}
    (h : heap T) (d : variant T) (xs : list T) (x : T) :
  represents h d xs → copyable xs → copy_throws x = true →
  2 * Z.of_nat (length xs) < size_max →
  ∃ h',
    vector.push_back x (Vector h d) = Raise element_exception (Vector h' d)
    ∧ (∀ k, is_Some (h !! k) → h' !! k = h !! k)
    ∧ (∀ a ys, represents h a ys → represents h' a ys).
Proof.
  intros Hrep Hok Hx Hbound.
  assert (∃ h', vector.push_back x (Vector h d) = Raise element_exception (Vector h' d)
                ∧ (∀ k, is_Some (h !! k) → h' !! k = h !! k)) as (h' & Hrun & Hframe).
  2:{ exists h'. split; [done|]. split; [done|].
      intros a ys. by apply frame_represents. }
  destruct d as [|y|st]; simpl in Hrep.
  - exists h. split; [|done].
    unfold vector.push_back. step by reflexivity.
    change (0 =? 0) with true. cbv iota.
    unfold vector.assign_elem. by rewrite Hx.
  - subst xs. apply Forall_cons in Hok as [Hy _].
    pose proof (push_back_first h y Hy) as Hrun1.
    set (t := fresh (dom h)) in *.
    set (h1 := <[t := Some (block_of [y] 2 1)]> h) in *.
    assert (views h1 (Some t) [y] 2 1) as Hv1.
    { cbn [views]. unfold h1. rewrite lookup_insert_eq. done. }
    destruct (push_back_throws h1 (Some t) [y] 2 1 x Hv1) as (h2 & Hrun2 & Hframe2);
      [by apply Forall_cons | done | done |].
    assert (h2 !! t = Some (Some (block_of [y] 2 1))) as Ht2.
    { rewrite Hframe2; unfold h1; rewrite lookup_insert_eq; [done | by eexists]. }
    exists (<[t := None]> h2). split.
    + unfold vector.push_back. step by reflexivity.
      change (1 =? 0) with false. change (1 =? 1) with true. cbv iota.
      unfold vector.with_tmp, finally.
      assert ((x0 <- vector.on_this vector.get1 ;;
               vector.on_tmp (bigvector.push_back x0) ;;
               vector.on_tmp (bigvector.push_back x) ;;
               vector.assign_tmp) (Frame (Vector h (inline_elem y)) None)
              = Raise element_exception (Frame (Vector h2 (inline_elem y)) (Some t)))
        as ->.
      { step by reflexivity.
        step by (apply on_tmp_Ret; exact Hrun1).
        apply bind_Raise. by apply on_tmp_Raise. }
      erewrite on_tmp_Ret; [| by apply (dtor_last h2 t [y] 2) ].
      reflexivity.
    + intros k Hk.
      assert (k ≠ t) by (destruct Hk as [v Hv]; apply fresh_ne in Hv; done).
      rewrite lookup_insert_ne by done.
      rewrite Hframe2; unfold h1; rewrite lookup_insert_ne by done; done.
  - destruct Hrep as (c & rc & Hv).
    destruct (push_back_throws h st xs c rc x Hv Hok Hx Hbound) as (h' & Hrun & Hframe).
    exists h'. split; [|done].
    unfold vector.push_back. step by reflexivity.
    change (2 =? 0) with false. change (2 =? 1) with false. cbv iota.
    by apply get2_Raise.
Qed.

Lemma X12_push_back_strong_guarantee_witness :
  ∃ h',
    vector.push_back Faulty
      (Vector (one_item_block [Int 1; Int 2] 2 1)
         (heap_buf (Some 1%positive)))
    = Raise element_exception (Vector h' (heap_buf (Some 1%positive)))
    ∧ (∀ k, is_Some ((one_item_block [Int 1; Int 2] 2 1) !! k) →
         h' !! k = (one_item_block [Int 1; Int 2] 2 1) !! k)
    ∧ (∀ a ys,
         represents (one_item_block [Int 1; Int 2] 2 1) a ys →
         represents h' a ys).
Proof.
  apply (X12_push_back_strong_guarantee
           (one_item_block [Int 1; Int 2] 2 1)
           (heap_buf (Some 1%positive)) [Int 1; Int 2] Faulty).
  - exists 2, 1. by_computing.
  - repeat constructor.
  - reflexivity.
  - by_computing.
Defined.

(** ** Copies and destructors *)

(** X13: copying a heap-backed vector shares the block, and destroying the
    copy undoes it.  The copy constructor of a vector whose buffer views
    [xs] in a block with [rc] owners returns a vector with the same
    [store]; no element is copied (so nothing can throw), the block counts
    [rc + 1] owners, and the two vectors compare equal.  The destructor of
    the copy then restores the heap exactly as it was. *)
Theorem X13_copy_shares_and_destroy_restores {T : Type} `{Element T}
    (h : heap T) (l : loc) (xs : list T) (c rc : Z) :
  views h (Some l) xs c rc → rc + 1 < size_max →
  ∃ h1,
    vector.copy_ctor (heap_buf (Some l)) h = Ret (heap_buf (Some l)) h1
    ∧ views h1 (Some l) xs c (rc + 1)
    ∧ vector.eq (heap_buf (Some l)) (heap_buf (Some l)) h1 = Ret true h1
    ∧ vector.destroy_held (Vector h1 (heap_buf (Some l)))
      = Ret tt (Vector h (heap_buf (Some l))).
Proof.
  intros (Hl & Hc & Hrc) Hbound.
  exists (<[l := Some (block_of xs c (rc + 1))]> h).
  split; [|split; [|split]].
  - unfold vector.copy_ctor.
    erewrite bind_Ret;
      [| apply (copy_ctor_block h l xs c rc); [done | lia | lia] ].
    reflexivity.
  - cbn [views]. rewrite lookup_insert_eq. split; [done|]. lia.
  - unfold vector.eq, bigvector.eq. by rewrite decide_True.
  - unfold vector.destroy_held. cbn [vec_data].
    erewrite get2_Ret;
      [| apply (dtor_other _ l xs c (rc + 1)); [apply lookup_insert_eq | lia] ].
    rewrite insert_insert_eq. replace (rc + 1 - 1) with rc by lia.
    by rewrite insert_id.
Qed.

Lemma X13_copy_shares_and_destroy_restores_witness :
  ∃ h1,
    vector.copy_ctor (heap_buf (Some 1%positive)) (one_block [10; 20; 30] 4 1)
    = Ret (heap_buf (Some 1%positive)) h1
    ∧ views h1 (Some 1%positive) [10; 20; 30] 4 (1 + 1)
    ∧ vector.eq (heap_buf (Some 1%positive)) (heap_buf (Some 1%positive)) h1 = Ret true h1
    ∧ vector.destroy_held (Vector h1 (heap_buf (Some 1%positive)))
      = Ret tt (Vector (one_block [10; 20; 30] 4 1) (heap_buf (Some 1%positive))).
Proof.
  apply (X13_copy_shares_and_destroy_restores (one_block [10; 20; 30] 4 1)
           1%positive [10; 20; 30] 4 1).
  - by_computing.
  - by_computing.
Defined.

(** X14: the destructor of the last owner frees the block.  Destroying a
    vector that is the only owner of its block returns and leaves the
    block freed, with every other block of the heap untouched; a later
    access through the stale [store] is undefined. *)
Theorem X14_last_owner_frees {T : Type} `{Element T}
    (h : heap T) (l : loc) (xs : list T) (c : Z) :
  views h (Some l) xs c 1 →
  ∃ h',
    vector.destroy_held (Vector h (heap_buf (Some l)))
    = Ret tt (Vector h' (heap_buf (Some l)))
    ∧ h' !! l = Some None
    ∧ (∀ k, k ≠ l → h' !! k = h !! k)
    ∧ vector.size (Vector h' (heap_buf (Some l))) = Undef.
Proof.
  intros (Hl & Hc & Hrc).
  exists (<[l := None]> h). split; [|split; [|split]].
  - unfold vector.destroy_held. cbn [vec_data].
    apply get2_Ret. apply (dtor_last h l xs c); [done | lia].
  - apply lookup_insert_eq.
  - intros k Hk. by apply lookup_insert_ne.
  - unfold vector.size. step by reflexivity.
    change (2 =? 0) with false. change (2 =? 1) with false. cbv iota.
    unfold vector.get2. cbn [vec_data vmem].
    unfold bigvector.size. erewrite bind_Ret by reflexivity. cbv beta iota.
    cbn [store]. rewrite hp_Undef; [done|].
    unfold rd_size, live, bind. by rewrite lookup_insert_eq.
Qed.

Lemma X14_last_owner_frees_witness :
  ∃ h',
    vector.destroy_held (Vector (one_block [10; 20; 30] 4 1) (heap_buf (Some 1%positive)))
    = Ret tt (Vector h' (heap_buf (Some 1%positive)))
    ∧ h' !! 1%positive = Some None
    ∧ (∀ k, k ≠ 1%positive → h' !! k = one_block [10; 20; 30] 4 1 !! k)
    ∧ vector.size (Vector h' (heap_buf (Some 1%positive))) = Undef.
Proof.
  apply (X14_last_owner_frees (one_block [10; 20; 30] 4 1) 1%positive [10; 20; 30] 4).
  by_computing.
Defined.

(** ** Comparison *)

Section Comparison.
Context {T : Type} `{Element T}.
Implicit Types (h : heap T) (l : loc) (st : option loc) (xs ys : list T)
  (d a b : variant T).

(** [std::equal] on two ranges of the same length, each read through its
    own iterators. *)
Lemma equal_n_Ret (ld1 ld2 : ptr → M (heap T) T) h (p q : nat → ptr) xs ys (n : nat) :
  ∀ j : nat,
  length xs = length ys → (j + n)%nat = length xs →
  (∀ i : nat, (i < length xs)%nat → ptr_add (p i) 1 h = Ret (p (S i)) h) →
  (∀ i : nat, (i < length ys)%nat → ptr_add (q i) 1 h = Ret (q (S i)) h) →
  (∀ (i : nat) x, xs !! i = Some x → ld1 (p i) h = Ret x h) →
  (∀ (i : nat) y, ys !! i = Some y → ld2 (q i) h = Ret y h) →
  equal_n ld1 ld2 (p j) (q j) n h = Ret (elements_equal (drop j xs) (drop j ys)) h.
Proof.
  induction n as [|n IH]; intros j Hlen Hj Hp Hq Hx Hy.
  - rewrite !drop_ge by lia. done.
  - destruct (lookup_lt_is_Some_2 xs j) as [x Hxj]; [lia|].
    destruct (lookup_lt_is_Some_2 ys j) as [y Hyj]; [lia|].
    rewrite (drop_S _ _ _ Hxj), (drop_S _ _ _ Hyj).
    cbn [equal_n elements_equal].
    rewrite (bind_Ret _ _ _ _ _ (Hx _ _ Hxj)).
    rewrite (bind_Ret _ _ _ _ _ (Hy _ _ Hyj)).
    destruct (equal x y); [|done].
    rewrite (bind_Ret _ _ _ _ _ (Hp j ltac:(lia))).
    rewrite (bind_Ret _ _ _ _ _ (Hq j ltac:(lia))).
    apply IH; try done. lia.
Qed.

Lemma elements_equal_length xs : ∀ ys,
  length xs ≠ length ys → elements_equal xs ys = false.
Proof.
  induction xs as [|x xs IH]; intros [|y ys] Hlen; simpl in *; try done.
  destruct (equal x y); [|done]. apply IH. lia.
Qed.

Lemma elements_equal_refl xs :
  (∀ x : T, equal x x = true) → elements_equal xs xs = true.
Proof. intros Hrefl. induction xs as [|x xs IH]; simpl; [done|]. by rewrite Hrefl. Qed.

Lemma block_of_inj xs ys c c' rc rc' :
  block_of xs c rc = block_of ys c' rc' → xs = ys.
Proof.
  intros [= Hlen _ _ Hdata].
  apply app_inj_1 in Hdata as [Hdata _]; [|rewrite !length_fmap; lia].
  by apply (inj (fmap Some)) in Hdata.
Qed.

Lemma range_begin h a xs :
  represents h a xs →
  vector.as_const a vector.begin_const h = Ret (iterator_of a 0) h.
Proof. destruct a as [|x|[l|]]; done. Qed.

Lemma range_end h a xs :
  represents h a xs →
  vector.as_const a vector.end_const h = Ret (iterator_of a (length xs)) h.
Proof.
  destruct a as [|x|[l|]]; simpl.
  - by intros ->.
  - by intros ->.
  - intros Hrep.
    unfold vector.as_const, vector.end_const.
    erewrite bind_Ret by reflexivity.
    erewrite bind_Ret by (by apply (represents_size h (heap_buf (Some l)) xs)).
    done.
  - by intros (c & rc & -> & _).
Qed.

Lemma range_distance h a xs :
  represents h a xs →
  distance (iterator_of a 0) (iterator_of a (length xs)) h = Ret (length xs) h.
Proof.
  destruct a as [|x|[l|]]; simpl.
  - by intros ->.
  - by intros ->.
  - intros _. rewrite distance_Ret by lia. f_equal. lia.
  - by intros (c & rc & -> & _).
Qed.

Lemma range_next h a xs (i : nat) :
  represents h a xs → (i < length xs)%nat →
  ptr_add (iterator_of a i) 1 h = Ret (iterator_of a (S i)) h.
Proof.
  destruct a as [|x|[l|]]; simpl.
  - intros ->. simpl. lia.
  - intros _ _. unfold ptr_add, ret. do 2 f_equal. lia.
  - intros _ _. unfold ptr_add, ret. do 2 f_equal. lia.
  - intros (c & rc & -> & _). simpl. lia.
Qed.

Lemma range_read h a xs (i : nat) x :
  represents h a xs → xs !! i = Some x →
  vector.as_const a (vector.read (iterator_of a i)) h = Ret x h.
Proof.
  destruct a as [|x0|[l|]]; cbn [represents iterator_of views].
  - by intros ->.
  - intros -> Hx. destruct i as [|i]; [|done]. by injection Hx as ->.
  - intros (c & rc & Hl & _) Hx.
    unfold vector.as_const.
    by rewrite (read_block h (heap_buf (Some l)) l xs c rc i x).
  - by intros (c & rc & -> & _).
Qed.

Lemma std_equal_ranges (ld1 ld2 : ptr → M (heap T) T) h a b xs ys :
  represents h a xs → represents h b ys →
  (∀ (i : nat) x, xs !! i = Some x → ld1 (iterator_of a i) h = Ret x h) →
  (∀ (i : nat) y, ys !! i = Some y → ld2 (iterator_of b i) h = Ret y h) →
  std_equal ld1 ld2 (iterator_of a 0) (iterator_of a (length xs))
    (iterator_of b 0) (iterator_of b (length ys)) h
  = Ret (elements_equal xs ys) h.
Proof.
  intros Ha Hb Hx Hy. unfold std_equal.
  rewrite (bind_Ret _ _ _ _ _ (range_distance h a xs Ha)).
  rewrite (bind_Ret _ _ _ _ _ (range_distance h b ys Hb)).
  destruct (decide (length xs = length ys)) as [Hlen|Hlen].
  - rewrite (equal_n_Ret ld1 ld2 h (iterator_of a) (iterator_of b) xs ys (length xs) 0);
      try done.
    + intros i Hi. by eapply range_next.
    + intros i Hi. by eapply range_next.
  - by rewrite elements_equal_length.
Qed.
End Comparison.

(** [operator==] on two vectors that hold [xs] and [ys]. *)
Lemma eq_compares {T : Type} `{Element T}
    (h : heap T) (a b : variant T) (xs ys : list T) :
  represents h a xs → represents h b ys →
  match a, b with
  | heap_buf sa, heap_buf sb =>
      (sa = sb ∧ ∀ x : T, equal x x = true) ∨ (sa ≠ sb ∧ is_Some sa ∧ is_Some sb)
  | _, _ => True
  end →
  vector.eq a b h = Ret (elements_equal xs ys) h.
Proof.
  intros Ha Hb Hcase.
  assert (vector.as_const a vector.begin_const h = Ret (iterator_of a 0) h) as Hba
    by (by eapply range_begin).
  assert (vector.as_const b vector.begin_const h = Ret (iterator_of b 0) h) as Hbb
    by (by eapply range_begin).
  pose proof (range_end h a xs Ha) as Hea.
  pose proof (range_end h b ys Hb) as Heb.
  assert ((ba <- vector.as_const a vector.begin_const ;;
           ea <- vector.as_const a vector.end_const ;;
           bb <- vector.as_const b vector.begin_const ;;
           eb <- vector.as_const b vector.end_const ;;
           std_equal (fun p => vector.as_const a (vector.read p))
             (fun p => vector.as_const b (vector.read p)) ba ea bb eb) h
          = Ret (elements_equal xs ys) h) as Hgen.
  { rewrite (bind_Ret _ _ _ _ _ Hba), (bind_Ret _ _ _ _ _ Hea).
    rewrite (bind_Ret _ _ _ _ _ Hbb), (bind_Ret _ _ _ _ _ Heb).
    apply std_equal_ranges; try done.
    - intros i x Hx. by eapply range_read.
    - intros i y Hy. by eapply range_read. }
  destruct a as [|x|sa]; [by destruct b | by destruct b |].
  destruct b as [|y|sb]; [done | done |].
  clear Hgen. unfold vector.eq, bigvector.eq.
  destruct Hcase as [[<- Hrefl]|(Hne & [la ->] & [lb ->])].
  - rewrite decide_True by done.
    assert (xs = ys) as <-.
    { destruct sa as [l|]; simpl in Ha, Hb.
      - destruct Ha as (c & rc & Hl & _). destruct Hb as (c' & rc' & Hl' & _).
        assert (block_of xs c rc = block_of ys c' rc') as Heq by congruence.
        by apply block_of_inj in Heq.
      - destruct Ha as (? & ? & -> & _). by destruct Hb as (? & ? & -> & _). }
    by rewrite elements_equal_refl.
  - rewrite decide_False by done.
    destruct Ha as (ca & rca & Hva). destruct Hb as (cb & rcb & Hvb).
    pose proof (proj1 Hva) as Hla. pose proof (proj1 Hvb) as Hlb.
    step by reflexivity.
    step by (eapply rd_size_Ret; [exact Hla | reflexivity]).
    step by reflexivity.
    step by (eapply rd_size_Ret; [exact Hlb | reflexivity]).
    destruct (Z.of_nat (length xs) =? Z.of_nat (length ys)) eqn:E; cbn [negb].
    + step by reflexivity.
      erewrite bind_Ret.
      2:{ unfold bigvector.on_object.
          erewrite end_Ret; [reflexivity | exact Hla | reflexivity]. }
      cbv beta iota. cbn [mem].
      step by reflexivity.
      erewrite bind_Ret.
      2:{ unfold bigvector.on_object.
          erewrite end_Ret; [reflexivity | exact Hlb | reflexivity]. }
      cbv beta iota. cbn [mem].
      apply (std_equal_ranges load load h (heap_buf (Some la)) (heap_buf (Some lb)) xs ys).
      * by exists ca, rca.
      * by exists cb, rcb.
      * intros i x Hx. eapply load_Ret; [exact Hla | by apply block_of_lookup].
      * intros i y Hy. eapply load_Ret; [exact Hlb | by apply block_of_lookup].
    + apply Z.eqb_neq in E. rewrite elements_equal_length by lia. done.
Qed.


(** X15: [operator==] and [operator!=] compare the sequences.  For two
    vectors that hold [xs] and [ys], in any representations, [a == b]
    returns without changing anything, and it is true exactly when the two
    have the same number of elements and these are pairwise equal by
    [operator==] of [T]; [a != b] is its negation.  When both are heap-backed they must hold two different blocks,
    or the same [store] with an [operator==] of [T] that is reflexive: the
    same [store] gives true without looking at the elements, and a buffer
    without a block beside one with a block is outside this statement. *)
Theorem X15_eq_compares_elements {T : Type} `{Element T}
    (h : heap T) (a b : variant T) (xs ys : list T) :
  represents h a xs → represents h b ys →
  match a, b with
  | heap_buf sa, heap_buf sb =>
      (sa = sb ∧ ∀ x : T, equal x x = true) ∨ (sa ≠ sb ∧ is_Some sa ∧ is_Some sb)
  | _, _ => True
  end →
  vector.eq a b h = Ret (elements_equal xs ys) h
  ∧ vector.ne a b h = Ret (negb (elements_equal xs ys)) h.
Proof.
  intros Ha Hb Hcase.
  pose proof (eq_compares h a b xs ys Ha Hb Hcase) as Heq.
  split; [done|].
  unfold vector.ne. by rewrite (bind_Ret _ _ _ _ _ Heq).
Qed.

Lemma X15_eq_compares_elements_witness :
  vector.eq (inline_elem 10) (heap_buf (Some 1%positive)) (one_block [10] 2 1)
  = Ret true (one_block [10] 2 1)
  ∧ vector.ne (inline_elem 10) (heap_buf (Some 1%positive)) (one_block [10] 2 1)
    = Ret false (one_block [10] 2 1).
Proof.
  assert (represents (one_block [10] 2 1) (heap_buf (Some 1%positive)) [10]) as Hb
    by (exists 2, 1; by_computing).
  exact (X15_eq_compares_elements (one_block [10] 2 1)
           (inline_elem 10) (heap_buf (Some 1%positive)) [10] [10] eq_refl Hb I).
Defined.

(** ** Erasing a range *)

Section Erase.
Context {T : Type} `{Element T}.
Implicit Types (h : heap T) (l : loc) (st : option loc) (xs ys : list T)
  (d a : variant T).

(** [std::move] of [m] elements towards the front of the same block, from
    the slot [j] on to the slot [i] on. *)
Lemma move_n_Ret (m : nat) : ∀ h l (b : storage T) (i j : nat),
  h !! l = Some (Some b) → (i ≤ j)%nat → (j + m ≤ length (data b))%nat →
  (∀ q : nat, (j ≤ q < j + m)%nat → ∃ v, data b !! q = Some (Some v)) →
  ∃ sl,
    move_n (data_at l (Z.of_nat j)) m (data_at l (Z.of_nat i)) h
    = Ret tt (<[l := Some (Storage (size_ b) (capacity_ b) (ref_count b) sl)]> h)
    ∧ length sl = length (data b)
    ∧ (∀ q : nat, (q < i ∨ i + m ≤ q)%nat → sl !! q = data b !! q)
    ∧ (∀ q : nat, (i ≤ q < i + m)%nat → sl !! q = data b !! (q + (j - i))%nat).
Proof.
  induction m as [|m IH]; intros h l b i j Hl Hij Hlen Hsome.
  - exists (data b). rewrite storage_eta, insert_id by done.
    split; [done|]. split; [done|]. split; [done|]. intros q Hq. lia.
  - destruct (Hsome j) as [v Hv]; [lia|].
    cbn [move_n].
    step by (eapply load_Ret; [exact Hl | exact Hv]).
    step by (eapply put_slot_Ret; [exact Hl | lia]).
    step by reflexivity. step by reflexivity.
    replace (Z.of_nat j + 1) with (Z.of_nat (S j)) by lia.
    replace (Z.of_nat i + 1) with (Z.of_nat (S i)) by lia.
    set (b1 := Storage (size_ b) (capacity_ b) (ref_count b) (<[i := Some v]> (data b))).
    destruct (IH (<[l := Some b1]> h) l b1 (S i) (S j)) as (sl & Hrun & Hlen' & Hout & Hin).
    + apply lookup_insert_eq.
    + lia.
    + unfold b1. cbn [data]. rewrite length_insert. lia.
    + intros q Hq. unfold b1. cbn [data].
      rewrite list_lookup_insert_ne by lia. apply Hsome. lia.
    + exists sl. rewrite Hrun. unfold b1 in *. cbn [size_ capacity_ ref_count data] in *.
      rewrite insert_insert_eq. split; [done|].
      rewrite length_insert in Hlen'. split; [done|]. split.
      * intros q Hq. rewrite Hout by lia. apply list_lookup_insert_ne. lia.
      * intros q Hq. destruct (decide (q = i)) as [->|Hne].
        -- rewrite Hout by lia. rewrite list_lookup_insert_eq by lia.
           by replace (i + (j - i))%nat with j by lia.
        -- rewrite Hin by lia. rewrite list_lookup_insert_ne by lia.
           f_equal; lia.
Qed.

(** The slots of a block after the elements from [j] on were moved to [i]
    on and the slots left over at the end were emptied. *)
Lemma erased_block xs (c : Z) (i j : nat) (sl : list (option T)) :
  (i ≤ j ≤ length xs)%nat → Z.of_nat (length xs) ≤ c →
  length sl = Z.to_nat c →
  (∀ q : nat, (q < i ∨ i + (length xs - j) ≤ q)%nat →
     sl !! q = ((Some <$> xs) ++ replicate (Z.to_nat c - length xs) None) !! q) →
  (∀ q : nat, (i ≤ q < i + (length xs - j))%nat →
     sl !! q = ((Some <$> xs) ++ replicate (Z.to_nat c - length xs) None) !! (q + (j - i))%nat) →
  blank (i + (length xs - j)) (j - i) sl
  = (Some <$> (take i xs ++ drop j xs))
    ++ replicate (Z.to_nat c - length (take i xs ++ drop j xs)) None.
Proof.
  intros Hij Hc Hlen Hout Hin.
  assert (length (take i xs ++ drop j xs) = (i + (length xs - j))%nat) as Hlen'.
  { rewrite length_app, length_take, length_drop. lia. }
  rewrite Hlen'.
  apply list_eq. intros q.
  destruct (decide (q < i)%nat) as [Hq|Hq].
  - rewrite blank_lookup_below by lia. rewrite Hout by lia.
    rewrite !lookup_app_l by (rewrite length_fmap, ?Hlen'; lia).
    rewrite !list_lookup_fmap. rewrite lookup_app_l by (rewrite length_take; lia).
    by rewrite lookup_take_lt.
  - destruct (decide (q < i + (length xs - j))%nat) as [Hq'|Hq'].
    + rewrite blank_lookup_below by lia. rewrite Hin by lia.
      rewrite !lookup_app_l by (rewrite length_fmap, ?Hlen'; lia).
      rewrite !list_lookup_fmap.
      rewrite lookup_app_r by (rewrite length_take; lia).
      rewrite length_take, lookup_drop. do 2 f_equal. lia.
    + rewrite (lookup_app_r (Some <$> _)) by (rewrite length_fmap, Hlen'; lia).
      rewrite length_fmap, Hlen'.
      destruct (decide (q < length xs)%nat) as [Hq2|Hq2].
      * rewrite blank_lookup by lia. symmetry. apply lookup_replicate_2. lia.
      * rewrite blank_lookup_above by lia. rewrite Hout by lia.
        rewrite lookup_app_r by (rewrite length_fmap; lia). rewrite length_fmap.
        destruct (decide (q < Z.to_nat c)%nat).
        -- rewrite !lookup_replicate_2 by lia. done.
        -- rewrite !lookup_ge_None_2; [done | |]; rewrite length_replicate; lia.
Qed.

Lemma ptr_diff_same {S} l (i k : Z) (s : S) :
  ptr_diff (data_at l i) (data_at l k) s = Ret (i - k) s.
Proof. unfold ptr_diff. by rewrite decide_True. Qed.

(** [erase] of a range that is not empty: up to the end of a block with
    any number of owners, or inside a block with a single owner. *)
Lemma erase_views h l xs c rc (i j : nat) :
  views h (Some l) xs c rc → (i < j ≤ length xs)%nat →
  rc = 1 ∨ (j = length xs ∧ copyable xs) →
  ∃ h' l',
    bigvector.erase (data_at l (Z.of_nat i)) (data_at l (Z.of_nat j))
      (BigVector h (Some l))
    = Ret (data_at l' (Z.of_nat i)) (BigVector h' (Some l'))
    ∧ views h' (Some l') (take i xs ++ drop j xs) c 1
    ∧ others_kept h (Some l) xs c rc h'.
Proof.
  intros Hv Hij Hcase.
  pose proof Hv as (Hl & Hc & Hrc).
  assert (Hsm : size_max = 2 ^ 64) by reflexivity.
  assert (wrap (Z.of_nat i - 0) = Z.of_nat i) as Hleft by (rewrite wrap_small; lia).
  assert (wrap (Z.of_nat j - 0) = Z.of_nat j) as Hright by (rewrite wrap_small; lia).
  assert (length (take i xs ++ drop j xs) = (i + (length xs - j))%nat) as Hlen'.
  { rewrite length_app, length_take, length_drop. lia. }
  unfold bigvector.erase.
  rewrite decide_False by (intros [=]; lia).
  step by reflexivity. step by (apply ptr_diff_same).
  step by reflexivity. step by (apply ptr_diff_same).
  rewrite Hleft, Hright.
  replace (wrap (Z.of_nat j - Z.of_nat i)) with (Z.of_nat (j - i))
    by (rewrite wrap_small; lia).
  run.
  destruct (decide (j = length xs)) as [Hj|Hj].
  - (* up to the end *)
    rewrite decide_True by (by rewrite Hj).
    assert (copyable xs ∨ rc = 1) as Hcopy by (destruct Hcase as [?|[_ ?]]; auto).
    assert (∃ h1 l1,
              bigvector.unique_copy (BigVector h (Some l)) = Ret tt (BigVector h1 (Some l1))
              ∧ h1 !! l1 = Some (Some (block_of xs c 1))
              ∧ others_kept h (Some l) xs c rc h1
              ∧ ((l1 = l ∧ rc = 1) ∨ (h !! l1 = None ∧ l1 ≠ l)))
      as (h1 & l1 & Hrun & Hl1 & Hkept & Hnew).
    { destruct Hcopy as [Hok| ->]; [by apply unique_copy_views|].
      exists h, l. split; [|split; [done|split; [by apply others_kept_refl|by left]]].
      unfold bigvector.unique_copy. run. }
    rewrite (bind_Ret _ _ _ _ _ Hrun). run.
    rewrite Z.add_0_l.
    step by (apply hp_Ret; eapply destroy_Ret;
             [ exact Hl1 | rewrite block_of_length by lia; lia ]).
    run. rewrite insert_insert_eq. cbn [size_ capacity_ ref_count data block_of].
    rewrite blank_block by lia.
    eexists _, l1. split; [reflexivity|]. split.
    + cbn [views]. rewrite lookup_insert_eq.
      rewrite Hj, drop_all, app_nil_r.
      assert (length (take i xs) = i) as -> by (rewrite length_take; lia).
      unfold block_of.
      assert (length (take i xs) = i) as -> by (rewrite length_take; lia).
      rewrite wrap_small by lia.
      replace (Z.of_nat (length xs) - Z.of_nat (length xs - i)) with (Z.of_nat i) by lia.
      split; [done|]. lia.
    + by apply others_kept_update.
  - (* inside the block *)
    destruct Hcase as [->|[? _]]; [|done].
    rewrite decide_False by (intros [=]; lia).
    run. change (1 >? 1) with false. cbv iota. run.
    rewrite !Z.add_0_l.
    destruct (move_n_Ret (length xs - j) h l (block_of xs c 1) i j)
      as (sl & Hmove & Hsl & Hout & Hin); [done | lia | | |].
    { rewrite block_of_length by lia. lia. }
    { intros q Hq. destruct (lookup_lt_is_Some_2 xs q) as [v Hv']; [lia|].
      exists v. by apply block_of_lookup. }
    step by (apply hp_Ret; unfold move;
             erewrite bind_Ret by (apply distance_Ret; lia);
             replace (Z.to_nat (Z.of_nat (length xs) - Z.of_nat j))
               with (length xs - j)%nat by lia;
             exact Hmove).
    run.
    replace (0 + Z.of_nat (length xs) + - Z.of_nat j + Z.of_nat i)
      with (Z.of_nat (i + (length xs - j))) by lia.
    step by (apply hp_Ret; eapply destroy_Ret;
             [ apply lookup_insert_eq | cbn [data]; rewrite Hsl, block_of_length by lia; lia ]).
    run. rewrite !insert_insert_eq. cbn [size_ capacity_ ref_count data block_of].
    replace (length xs - (i + (length xs - j)))%nat with (j - i)%nat by lia.
    rewrite (erased_block xs c i j sl); try done; try lia.
    2:{ rewrite Hsl, block_of_length by lia. done. }
    eexists _, l. split; [reflexivity|]. split.
    + cbn [views]. rewrite lookup_insert_eq. unfold block_of. rewrite Hlen'.
      rewrite wrap_small by lia.
      replace (Z.of_nat (length xs) - Z.of_nat (j - i))
        with (Z.of_nat (i + (length xs - j))) by lia.
      split; [done|]. lia.
    + apply others_kept_in_place.
Qed.
End Erase.

(** X16: [erase(beg, en)] removes exactly the range.  On a heap-backed
    vector that holds [xs], with iterators to the [i]-th and [j]-th
    element, [i < j <= size()], [erase] returns an iterator to the [i]-th
    slot and the vector holds [xs] without the elements from [i] up to
    [j], in a block of the same capacity that it owns alone; provided the
    vector is the only owner of its block, or the range ends at [end()]
    (then a shared block is cloned first).  Every other vector holds what
    it held. *)
Theorem X16_erase_range {T : Type} `{Element T}
    (h : heap T) (l : loc) (xs ys : list T) (c rc : Z) (i j : nat)
    (a : variant T) :
  views h (Some l) xs c rc → (i < j ≤ length xs)%nat →
  rc = 1 ∨ (j = length xs ∧ copyable xs) →
  represents h a ys → apart h (heap_buf (Some l)) a →
  ∃ h' l',
    vector.erase (data_at l (Z.of_nat i)) (data_at l (Z.of_nat j))
      (Vector h (heap_buf (Some l)))
    = Ret (data_at l' (Z.of_nat i)) (Vector h' (heap_buf (Some l')))
    ∧ views h' (Some l') (take i xs ++ drop j xs) c 1
    ∧ represents h' a ys.
Proof.
  intros Hv Hij Hcase Ha Hapart.
  destruct (erase_views h l xs c rc i j Hv Hij Hcase)
    as (h' & l' & Hrun & Hv' & Hkept).
  exists h', l'. split; [|split; [done|]].
  - unfold vector.erase. rewrite decide_False by (intros [=]; lia).
    step by reflexivity.
    change (2 =? 1) with false. cbv iota.
    by apply get2_Ret.
  - by apply (kept_represents h (Some l) xs c rc h' a ys).
Qed.

Lemma X16_erase_range_witness :
  ∃ h' l',
    vector.erase (data_at 1%positive (Z.of_nat 1)) (data_at 1%positive (Z.of_nat 3))
      (Vector (one_block [10; 20; 30; 40] 4 1) (heap_buf (Some 1%positive)))
    = Ret (data_at l' (Z.of_nat 1)) (Vector h' (heap_buf (Some l')))
    ∧ views h' (Some l') [10; 40] 4 1
    ∧ represents h' monostate [].
Proof.
  apply (X16_erase_range (one_block [10; 20; 30; 40] 4 1) 1%positive
           [10; 20; 30; 40] [] 4 1 1 3 monostate).
  - by_computing.
  - simpl. lia.
  - by left.
  - reflexivity.
  - exact I.
Defined.

(** X17: [erase(ind)] removes one element.  On a heap-backed vector that
    holds [xs], with an iterator to the [i]-th element, [i < size()],
    [erase] returns an iterator to the same slot and the vector holds [xs]
    without its [i]-th element; provided the vector is the only owner of
    its block, or the element is the last one.  Every other vector holds
    what it held. *)
Theorem X17_erase_one {T : Type} `{Element T}
    (h : heap T) (l : loc) (xs ys : list T) (c rc : Z) (i : nat)
    (a : variant T) :
  views h (Some l) xs c rc → (i < length xs)%nat →
  rc = 1 ∨ (S i = length xs ∧ copyable xs) →
  represents h a ys → apart h (heap_buf (Some l)) a →
  ∃ h' l',
    vector.erase_at (data_at l (Z.of_nat i)) (Vector h (heap_buf (Some l)))
    = Ret (data_at l' (Z.of_nat i)) (Vector h' (heap_buf (Some l')))
    ∧ views h' (Some l') (delete i xs) c 1
    ∧ represents h' a ys.
Proof.
  intros Hv Hi Hcase Ha Hapart.
  destruct (erase_views h l xs c rc i (S i) Hv) as (h' & l' & Hrun & Hv' & Hkept);
    [lia | done |].
  exists h', l'. split; [|split].
  - unfold vector.erase_at. step by reflexivity.
    replace (Z.of_nat i + 1) with (Z.of_nat (S i)) by lia.
    unfold vector.erase. rewrite decide_False by (intros [=]; lia).
    step by reflexivity.
    change (2 =? 1) with false. cbv iota.
    by apply get2_Ret.
  - by rewrite delete_take_drop.
  - by apply (kept_represents h (Some l) xs c rc h' a ys).
Qed.

Lemma X17_erase_one_witness :
  ∃ h' l',
    vector.erase_at (data_at 1%positive (Z.of_nat 1))
      (Vector (one_block [10; 20; 30] 4 1) (heap_buf (Some 1%positive)))
    = Ret (data_at l' (Z.of_nat 1)) (Vector h' (heap_buf (Some l')))
    ∧ views h' (Some l') [10; 30] 4 1
    ∧ represents h' monostate [].
Proof.
  apply (X17_erase_one (one_block [10; 20; 30] 4 1) 1%positive
           [10; 20; 30] [] 4 1 1 monostate).
  - by_computing.
  - simpl. lia.
  - by left.
  - reflexivity.
  - exact I.
Defined.

(** ** Inserting an element *)

Section InsertLoops.
Context {T : Type} `{Element T}.
Implicit Types (h : heap T) (l : loc) (st : option loc) (xs ys : list T).

(** Copying the elements [vs] that follow [src] in the source block to the
    end of the elements [pre] of another block that has room. *)
Lemma uninitialized_copy_n_at vs : ∀ pre src rest (m : nat) h l t bl bt (p0 : ptr),
  l ≠ t →
  h !! l = Some (Some bl) → h !! t = Some (Some bt) →
  data bl = (Some <$> (src ++ vs)) ++ rest →
  data bt = (Some <$> pre) ++ replicate (length vs + m) None →
  copyable vs →
  uninitialized_copy_n (data_at l (Z.of_nat (length src))) (length vs) p0
    (data_at t (Z.of_nat (length pre))) h
  = Ret tt (<[t := Some (Storage (size_ bt) (capacity_ bt) (ref_count bt)
                           ((Some <$> (pre ++ vs)) ++ replicate m None))]> h).
Proof.
  induction vs as [|v vs IH]; intros pre src rest m h l t bl bt p0 Hne Hl Ht Hdl Hdt Hok.
  - simpl. rewrite app_nil_r. simpl in Hdt. rewrite <- Hdt, storage_eta.
    by rewrite insert_id.
  - apply Forall_cons in Hok as [Hv Hok]. simpl.
    assert (data bl !! length src = Some (Some v)) as Hsrc.
    { rewrite Hdl, fmap_app, <- app_assoc.
      rewrite lookup_app_r by (rewrite length_fmap; lia).
      by rewrite length_fmap, Nat.sub_diag. }
    assert (length pre < length (data bt))%nat as Hroom.
    { rewrite Hdt, length_app, length_fmap, length_replicate. simpl. lia. }
    step by (eapply load_Ret; eassumption).
    step by (apply try_catch_Ret; apply construct_at_Ret; eassumption).
    step by reflexivity. step by reflexivity.
    replace (Z.of_nat (length src) + 1) with (Z.of_nat (length (src ++ [v])))
      by (rewrite length_app; simpl; lia).
    replace (Z.of_nat (length pre) + 1) with (Z.of_nat (length (pre ++ [v])))
      by (rewrite length_app; simpl; lia).
    set (bt' := Storage (size_ bt) (capacity_ bt) (ref_count bt)
                  (<[length pre := Some v]> (data bt))).
    rewrite (IH (pre ++ [v]) (src ++ [v]) rest m (<[t := Some bt']> h) l t bl bt' p0).
    + simpl. rewrite insert_insert_eq. by rewrite <- app_assoc.
    + done.
    + by rewrite lookup_insert_ne.
    + apply lookup_insert_eq.
    + by rewrite <- app_assoc.
    + simpl. rewrite Hdt. apply insert_after_prefix.
    + done.
Qed.

(** Reading [k] elements of a block from the [i]-th on. *)
Lemma load_n_block h l (b : storage T) ys rest (k : nat) : ∀ i : nat,
  h !! l = Some (Some b) → data b = (Some <$> ys) ++ rest →
  (i + k ≤ length ys)%nat →
  load_n (data_at l (Z.of_nat i)) k h = Ret (take k (drop i ys)) h.
Proof.
  induction k as [|k IH]; intros i Hl Hdata Hik; [done|].
  destruct (lookup_lt_is_Some_2 ys i) as [y Hy]; [lia|].
  cbn [load_n].
  step by (eapply load_Ret; [exact Hl|];
           rewrite Hdata, lookup_app_l by (rewrite length_fmap; lia);
           by rewrite list_lookup_fmap, Hy).
  step by reflexivity.
  replace (Z.of_nat i + 1) with (Z.of_nat (S i)) by lia.
  rewrite (bind_Ret _ _ _ _ _ (IH (S i) Hl Hdata ltac:(lia))).
  by rewrite (drop_S _ _ _ Hy).
Qed.

Lemma overwrite_step (sl : list (option T)) (i k : nat) (y : option T) (mid : list (option T)) :
  (i < length sl)%nat →
  take (S i) (<[i := y]> sl) ++ mid ++ drop (S i + k) (<[i := y]> sl)
  = take i sl ++ (y :: mid) ++ drop (i + S k) sl.
Proof.
  intros Hi. rewrite insert_take_drop by done.
  assert (length (take i sl) = i) as Hlen by (rewrite length_take; lia).
  rewrite take_app, drop_app, Hlen.
  rewrite take_ge by lia. rewrite (drop_ge (take i sl)) by lia.
  replace (S i - i)%nat with 1%nat by lia.
  replace (S i + k - i)%nat with (S k) by lia.
  simpl. rewrite take_0, drop_drop, <- app_assoc. simpl.
  by replace (S (i + k)) with (i + S k)%nat by lia.
Qed.

(** Writing the elements [vs] to the slots of a block from the [i]-th
    on. *)
Lemma store_n_Ret vs : ∀ h l (b : storage T) (i : nat),
  h !! l = Some (Some b) → (i + length vs ≤ length (data b))%nat →
  store_n (data_at l (Z.of_nat i)) vs h
  = Ret tt (<[l := Some (Storage (size_ b) (capacity_ b) (ref_count b)
                           (take i (data b) ++ (Some <$> vs)
                              ++ drop (i + length vs) (data b)))]> h).
Proof.
  induction vs as [|v vs IH]; intros h l b i Hl Hlen.
  - simpl. rewrite Nat.add_0_r, take_drop, storage_eta. by rewrite insert_id.
  - simpl in Hlen. cbn [store_n].
    step by (eapply put_slot_Ret; [exact Hl | lia]).
    step by reflexivity.
    replace (Z.of_nat i + 1) with (Z.of_nat (S i)) by lia.
    erewrite IH; [| apply lookup_insert_eq | cbn [data]; rewrite length_insert; lia ].
    cbn [size_ capacity_ ref_count data]. rewrite insert_insert_eq.
    by rewrite overwrite_step by lia.
Qed.
End InsertLoops.

Section Insert.
Context {T : Type} `{Element T}.
Implicit Types (h : heap T) (l : loc) (st : option loc) (xs ys : list T)
  (d a : variant T).

Lemma inserted_length xs (i : nat) (x : T) :
  length (take i xs ++ x :: drop i xs) = S (length xs).
Proof.
  rewrite length_app, length_cons, length_take, length_drop. lia.
Qed.

Lemma ptr_add_begin {S} l (k : Z) (s : S) :
  ptr_add (data_at l 0) k s = Ret (data_at l k) s.
Proof. unfold ptr_add, ret. by rewrite Z.add_0_l. Qed.

(** [insert] before the [i]-th element of a block. *)
Lemma insert_views h l xs c rc (i : nat) x :
  views h (Some l) xs c rc → (i ≤ length xs)%nat →
  copyable xs → copy_throws x = false →
  2 * Z.of_nat (length xs) < size_max →
  ∃ h' l',
    bigvector.insert (data_at l (Z.of_nat i)) x (BigVector h (Some l))
    = Ret (data_at l' (Z.of_nat i)) (BigVector h' (Some l'))
    ∧ views h' (Some l') (take i xs ++ x :: drop i xs) (grow (Z.of_nat (length xs)) c) 1
    ∧ others_kept h (Some l) xs c rc h'
    ∧ (l' = l ∨ h !! l' = None).
Proof.
  intros Hv Hi Hok Hx Hbound.
  pose proof Hv as (Hl & Hc & Hrc).
  assert (Hsm : size_max = 2 ^ 64) by reflexivity.
  pose proof (fresh_ne h l _ Hl) as Hne.
  assert (wrap (Z.of_nat i - 0) = Z.of_nat i) as Hindex by (rewrite wrap_small; lia).
  set (n := Z.of_nat (length xs)) in *.
  unfold bigvector.insert.
  step by reflexivity. step by (apply ptr_diff_same).
  rewrite Hindex. run. fold n.
  destruct (decide (i = length xs)) as [->|Hmid].
  - (* at the end *)
    rewrite decide_True by done.
    destruct (push_back_views h (Some l) xs c rc x Hv Hok Hx Hbound)
      as (h' & l' & Hrun & Hv' & Hkept & Hnew).
    rewrite (bind_Ret _ _ _ _ _ Hrun). run.
    exists h', l'. split; [apply ptr_add_begin|].
    rewrite firstn_all, drop_all. split; [done|]. split; [done|].
    destruct Hnew as [[= ->]|?]; auto.
  - rewrite decide_False by (intros [=]; lia).
    assert (length (take i xs) = i) as Hti by (rewrite length_take; lia).
    assert (length (drop i xs) = (length xs - i)%nat) as Hdi by (by rewrite length_drop).
    unfold bigvector.or_else. run. fold n.
    destruct (decide (n = c ∨ 2 ≤ rc)) as [Hgrow|Hstay].
    + (* a new block *)
      set (c' := grow n c).
      assert (n < c' < size_max) as Hc'.
      { unfold c', grow. destruct (n =? c) eqn:E; [|lia].
        destruct (c >? 0) eqn:E0; lia. }
      assert ((if n =? c then ret true
               else l0 <- bigvector.deref ;;
                    rc0 <- bigvector.hp (rd_ref_count l0) ;; ret (rc0 >? 1))
                (BigVector h (Some l)) = Ret true (BigVector h (Some l))) as Hcond.
      { destruct (n =? c) eqn:E; [done|]. run.
        destruct (rc >? 1) eqn:E1; [done|lia]. }
      rewrite (bind_Ret _ _ _ _ _ Hcond). cbv beta iota. clear Hcond.
      run. fold n.
      replace (if n =? c then if c >? 0 then wrap (c * 2) else 2 else c) with c'.
      2:{ unfold c', grow. destruct (n =? c) eqn:E; [|done].
          destruct (c >? 0) eqn:E0; [|done]. rewrite wrap_small; lia. }
      set (t := fresh (dom h)) in *.
      erewrite bind_Ret; [|
        apply try_catch_Ret; run; apply hp_Ret;
        eapply (uninitialized_copy_prefix _ l t xs c rc _ i (Z.to_nat c'));
          [done | lookup_tac | lookup_tac | reflexivity | lia | lia
          | by apply copyable_take] ].
      cbv beta iota. rewrite insert_insert_eq. cbn [size_ capacity_ ref_count].
      erewrite bind_Ret; [|
        apply try_catch_Ret; apply hp_Ret;
        eapply (construct_at_Ret _ t _ i x);
          [ apply lookup_insert_eq
          | cbn [data]; rewrite length_app, length_fmap, length_replicate, Hti; lia
          | done ] ].
      cbv beta iota. rewrite insert_insert_eq. cbn [size_ capacity_ ref_count data].
      replace (<[i := Some x]> ((Some <$> take i xs) ++ replicate (Z.to_nat c' - i) None))
        with ((Some <$> (take i xs ++ [x]))
                ++ replicate (length (drop i xs) + (Z.to_nat c' - S (length xs))) None).
      2:{ rewrite <- Hti at 3.
          replace (Z.to_nat c' - i)%nat
            with (S (length (drop i xs) + (Z.to_nat c' - S (length xs)))) by lia.
          by rewrite insert_after_prefix. }
      erewrite bind_Ret; [|
        apply try_catch_Ret; run; apply hp_Ret; unfold uninitialized_copy;
        erewrite bind_Ret by (apply distance_Ret; lia);
        replace (Z.to_nat (Z.of_nat (length xs) - Z.of_nat i))
          with (length (drop i xs)) by lia;
        replace (Z.of_nat i + 1) with (Z.of_nat (length (take i xs ++ [x])))
          by (rewrite length_app, Hti; simpl; lia);
        rewrite <- Hti at 1;
        eapply (uninitialized_copy_n_at (drop i xs) (take i xs ++ [x]) (take i xs)
                  (replicate (Z.to_nat c - length xs) None)
                  (Z.to_nat c' - S (length xs)) _ l t);
          [ done | lookup_tac | lookup_tac
          | cbn [data block_of]; by rewrite take_drop
          | reflexivity
          | unfold copyable; by apply Forall_drop ] ].
      cbv beta iota. rewrite insert_insert_eq. cbn [size_ capacity_ ref_count data].
      run. rewrite !insert_insert_eq. cbn [size_ capacity_ ref_count data].
      erewrite bind_Ret; [|
        apply (release_views _ l xs c rc); cbn [views];
        rewrite lookup_insert_ne by done; done ].
      cbv beta iota.
      run.
      eexists _, t. split; [apply ptr_add_begin|]. cbn [mem store].
      split; [|split; [|right; apply fresh_not_live]].
      * cbn [views]. rewrite lookup_insert_ne by done. rewrite lookup_insert_eq.
        unfold block_of. rewrite inserted_length.
        rewrite <- app_assoc. simpl. rewrite wrap_small by lia. fold n.
        replace (n + 1) with (Z.of_nat (S (length xs))) by lia.
        split; [done|]. lia.
      * unfold given_up. kept_tac.
    + (* in place *)
      assert (rc = 1) as -> by lia. assert (n < c) by lia.
      assert (grow n c = c) as ->.
      { unfold grow. destruct (n =? c) eqn:E; [lia|done]. }
      destruct (n =? c) eqn:E; [lia|]. run.
      change (1 >? 1) with false. cbv iota. run.
      step by (apply hp_Ret; eapply (construct_at_Ret _ l _ (length xs) x);
               [ exact Hl
               | cbn [data block_of]; rewrite length_app, length_fmap, length_replicate; lia
               | done ]).
      run. rewrite insert_insert_eq. cbn [size_ capacity_ ref_count data block_of].
      rewrite block_of_room by lia.
      rewrite Z.add_0_l. rewrite wrap_small by lia.
      replace (Z.of_nat (length xs) + 1 + -1) with (Z.of_nat (length xs)) by lia.
      set (b1 := Storage (Some (Z.of_nat (length xs) + 1)) (Some c) (Some 1)
                   ((Some <$> (xs ++ [x]))
                      ++ replicate (Z.to_nat c - length (xs ++ [x])) None)).
      assert (rotate (data_at l (Z.of_nat i)) (data_at l (Z.of_nat (length xs)))
                (data_at l (Z.of_nat (length xs) + 1)) (<[l := Some b1]> h)
              = Ret tt (<[l := Some (Storage (Some (Z.of_nat (length xs) + 1)) (Some c) (Some 1)
                                       ((Some <$> (take i xs ++ x :: drop i xs))
                                          ++ replicate (Z.to_nat c - S (length xs)) None))]>
                          (<[l := Some b1]> h))) as Hrot.
      { unfold rotate.
        step by (apply distance_Ret; lia).
        step by (apply distance_Ret; lia).
        replace (Z.to_nat (Z.of_nat (length xs) - Z.of_nat i)) with (length xs - i)%nat by lia.
        replace (Z.to_nat (Z.of_nat (length xs) + 1 - Z.of_nat (length xs))) with 1%nat by lia.
        erewrite bind_Ret;
          [| eapply (load_n_block _ l b1 (xs ++ [x]) _ (length xs - i) i);
             [ apply lookup_insert_eq | reflexivity | rewrite length_app; simpl; lia ] ].
        cbv beta iota.
        erewrite bind_Ret;
          [| eapply (load_n_block _ l b1 (xs ++ [x]) _ 1 (length xs));
             [ apply lookup_insert_eq | reflexivity | rewrite length_app; simpl; lia ] ].
        cbv beta iota.
        assert (take (length xs - i) (drop i (xs ++ [x])) = drop i xs) as ->.
        { rewrite drop_app_le by lia. rewrite <- Hdi. by rewrite take_app_length. }
        assert (take 1 (drop (length xs) (xs ++ [x])) = [x]) as ->.
        { by rewrite drop_app_length. }
        erewrite store_n_Ret; [| apply lookup_insert_eq |].
        2:{ unfold b1. cbn [data].
            repeat rewrite ?length_app, ?length_fmap, ?length_replicate, ?Hdi.
            simpl. lia. }
        unfold b1. cbn [size_ capacity_ ref_count data].
        do 4 f_equal.
        replace (i + length ([x] ++ drop i xs))%nat
          with (length (Some <$> xs ++ [x]) + 0)%nat
          by (repeat rewrite ?length_app, ?length_fmap, ?Hdi; simpl; lia).
        rewrite drop_app_add, drop_0.
        rewrite take_app_le by (rewrite length_fmap, length_app; simpl; lia).
        rewrite <- fmap_take, take_app_le by lia.
        rewrite app_assoc, <- fmap_app.
        replace (length (xs ++ [x])) with (S (length xs))
          by (rewrite length_app; simpl; lia).
        done. }
      step by (apply hp_Ret; exact Hrot).
      run. rewrite insert_insert_eq.
      eexists _, l. split; [apply ptr_add_begin|]. split; [|split; [|by left]].
      * cbn [views]. rewrite lookup_insert_eq.
        unfold block_of. rewrite inserted_length.
        replace (Z.of_nat (length xs) + 1) with (Z.of_nat (S (length xs))) by lia.
        split; [done|]. lia.
      * apply others_kept_in_place.
Qed.
End Insert.

Section InsertFacade.
Context {T : Type} `{Element T}.
Implicit Types (h : heap T) (l : loc) (st : option loc) (xs ys : list T)
  (d a : variant T).

(** The mutable [begin()] of a heap-backed vector. *)
Lemma begin_mut_views h l xs c rc :
  views h (Some l) xs c rc → copyable xs →
  ∃ h1 l1,
    vector.begin_mut (Vector h (heap_buf (Some l)))
    = Ret (data_at l1 0) (Vector h1 (heap_buf (Some l1)))
    ∧ h1 !! l1 = Some (Some (block_of xs c 1))
    ∧ others_kept h (Some l) xs c rc h1
    ∧ ((l1 = l ∧ rc = 1 ∧ h1 = h) ∨ (h !! l1 = None ∧ l1 ≠ l ∧ 2 ≤ rc)).
Proof.
  intros Hv Hok.
  destruct (unique_copy_views h l xs c rc Hv Hok)
    as (h1 & l1 & Hrun & Hl1 & Hkept & Hnew).
  exists h1, l1. split; [|split; [done|split; [done|]]].
  - unfold vector.begin_mut, vector.data_mut. step by reflexivity.
    change (2 =? 0) with false. change (2 =? 1) with false. cbv iota.
    apply get2_Ret. unfold bigvector.data_mut.
    rewrite (bind_Ret _ _ _ _ _ Hrun). by run.
  - destruct Hv as (Hl & Hc & Hrc).
    destruct Hnew as [[-> ->]|[Hnone Hne]].
    + left. split; [done|]. split; [done|].
      unfold bigvector.unique_copy in Hrun. revert Hrun. run.
      by intros [= <-].
    + right. split; [done|]. split; [done|].
      destruct (decide (rc = 1)) as [->|]; [|lia].
      unfold bigvector.unique_copy in Hrun. revert Hrun. run.
      intros [= <- <-]. done.
Qed.
End InsertFacade.

(** X18: [insert] puts the element where the iterator points.  On a
    heap-backed vector that is the only owner of a block holding [xs],
    with an iterator [pos] to the [i]-th slot, [i <= size()],
    [insert(pos, x)] returns an iterator to the [i]-th slot and the vector
    holds [xs] with [x] inserted before its [i]-th element; the capacity
    is the one [push_back] would leave.  Every other block of the heap is
    untouched.  For copies that do not throw and no overflow of
    [size_t]. *)
Theorem X18_insert {T : Type} `{Element T}
    (h : heap T) (l : loc) (xs : list T) (c : Z) (i : nat) (x : T) :
  views h (Some l) xs c 1 → (i ≤ length xs)%nat →
  copyable xs → copy_throws x = false →
  2 * Z.of_nat (length xs) < size_max →
  ∃ h' l',
    vector.insert (data_at l (Z.of_nat i)) x (Vector h (heap_buf (Some l)))
    = Ret (data_at l' (Z.of_nat i)) (Vector h' (heap_buf (Some l')))
    ∧ views h' (Some l') (take i xs ++ x :: drop i xs) (grow (Z.of_nat (length xs)) c) 1
    ∧ (∀ k, k ≠ l → is_Some (h !! k) → h' !! k = h !! k).
Proof.
  intros Hv Hi Hok Hx Hbound.
  destruct (begin_mut_views h l xs c 1 Hv Hok)
    as (h1 & l1 & Hbegin & _ & _ & [(-> & _ & ->)|(_ & _ & ?)]); [|lia].
  destruct (insert_views h l xs c 1 i x Hv Hi Hok Hx Hbound)
    as (h' & l' & Hrun & Hv' & [Hframe _] & _).
  exists h', l'. split; [|split; [done|]].
  - unfold vector.insert. apply with_tmp_unused.
    step by (apply on_this_Ret; exact Hbegin).
    step by (apply ptr_diff_same).
    step by reflexivity.
    change (2 =? 0) with false. change (2 =? 1) with false. cbv iota.
    apply on_this_Ret. by apply get2_Ret.
  - intros k Hk Hsome. apply Hframe; [congruence | done].
Qed.

Lemma X18_insert_witness :
  ∃ h' l',
    vector.insert (data_at 1%positive (Z.of_nat 1)) 15
      (Vector (one_block [10; 20; 30] 4 1) (heap_buf (Some 1%positive)))
    = Ret (data_at l' (Z.of_nat 1)) (Vector h' (heap_buf (Some l')))
    ∧ views h' (Some l') [10; 15; 20; 30] 4 1
    ∧ (∀ k, k ≠ 1%positive → is_Some (one_block [10; 20; 30] 4 1 !! k) →
         h' !! k = one_block [10; 20; 30] 4 1 !! k).
Proof.
  apply (X18_insert (one_block [10; 20; 30] 4 1) 1%positive [10; 20; 30] 4 1 15).
  - by_computing.
  - simpl. lia.
  - repeat constructor.
  - reflexivity.
  - by_computing.
Defined.

(** X19: [insert] on a vector that shares its block is undefined.  The
    facade computes [pos - begin()] with the mutable [begin()], which
    clones a shared block first; [pos] still points into the old block,
    so the difference is taken between pointers into two different
    blocks. *)
Theorem X19_insert_on_shared_block_undefined {T : Type} `{Element T}
    (h : heap T) (l : loc) (xs : list T) (c rc : Z) (i : Z) (x : T) :
  views h (Some l) xs c rc → 2 ≤ rc → copyable xs →
  vector.insert (data_at l i) x (Vector h (heap_buf (Some l))) = Undef.
Proof.
  intros Hv Hrc Hok.
  destruct (begin_mut_views h l xs c rc Hv Hok)
    as (h1 & l1 & Hbegin & _ & _ & [(_ & ? & _)|(_ & Hne & _)]); [lia|].
  unfold vector.insert, vector.with_tmp, finally.
  erewrite bind_Ret by (apply on_this_Ret; exact Hbegin).
  rewrite bind_Undef; [done|].
  unfold ptr_diff. by rewrite decide_False.
Qed.

Lemma X19_insert_on_shared_block_undefined_witness :
  vector.insert (data_at 1%positive 1) 15
    (Vector (one_block [10; 20; 30] 4 2) (heap_buf (Some 1%positive)))
  = Undef.
Proof.
  apply (X19_insert_on_shared_block_undefined (one_block [10; 20; 30] 4 2)
           1%positive [10; 20; 30] 4 2 1 15).
  - by_computing.
  - lia.
  - repeat constructor.
Defined.

(** ** Assignment *)

Section Assignment.
Context {T : Type} `{Element T}.
Implicit Types (h : heap T) (l : loc) (st : option loc) (xs ys : list T)
  (d a : variant T).

(** [operator=] of the buffer when it is the only owner of its block. *)
Lemma bigvector_assign_alone h l xs c sa ys :
  views h (Some l) xs c 1 →
  represents h (heap_buf sa) ys → can_share h (heap_buf sa) →
  ∃ h',
    bigvector.assign sa (BigVector h (Some l)) = Ret tt (BigVector h' sa)
    ∧ represents h' (heap_buf sa) ys
    ∧ (sa ≠ Some l → h' !! l = Some None).
Proof.
  intros (Hl & Hc & Hrc) (c' & rc' & Hva) Hshare.
  unfold bigvector.assign. step by reflexivity.
  destruct (decide (sa = Some l)) as [->|Hne].
  - exists h. split; [done|]. split; [by exists c', rc'|done].
  - run. rewrite !bind_assoc.
    change (data_at l 0) with (data_at l (Z.of_nat 0)).
    step by (apply hp_Ret; eapply destroy_Ret;
             [ exact Hl | rewrite block_of_length by lia; lia ]).
    step by (apply hp_Ret; eapply operator_delete_Ret; apply lookup_insert_eq).
    rewrite insert_insert_eq. step by reflexivity. cbn [mem store].
    destruct sa as [la|]; cbn [views] in Hva.
    + destruct Hva as (Hla & Hca & Hrca).
      destruct Hshare as (b & rc0 & Hb & Hrc0 & Hbound).
      assert (rc0 = rc') as -> by (rewrite Hla in Hb; injection Hb as <-; by injection Hrc0).
      assert (la ≠ l) by congruence.
      clear b Hb Hrc0.
      run.
      eexists. split; [apply hp_Ret; apply update_Ret; lookup_tac|].
      rewrite wrap_small by lia. split.
      * exists c', (rc' + 1). cbn [views]. rewrite lookup_insert_eq.
        split; [done|]. split; [done|lia].
      * intros _. rewrite lookup_insert_ne by done. apply lookup_insert_eq.
    + destruct Hva as [-> ->].
      eexists. split; [reflexivity|]. split.
      * by exists 0, 1.
      * intros _. apply lookup_insert_eq.
Qed.

Lemma views_alone h l xs c rc :
  views h (Some l) xs c rc → owns_alone h (heap_buf (Some l)) → rc = 1.
Proof.
  intros (Hl & _) (b & Hb & Hrc). rewrite Hl in Hb. injection Hb as <-.
  by injection Hrc.
Qed.

(** The destructor of the value a vector holds, when the vector is its
    only owner. *)
Lemma destroy_held_alone h d xs :
  represents h d xs → owns_alone h d →
  ∃ h0, vector.destroy_held (Vector h d) = Ret tt (Vector h0 d).
Proof.
  intros Hrep Halone. destruct d as [|x|[l|]]; [by exists h | by exists h | | done].
  destruct Hrep as (c & rc & Hv).
  pose proof (views_alone _ _ _ _ _ Hv Halone) as ->.
  destruct Hv as (Hl & Hc & _).
  exists (<[l := None]> h). unfold vector.destroy_held. cbn [vec_data].
  apply get2_Ret. apply (dtor_last h l xs c); [done | lia].
Qed.
End Assignment.

(** X20: [operator=] on a vector that owns alone what it holds.  For a
    vector that is Empty, or holds one element inline, or is the only
    owner of its block, [*this = a] returns and the vector has the
    [vec_data] of [a]: it holds what [a] holds, and shares the block of
    [a] when [a] is heap-backed, so that both hold the elements of [a]
    afterwards.  For an inline element of [a] whose copy does not
    throw. *)
Theorem X20_assign {T : Type} `{Element T}
    (h : heap T) (d a : variant T) (xs ys : list T) :
  represents h d xs → owns_alone h d →
  represents h a ys → copyable ys → can_share h a →
  ∃ h', vector.assign a (Vector h d) = Ret tt (Vector h' a)
        ∧ represents h' a ys.
Proof.
  intros Hd Halone Ha Hok Hshare.
  destruct a as [|y|sa]; cbn [vector.assign].
  - destruct (destroy_held_alone h d xs Hd Halone) as (h0 & Hrun).
    exists h0. split; [|done].
    unfold vector.assign_monostate. by rewrite (bind_Ret _ _ _ _ _ Hrun).
  - destruct (destroy_held_alone h d xs Hd Halone) as (h0 & Hrun).
    exists h0. split; [|done].
    simpl in Ha. subst ys. apply Forall_cons in Hok as [Hy _].
    unfold vector.assign_elem. rewrite Hy.
    by rewrite (bind_Ret _ _ _ _ _ Hrun).
  - unfold vector.assign_bigvector.
    destruct d as [|x|[l|]]; [| | |done].
    + step by reflexivity. change (0 =? 2) with false. cbv iota.
      destruct sa as [la|].
      * destruct Ha as (c' & rc' & Hla & Hca & Hrca).
        destruct Hshare as (b & rc0 & Hb & Hrc0 & Hbound).
        assert (rc0 = rc') as ->
          by (rewrite Hla in Hb; injection Hb as <-; by injection Hrc0).
        exists (<[la := Some (block_of ys c' (rc' + 1))]> h). split.
        -- erewrite bind_Ret;
             [| apply vhp_Ret; apply (copy_ctor_block h la ys c' rc'); [done | lia | lia] ].
           done.
        -- exists c', (rc' + 1). cbn [views]. rewrite lookup_insert_eq.
           split; [done|]. split; [done|lia].
      * by exists h.
    + step by reflexivity. change (1 =? 2) with false. cbv iota.
      destruct sa as [la|].
      * destruct Ha as (c' & rc' & Hla & Hca & Hrca).
        destruct Hshare as (b & rc0 & Hb & Hrc0 & Hbound).
        assert (rc0 = rc') as ->
          by (rewrite Hla in Hb; injection Hb as <-; by injection Hrc0).
        exists (<[la := Some (block_of ys c' (rc' + 1))]> h). split.
        -- erewrite bind_Ret;
             [| apply vhp_Ret; apply (copy_ctor_block h la ys c' rc'); [done | lia | lia] ].
           done.
        -- exists c', (rc' + 1). cbn [views]. rewrite lookup_insert_eq.
           split; [done|]. split; [done|lia].
      * by exists h.
    + destruct Hd as (c & rc & Hv).
      pose proof (views_alone _ _ _ _ _ Hv Halone) as ->.
      destruct (bigvector_assign_alone h l xs c sa ys Hv Ha Hshare)
        as (h' & Hrun & Hrep & _).
      exists h'. split; [|done].
      step by reflexivity. change (2 =? 2) with true. cbv iota.
      by apply get2_Ret.
Qed.

Lemma X20_assign_witness :
  ∃ h', vector.assign (heap_buf (Some 1%positive))
          (Vector (one_block [10; 20; 30] 4 1) (inline_elem 7))
        = Ret tt (Vector h' (heap_buf (Some 1%positive)))
        ∧ represents h' (heap_buf (Some 1%positive)) [10; 20; 30].
Proof.
  apply (X20_assign (one_block [10; 20; 30] 4 1) (inline_elem 7)
           (heap_buf (Some 1%positive)) [7] [10; 20; 30]).
  - reflexivity.
  - exact I.
  - exists 4, 1. by_computing.
  - repeat constructor.
  - eexists _, 1. by_computing.
Defined.

(** X21: [operator=] frees a block that other vectors still hold.  On a
    heap-backed vector whose block has other owners, assigning a vector
    that holds a different buffer returns, and the block is destroyed and
    freed whatever its reference count: the other owners are left with a
    freed block. *)
Theorem X21_assign_frees_shared_block {T : Type} `{Element T}
    (h : heap T) (l : loc) (xs ys : list T) (c rc : Z) (sa : option loc) :
  views h (Some l) xs c rc → 2 ≤ rc → sa ≠ Some l →
  represents h (heap_buf sa) ys → can_share h (heap_buf sa) →
  ∃ h', vector.assign (heap_buf sa) (Vector h (heap_buf (Some l)))
        = Ret tt (Vector h' (heap_buf sa))
        ∧ h' !! l = Some None.
Proof.
  intros (Hl & Hc & Hrc) Hshared Hne (c' & rc' & Hva) Hshare.
  assert (∃ h', bigvector.assign sa (BigVector h (Some l)) = Ret tt (BigVector h' sa)
                ∧ h' !! l = Some None) as (h' & Hrun & Hfreed).
  { unfold bigvector.assign. step by reflexivity.
    rewrite decide_False by done.
    run. rewrite !bind_assoc.
    change (data_at l 0) with (data_at l (Z.of_nat 0)).
    step by (apply hp_Ret; eapply destroy_Ret;
             [ exact Hl | rewrite block_of_length by lia; lia ]).
    step by (apply hp_Ret; eapply operator_delete_Ret; apply lookup_insert_eq).
    rewrite insert_insert_eq. step by reflexivity. cbn [mem store].
    destruct sa as [la|]; cbn [views] in Hva.
    - destruct Hva as (Hla & Hca & Hrca).
      assert (la ≠ l) by congruence. clear Hshare.
      run.
      eexists. split; [apply hp_Ret; apply update_Ret; lookup_tac|].
      rewrite lookup_insert_ne by done. apply lookup_insert_eq.
    - eexists. split; [reflexivity|]. apply lookup_insert_eq. }
  exists h'. split; [|done].
  cbn [vector.assign]. unfold vector.assign_bigvector.
  step by reflexivity. change (2 =? 2) with true. cbv iota.
  by apply get2_Ret.
Qed.

Lemma X21_assign_frees_shared_block_witness :
  ∃ h', vector.assign (heap_buf None)
          (Vector (one_block [10; 20; 30] 4 2) (heap_buf (Some 1%positive)))
        = Ret tt (Vector h' (heap_buf None))
        ∧ h' !! 1%positive = Some None.
Proof.
  apply (X21_assign_frees_shared_block (one_block [10; 20; 30] 4 2) 1%positive
           [10; 20; 30] [] 4 2 None).
  - by_computing.
  - lia.
  - discriminate.
  - exists 0, 1. by_computing.
  - exact I.
Defined.

(** X22: [operator=] on a heap-backed vector without a block dereferences
    null.  When [store] is null and the assigned vector holds a block,
    the branch taken is [store->ref_count--]. *)
Theorem X22_assign_to_null_store_undefined {T : Type} `{Element T}
    (h : heap T) (la : loc) :
  vector.assign (heap_buf (Some la)) (Vector h (heap_buf None)) = Undef.
Proof. reflexivity. Qed.

(** ** Ordering *)

Section Ordering.
Context {T : Type} `{Element T} `{Ordered T}.
Implicit Types (h : heap T) (l : loc) (st : option loc) (xs ys : list T)
  (d a b : variant T).

(** [std::lexicographical_compare] on two ranges, each read through its
    own iterators. *)
Lemma lexicographical_compare_n_Ret (ld1 ld2 : ptr → M (heap T) T) h
    (p q : nat → ptr) xs ys (n1 : nat) :
  ∀ (n2 j : nat),
  (j + n1)%nat = length xs → (j + n2)%nat = length ys →
  (∀ i : nat, (i < length xs)%nat → ptr_add (p i) 1 h = Ret (p (S i)) h) →
  (∀ i : nat, (i < length ys)%nat → ptr_add (q i) 1 h = Ret (q (S i)) h) →
  (∀ (i : nat) x, xs !! i = Some x → ld1 (p i) h = Ret x h) →
  (∀ (i : nat) y, ys !! i = Some y → ld2 (q i) h = Ret y h) →
  lexicographical_compare_n ld1 ld2 (p j) (q j) n1 n2 h
  = Ret (lex_less (drop j xs) (drop j ys)) h.
Proof.
  induction n1 as [|n1 IH]; intros n2 j Hn1 Hn2 Hp Hq Hx Hy.
  - rewrite (drop_ge xs) by lia. destruct n2 as [|n2].
    + rewrite (drop_ge ys) by lia. done.
    + destruct (lookup_lt_is_Some_2 ys j) as [y Hyj]; [lia|].
      by rewrite (drop_S _ _ _ Hyj).
  - destruct (lookup_lt_is_Some_2 xs j) as [x Hxj]; [lia|].
    rewrite (drop_S _ _ _ Hxj).
    destruct n2 as [|n2].
    + rewrite (drop_ge ys) by lia. done.
    + destruct (lookup_lt_is_Some_2 ys j) as [y Hyj]; [lia|].
      rewrite (drop_S _ _ _ Hyj).
      cbn [lexicographical_compare_n lex_less].
      rewrite (bind_Ret _ _ _ _ _ (Hx _ _ Hxj)).
      rewrite (bind_Ret _ _ _ _ _ (Hy _ _ Hyj)).
      destruct (less x y); [done|]. destruct (less y x); [done|].
      rewrite (bind_Ret _ _ _ _ _ (Hp j ltac:(lia))).
      rewrite (bind_Ret _ _ _ _ _ (Hq j ltac:(lia))).
      apply IH; try done; lia.
Qed.

(** [operator<] on two vectors that hold [xs] and [ys]. *)
Lemma lt_compares h a b xs ys :
  represents h a xs → represents h b ys →
  vector.lt a b h = Ret (lex_less xs ys) h.
Proof.
  intros Ha Hb. unfold vector.lt.
  rewrite (bind_Ret _ _ _ _ _ (range_begin h a xs Ha)).
  rewrite (bind_Ret _ _ _ _ _ (range_end h a xs Ha)).
  rewrite (bind_Ret _ _ _ _ _ (range_begin h b ys Hb)).
  rewrite (bind_Ret _ _ _ _ _ (range_end h b ys Hb)).
  unfold lexicographical_compare.
  rewrite (bind_Ret _ _ _ _ _ (range_distance h a xs Ha)).
  rewrite (bind_Ret _ _ _ _ _ (range_distance h b ys Hb)).
  rewrite (lexicographical_compare_n_Ret _ _ h (iterator_of a) (iterator_of b)
             xs ys (length xs) (length ys) 0); try done.
  - intros i Hi. by eapply range_next.
  - intros i Hi. by eapply range_next.
  - intros i x Hx. by eapply range_read.
  - intros i y Hy. by eapply range_read.
Qed.
End Ordering.

(** X23: the relational operators order vectors lexicographically.  For
    two vectors that hold [xs] and [ys], in any representations, [a < b]
    returns without changing anything and tells whether [xs] comes before
    [ys] in the lexicographic order of [operator<] of [T], where a proper
    prefix comes first; [a > b] is [b < a], [a <= b] is the negation of
    [b < a] and [a >= b] the negation of [a < b]. *)
Theorem X23_relational_operators {T : Type} `{Element T} `{Ordered T}
    (h : heap T) (a b : variant T) (xs ys : list T) :
  represents h a xs → represents h b ys →
  vector.lt a b h = Ret (lex_less xs ys) h
  ∧ vector.gt a b h = Ret (lex_less ys xs) h
  ∧ vector.le a b h = Ret (negb (lex_less ys xs)) h
  ∧ vector.ge a b h = Ret (negb (lex_less xs ys)) h.
Proof.
  intros Ha Hb.
  pose proof (lt_compares h a b xs ys Ha Hb) as Hlt.
  pose proof (lt_compares h b a ys xs Hb Ha) as Hgt.
  split; [done|]. split; [done|]. split.
  - unfold vector.le, vector.gt. by rewrite (bind_Ret _ _ _ _ _ Hgt).
  - unfold vector.ge. by rewrite (bind_Ret _ _ _ _ _ Hlt).
Qed.

Lemma X23_relational_operators_witness :
  vector.lt (inline_elem 10) (heap_buf (Some 1%positive)) (one_block [10; 20] 2 1)
  = Ret true (one_block [10; 20] 2 1)
  ∧ vector.gt (inline_elem 10) (heap_buf (Some 1%positive)) (one_block [10; 20] 2 1)
    = Ret false (one_block [10; 20] 2 1)
  ∧ vector.le (inline_elem 10) (heap_buf (Some 1%positive)) (one_block [10; 20] 2 1)
    = Ret true (one_block [10; 20] 2 1)
  ∧ vector.ge (inline_elem 10) (heap_buf (Some 1%positive)) (one_block [10; 20] 2 1)
    = Ret false (one_block [10; 20] 2 1).
Proof.
  assert (represents (one_block [10; 20] 2 1) (heap_buf (Some 1%positive)) [10; 20]) as Hb
    by (exists 2, 1; by_computing).
  exact (X23_relational_operators (one_block [10; 20] 2 1)
           (inline_elem 10) (heap_buf (Some 1%positive)) [10] [10; 20] eq_refl Hb).
Defined.

(** ** The fill constructor of the buffer *)

Section Fill.
Context {T : Type} `{Element T}.
Implicit Types (h : heap T) (l : loc) (st : option loc) (xs ys : list T).

End Fill.



(** ** When the copy of a held element throws *)

Section CloneThrows.
Context {T : Type} `{Element T}.
Implicit Types (h : heap T) (l : loc) (st : option loc) (xs ys : list T).

Lemma first_throwing xs :
  ¬ copyable xs →
  ∃ vs bad post, xs = vs ++ bad :: post ∧ copyable vs ∧ copy_throws bad = true.
Proof.
  induction xs as [|x xs IH]; intros Hno.
  - destruct Hno. constructor.
  - destruct (copy_throws x) eqn:Hx.
    + exists [], x, xs. split; [done|]. split; [constructor | done].
    + destruct IH as (vs & bad & post & -> & Hvs & Hbad).
      { intros Hxs. apply Hno. by constructor. }
      exists (x :: vs), bad, post. split; [done|]. split; [by constructor | done].
Qed.

Lemma blank_all (vs : list T) (m : nat) :
  blank 0 (length vs) ((Some <$> vs) ++ replicate m None)
  = replicate (length vs + m) None.
Proof.
  pose proof (blank_block vs (Z.of_nat (length vs + m)) 0) as Hb.
  rewrite Nat.sub_0_r, take_0 in Hb. simpl in Hb.
  replace (Z.to_nat (Z.of_nat (length vs + m)) - length vs)%nat with m in Hb by lia.
  rewrite Hb by lia. f_equal. lia.
Qed.

(** [std::uninitialized_copy] when the copy of an element throws: the
    copies made so far are destroyed, and the destination is as before. *)
Lemma uninitialized_copy_n_Raise vs2 : ∀ vs1 bad post rest (m k : nat) h l t bl bt,
  l ≠ t →
  h !! l = Some (Some bl) → h !! t = Some (Some bt) →
  data bl = (Some <$> (vs1 ++ vs2 ++ bad :: post)) ++ rest →
  data bt = (Some <$> vs1) ++ replicate (length vs2 + S m) None →
  copyable vs2 → copy_throws bad = true →
  uninitialized_copy_n (data_at l (Z.of_nat (length vs1))) (length vs2 + S k)
    (data_at t (Z.of_nat 0)) (data_at t (Z.of_nat (length vs1))) h
  = Raise element_exception
      (<[t := Some (Storage (size_ bt) (capacity_ bt) (ref_count bt)
                      (replicate (length vs1 + (length vs2 + S m)) None))]> h).
Proof.
  induction vs2 as [|v vs2 IH];
    intros vs1 bad post rest m k h l t bl bt Hne Hl Ht Hdl Hdt Hok Hbad.
  - cbn [length Nat.add app] in *.
    assert (data bl !! length vs1 = Some (Some bad)) as Hsrc.
    { rewrite Hdl, fmap_app, <- app_assoc.
      rewrite lookup_app_r by (rewrite length_fmap; lia).
      by rewrite length_fmap, Nat.sub_diag. }
    assert (length vs1 < length (data bt))%nat as Hroom.
    { rewrite Hdt, length_app, length_fmap, length_replicate. lia. }
    cbn [uninitialized_copy_n].
    step by (eapply load_Ret; eassumption).
    apply bind_Raise. erewrite try_catch_Raise by (by eapply construct_at_Raise).
    erewrite bind_Ret; [| eapply destroy_Ret; [exact Ht | lia] ].
    rewrite Nat.sub_0_r, Hdt, blank_all. done.
  - apply Forall_cons in Hok as [Hv Hok]. simpl.
    assert (data bl !! length vs1 = Some (Some v)) as Hsrc.
    { rewrite Hdl, fmap_app, <- app_assoc.
      rewrite lookup_app_r by (rewrite length_fmap; lia).
      by rewrite length_fmap, Nat.sub_diag. }
    assert (length vs1 < length (data bt))%nat as Hroom.
    { rewrite Hdt, length_app, length_fmap, length_replicate. simpl. lia. }
    step by (eapply load_Ret; eassumption).
    step by (apply try_catch_Ret; apply construct_at_Ret; eassumption).
    step by reflexivity. step by reflexivity.
    replace (Z.of_nat (length vs1) + 1) with (Z.of_nat (length (vs1 ++ [v])))
      by (rewrite length_app; simpl; lia).
    set (bt' := Storage (size_ bt) (capacity_ bt) (ref_count bt)
                  (<[length vs1 := Some v]> (data bt))).
    rewrite (IH (vs1 ++ [v]) bad post rest m k (<[t := Some bt']> h) l t bl bt').
    + simpl. rewrite insert_insert_eq. rewrite length_app. simpl.
      do 5 f_equal. lia.
    + done.
    + by rewrite lookup_insert_ne.
    + apply lookup_insert_eq.
    + by rewrite <- app_assoc.
    + simpl. rewrite Hdt. apply insert_after_prefix.
    + done.
    + done.
Qed.

(** The copy that every reallocating member function starts with, when
    the copy of an element throws: the new block is freed and the
    exception rethrown. *)
Lemma copy_all_Raise h l t xs c rc (K : nat) (hdr : storage T) :
  l ≠ t →
  h !! l = Some (Some (block_of xs c rc)) →
  h !! t = Some (Some hdr) → data hdr = replicate K None →
  (length xs ≤ K)%nat → ¬ copyable xs →
  try_catch
    (b <- bigvector.begin ;; e <- bigvector.end_ ;;
     bigvector.hp (uninitialized_copy b e (data_at t 0)))
    (fun e => bigvector.hp (operator_delete t) ;; throw e)
    (BigVector h (Some l))
  = Raise element_exception (BigVector (<[t := None]> h) (Some l)).
Proof.
  intros Hne Hl Ht Hdata HK Hno.
  destruct (first_throwing xs Hno) as (vs & bad & post & Hxs & Hvs & Hbad).
  assert (length xs = length vs + S (length post))%nat as Hlen
    by (rewrite Hxs, length_app; simpl; lia).
  erewrite try_catch_Raise.
  2:{ step by reflexivity.
      step by (eapply end_Ret; [exact Hl | reflexivity]).
      apply hp_Raise. unfold uninitialized_copy.
      erewrite bind_Ret by (apply distance_Ret; lia).
      replace (Z.to_nat (Z.of_nat (length xs) - 0)) with (length vs + S (length post))%nat
        by lia.
      change (data_at l 0) with (data_at l (Z.of_nat (length (@nil T)))).
      change (data_at t 0) with (data_at t (Z.of_nat (length (@nil T)))) at 2.
      change (data_at t 0) with (data_at t (Z.of_nat 0)).
      eapply (uninitialized_copy_n_Raise vs [] bad post
                (replicate (Z.to_nat c - length xs) None)
                (K - length vs - 1) (length post) _ l t);
        [ done | exact Hl | exact Ht
        | cbn [data block_of]; by rewrite Hxs
        | rewrite Hdata; simpl; f_equal; lia
        | done | done ]. }
  step by (apply hp_Ret; eapply operator_delete_Ret; apply lookup_insert_eq).
  by rewrite !insert_insert_eq.
Qed.

(** [unique_copy] of a shared block with an element whose copy throws. *)
Lemma unique_copy_throws h l xs c rc :
  views h (Some l) xs c rc → 2 ≤ rc → ¬ copyable xs →
  bigvector.unique_copy (BigVector h (Some l))
  = Raise element_exception (BigVector (<[fresh (dom h) := None]> h) (Some l)).
Proof.
  intros (Hl & Hc & Hrc) Hshared Hno.
  pose proof (fresh_ne h l _ Hl) as Hne.
  unfold bigvector.unique_copy. run.
  destruct (rc =? 1) eqn:E; [lia|]. clear E. run.
  set (t := fresh (dom h)) in *.
  apply bind_Raise.
  erewrite (copy_all_Raise _ l t xs c rc (Z.to_nat c));
    [ | done | lookup_tac | lookup_tac | reflexivity | lia | done ].
  by rewrite insert_insert_eq.
Qed.



End CloneThrows.

(** X25: a clone that fails is harmless.  On a heap-backed vector whose
    block has other owners and holds an element whose copy throws, every
    operation that starts by cloning the block throws that exception and
    leaves the vector, the shared block and every other block as they
    were (the block allocated for the clone is freed): [pop_back], the
    mutable [data()], [begin()], [front()], [back()], and the mutable
    [operator[]] with an index in range. *)
Theorem X25_failed_clone_changes_nothing {T : Type} `{Element T}
    (h : heap T) (l : loc) (xs : list T) (c rc : Z) :
  views h (Some l) xs c rc → 2 ≤ rc → ¬ copyable xs →
  ∃ h',
    (∀ k, is_Some (h !! k) → h' !! k = h !! k)
    ∧ vector.pop_back (Vector h (heap_buf (Some l)))
      = Raise element_exception (Vector h' (heap_buf (Some l)))
    ∧ vector.data_mut (Vector h (heap_buf (Some l)))
      = Raise element_exception (Vector h' (heap_buf (Some l)))
    ∧ vector.begin_mut (Vector h (heap_buf (Some l)))
      = Raise element_exception (Vector h' (heap_buf (Some l)))
    ∧ vector.front_mut (Vector h (heap_buf (Some l)))
      = Raise element_exception (Vector h' (heap_buf (Some l)))
    ∧ vector.back_mut (Vector h (heap_buf (Some l)))
      = Raise element_exception (Vector h' (heap_buf (Some l)))
    ∧ (∀ i, 0 ≤ i < Z.of_nat (length xs) →
         vector.index_mut i (Vector h (heap_buf (Some l)))
         = Raise element_exception (Vector h' (heap_buf (Some l)))).
Proof.
  intros Hv Hshared Hno.
  pose proof (unique_copy_throws h l xs c rc Hv Hshared Hno) as Hclone.
  destruct Hv as (Hl & Hc & Hrc).
  exists (<[fresh (dom h) := None]> h).
  split; [intros k Hk; by apply freed_kept|].
  assert (∀ (A : Type) (m : B T A),
            (∃ k : unit → B T A, ∀ s, m s = (bigvector.unique_copy ;; k tt) s) →
            vector.get2 m (Vector h (heap_buf (Some l)))
            = Raise element_exception
                (Vector (<[fresh (dom h) := None]> h) (heap_buf (Some l)))) as Hop.
  { intros A m [k Hm]. apply get2_Raise. rewrite Hm. by apply bind_Raise. }
  split; [|split; [|split; [|split; [|split]]]].
  - unfold vector.pop_back. step by reflexivity.
    change (2 =? 0) with false. change (2 =? 1) with false. cbv iota.
    apply Hop. by eexists (fun _ => _).
  - unfold vector.data_mut. step by reflexivity.
    change (2 =? 0) with false. change (2 =? 1) with false. cbv iota.
    apply Hop. by eexists (fun _ => _).
  - unfold vector.begin_mut, vector.data_mut. step by reflexivity.
    change (2 =? 0) with false. change (2 =? 1) with false. cbv iota.
    apply Hop. by eexists (fun _ => _).
  - unfold vector.front_mut. step by reflexivity.
    change (2 =? 1) with false. cbv iota.
    apply Hop. by eexists (fun _ => _).
  - unfold vector.back_mut. step by reflexivity.
    change (2 =? 1) with false. cbv iota.
    apply Hop. by eexists (fun _ => _).
  - intros i Hi. unfold vector.index_mut. step by reflexivity.
    change (2 =? 1) with false. cbv iota.
    apply get2_Raise. unfold bigvector.index_mut. run.
    destruct (i >=? Z.of_nat (length xs)) eqn:E; [apply Z.geb_le in E; lia|].
    by apply bind_Raise.
Qed.

Lemma X25_failed_clone_changes_nothing_witness :
  ∃ h',
    (∀ k, is_Some ((one_item_block [Int 1; Faulty] 2 2) !! k) →
       h' !! k = (one_item_block [Int 1; Faulty] 2 2) !! k)
    ∧ vector.pop_back
        (Vector (one_item_block [Int 1; Faulty] 2 2)
           (heap_buf (Some 1%positive)))
      = Raise element_exception (Vector h' (heap_buf (Some 1%positive)))
    ∧ vector.data_mut
        (Vector (one_item_block [Int 1; Faulty] 2 2)
           (heap_buf (Some 1%positive)))
      = Raise element_exception (Vector h' (heap_buf (Some 1%positive)))
    ∧ vector.begin_mut
        (Vector (one_item_block [Int 1; Faulty] 2 2)
           (heap_buf (Some 1%positive)))
      = Raise element_exception (Vector h' (heap_buf (Some 1%positive)))
    ∧ vector.front_mut
        (Vector (one_item_block [Int 1; Faulty] 2 2)
           (heap_buf (Some 1%positive)))
      = Raise element_exception (Vector h' (heap_buf (Some 1%positive)))
    ∧ vector.back_mut
        (Vector (one_item_block [Int 1; Faulty] 2 2)
           (heap_buf (Some 1%positive)))
      = Raise element_exception (Vector h' (heap_buf (Some 1%positive)))
    ∧ (∀ i, 0 ≤ i < Z.of_nat (length [Int 1; Faulty]) →
         vector.index_mut i
           (Vector (one_item_block [Int 1; Faulty] 2 2)
              (heap_buf (Some 1%positive)))
         = Raise element_exception (Vector h' (heap_buf (Some 1%positive)))).
Proof.
  apply (X25_failed_clone_changes_nothing
           (one_item_block [Int 1; Faulty] 2 2)
           1%positive [Int 1; Faulty] 2 2).
  - by_computing.
  - lia.
  - intros Hok. apply Forall_cons in Hok as [_ Hok].
    apply Forall_cons in Hok as [Hbad _]. discriminate.
Defined.

(** ** Promotion by [resize] and [insert] *)



Section InsertPromotes.
Context {T : Type} `{Element T}.
Implicit Types (h : heap T) (l : loc) (st : option loc) (xs ys : list T)
  (d a : variant T).

(** The mutable [begin()] on a block with other owners clones the
    block. *)
Lemma begin_mut_shared h l xs c rc :
  views h (Some l) xs c rc → 2 ≤ rc → copyable xs →
  vector.begin_mut (Vector h (heap_buf (Some l)))
  = Ret (data_at (fresh (dom h)) 0)
      (Vector (<[l := Some (block_of xs c (rc - 1))]>
                 (<[fresh (dom h) := Some (block_of xs c 1)]> h))
         (heap_buf (Some (fresh (dom h))))).
Proof.
  intros (Hl & Hc & Hrc) Hshared Hok.
  unfold vector.begin_mut, vector.data_mut. step by reflexivity.
  change (2 =? 0) with false. change (2 =? 1) with false. cbv iota.
  apply get2_Ret. unfold bigvector.data_mut.
  erewrite bind_Ret by (apply (unique_copy_shared h l xs c rc); by try lia).
  by run.
Qed.
End InsertPromotes.

(** X27: [insert] on a vector that holds one element inline.  With an
    iterator to the element ([i = 0]) or past it ([i = 1]),
    [insert(pos, x)] returns an iterator to the [i]-th slot of a new
    block, and the vector is heap-backed and holds the two elements in
    the order asked for, as the only owner of a block of capacity 2.  The
    block built in the temporary buffer is cloned once more by the
    mutable [begin()] of the return statement, and freed when the
    temporary is destroyed.  Every block that existed before is
    untouched.  For copies that do not throw. *)
Theorem X27_insert_promotes {T : Type} `{Element T}
    (h : heap T) (y x : T) (i : nat) :
  (i ≤ 1)%nat → copy_throws y = false → copy_throws x = false →
  ∃ h' l',
    vector.insert (inline_at (Z.of_nat i)) x (Vector h (inline_elem y))
    = Ret (data_at l' (Z.of_nat i)) (Vector h' (heap_buf (Some l')))
    ∧ views h' (Some l') (take i [y] ++ x :: drop i [y]) 2 1
    ∧ (∀ k, is_Some (h !! k) → h' !! k = h !! k).
Proof.
  intros Hi Hy Hx.
  assert (Hsm : size_max = 2 ^ 64) by reflexivity.
  set (E := take i [y] ++ x :: drop i [y]).
  pose proof (push_back_first h y Hy) as Hrun1.
  set (l1 := fresh (dom h)) in *.
  set (h1 := <[l1 := Some (block_of [y] 2 1)]> h) in *.
  assert (views h1 (Some l1) [y] 2 1) as Hv1.
  { cbn [views]. unfold h1. rewrite lookup_insert_eq. done. }
  destruct (insert_views h1 l1 [y] 2 1 i x Hv1)
    as (h2 & l2 & Hrun2 & Hv2 & Hkept2 & Hnew2); [done | by apply Forall_cons | done | done |].
  change (grow (Z.of_nat (length [y])) 2) with 2 in Hv2. fold E in Hv2.
  pose proof Hv2 as (Hl2 & Hc2 & _).
  assert (copyable E) as HokE.
  { unfold E. apply Forall_app. split; [by apply copyable_take; apply Forall_cons|].
    apply Forall_cons. split; [done|]. unfold copyable. apply Forall_drop. by apply Forall_cons. }
  set (h3 := <[l2 := Some (block_of E 2 2)]> h2).
  assert (views h3 (Some l2) E 2 2) as Hv3.
  { cbn [views]. unfold h3. rewrite lookup_insert_eq. split; [done|]. split; [done|lia]. }
  pose proof (begin_mut_shared h3 l2 E 2 2 Hv3 ltac:(lia) HokE) as Hbegin.
  set (l4 := fresh (dom h3)) in *.
  change (2 - 1) with 1 in Hbegin.
  set (h4 := <[l2 := Some (block_of E 2 1)]> (<[l4 := Some (block_of E 2 1)]> h3)) in *.
  assert (l4 ≠ l2) as Hne42.
  { apply (fresh_ne h3 l2 (Some (block_of E 2 2))). unfold h3. apply lookup_insert_eq. }
  exists (<[l2 := None]> h4), l4. split; [|split].
  - unfold vector.insert, vector.with_tmp, finally.
    assert (∀ A (m : F T A) r f, m (Frame (Vector h (inline_elem y)) None) = Ret r f →
              match m (Frame (Vector h (inline_elem y)) None) with
              | Ret a f0 =>
                  match vector.on_tmp bigvector.dtor f0 with
                  | Ret _ f1 => Ret a f1
                  | Raise e f1 => Raise e f1
                  | Undef => Undef
                  end
              | Raise e f0 =>
                  match vector.on_tmp bigvector.dtor f0 with
                  | Ret _ f1 => Raise e f1
                  | Raise e' f1 => Raise e' f1
                  | Undef => Undef
                  end
              | Undef => Undef
              end
              = match vector.on_tmp bigvector.dtor f with
                | Ret _ f1 => Ret r f1
                | Raise e f1 => Raise e f1
                | Undef => Undef
                end) as Hfin by (intros A m r f ->; reflexivity).
    erewrite Hfin.
    2:{ step by reflexivity.
        step by reflexivity.
        replace (wrap (Z.of_nat i - 0)) with (Z.of_nat i) by (rewrite wrap_small; lia).
        step by reflexivity.
        change (1 =? 0) with false. change (1 =? 1) with true. cbv iota.
        step by reflexivity.
        step by (apply on_tmp_Ret; exact Hrun1).
        step by reflexivity.
        step by reflexivity. rewrite Z.add_0_l.
        step by (apply on_tmp_Ret; exact Hrun2).
        step by (apply (assign_tmp_Ret h2 (inline_elem y) l2 E 2); [by intros [? [=]] | done]).
        step by (apply on_this_Ret; exact Hbegin).
        apply ptr_add_begin. }
    erewrite on_tmp_Ret.
    2:{ apply (dtor_last h4 l2 E 2); [unfold h4; apply lookup_insert_eq | lia]. }
    reflexivity.
  - cbn [views]. rewrite lookup_insert_ne by done.
    unfold h4. rewrite lookup_insert_ne by done. rewrite lookup_insert_eq.
    split; [done|]. split; [done|lia].
  - intros k Hk.
    assert (k ≠ l1) as Hk1.
    { destruct Hk as [v Hv]. apply fresh_ne in Hv. fold l1 in Hv. done. }
    assert (h1 !! k = h !! k) as Hh1 by (unfold h1; by rewrite lookup_insert_ne).
    assert (k ≠ l2) as Hk2.
    { destruct Hnew2 as [->|Hnone]; [done|]. intros ->.
      rewrite Hh1 in Hnone. rewrite Hnone in Hk. by destruct Hk. }
    assert (h2 !! k = h !! k) as Hh2.
    { rewrite <- Hh1. apply Hkept2; [congruence | by rewrite Hh1]. }
    assert (h3 !! k = h !! k) as Hh3 by (unfold h3; by rewrite lookup_insert_ne).
    assert (k ≠ l4) as Hk4.
    { intros ->. pose proof (fresh_not_live h3) as Hf. fold l4 in Hf.
      rewrite Hf in Hh3. rewrite <- Hh3 in Hk. by destruct Hk. }
    rewrite lookup_insert_ne by done. unfold h4.
    rewrite !lookup_insert_ne by done. done.
Qed.

Lemma X27_insert_promotes_witness :
  ∃ h' l',
    vector.insert (inline_at (Z.of_nat 0)) 5 (Vector (∅ : heap Z) (inline_elem 7))
    = Ret (data_at l' (Z.of_nat 0)) (Vector h' (heap_buf (Some l')))
    ∧ views h' (Some l') [5; 7] 2 1
    ∧ (∀ k, is_Some ((∅ : heap Z) !! k) → h' !! k = (∅ : heap Z) !! k).
Proof.
  apply (X27_insert_promotes (∅ : heap Z) 7 5 0).
  - lia.
  - reflexivity.
  - reflexivity.
Defined.



(** ** Observers and iterators *)

(** X29: the const observers agree with each other.  For a vector that
    holds [xs], in any representation, [size()] is the number of
    elements, [empty()] tells whether there are none, [capacity()] is at
    least [size()], [end() - begin()] is [size()], and reading from
    [begin()] to [end()] gives [xs]; none of them changes the vector or
    the heap. *)
Theorem X29_const_observers {T : Type} `{Element T}
    (h : heap T) (a : variant T) (xs : list T) :
  represents h a xs →
  let s := Vector h a in
  vector.size s = Ret (Z.of_nat (length xs)) s
  ∧ vector.empty s = Ret (match xs with [] => true | _ => false end) s
  ∧ (∃ c, vector.capacity s = Ret c s ∧ Z.of_nat (length xs) ≤ c)
  ∧ (b <- vector.begin_const ;; e <- vector.end_const ;; ptr_diff e b) s
    = Ret (Z.of_nat (length xs)) s
  ∧ contents s = Ret xs s.
Proof.
  intros Hrep s. unfold s.
  pose proof (represents_size h a xs Hrep) as Hsize.
  split; [done|]. split; [|split; [|split]].
  - unfold vector.empty. rewrite (bind_Ret _ _ _ _ _ Hsize). by destruct xs.
  - destruct a as [|x|[l|]]; simpl in Hrep.
    + subst xs. by exists 0.
    + subst xs. by exists 1.
    + destruct Hrep as (c & rc & Hl & Hc & _). exists c.
      split; [by eapply block_capacity | lia].
    + destruct Hrep as (c & rc & -> & _). by exists 0.
  - destruct a as [|x|[l|]]; simpl in Hrep.
    + by subst xs.
    + by subst xs.
    + step by reflexivity.
      erewrite bind_Ret.
      2:{ unfold vector.end_const. step by reflexivity.
          rewrite (bind_Ret _ _ _ _ _ Hsize). reflexivity. }
      cbv beta iota. rewrite ptr_diff_same. f_equal. lia.
    + by destruct Hrep as (c & rc & -> & _).
  - by apply represents_contents.
Qed.

Lemma X29_const_observers_witness :
  let s := Vector (one_block [10; 20; 30] 4 1) (heap_buf (Some 1%positive)) in
  vector.size s = Ret 3 s
  ∧ vector.empty s = Ret false s
  ∧ (∃ c, vector.capacity s = Ret c s ∧ 3 ≤ c)
  ∧ (b <- vector.begin_const ;; e <- vector.end_const ;; ptr_diff e b) s = Ret 3 s
  ∧ contents s = Ret [10; 20; 30] s.
Proof.
  assert (represents (one_block [10; 20; 30] 4 1) (heap_buf (Some 1%positive)) [10; 20; 30])
    as Hrep by (exists 4, 1; by_computing).
  exact (X29_const_observers (one_block [10; 20; 30] 4 1)
           (heap_buf (Some 1%positive)) [10; 20; 30] Hrep).
Defined.

(** X30: the mutable [begin()] and [end()] give iterators into a block of
    the vector's own.  On a heap-backed vector that holds [xs],
    [begin()] returns a pointer to the first slot of a block that the
    vector owns alone and that holds [xs] with the same capacity: its
    block when it was the only owner (then nothing changes), a clone
    otherwise.  [end()] after it points [size()] slots further in the
    same block and changes nothing.  Every other vector, also one that
    shared the block, holds what it held. *)
Theorem X30_mutable_iterators {T : Type} `{Element T}
    (h : heap T) (l : loc) (xs ys : list T) (c rc : Z) (a : variant T) :
  views h (Some l) xs c rc → copyable xs →
  represents h a ys → apart h (heap_buf (Some l)) a →
  ∃ h1 l1,
    vector.begin_mut (Vector h (heap_buf (Some l)))
    = Ret (data_at l1 0) (Vector h1 (heap_buf (Some l1)))
    ∧ views h1 (Some l1) xs c 1
    ∧ vector.end_mut (Vector h1 (heap_buf (Some l1)))
      = Ret (data_at l1 (Z.of_nat (length xs))) (Vector h1 (heap_buf (Some l1)))
    ∧ (rc = 1 → h1 = h ∧ l1 = l)
    ∧ represents h1 a ys.
Proof.
  intros Hv Hok Ha Hapart.
  destruct (begin_mut_views h l xs c rc Hv Hok)
    as (h1 & l1 & Hbegin & Hl1 & Hkept & Hnew).
  pose proof Hv as (_ & Hc & _).
  assert (views h1 (Some l1) xs c 1) as Hv1.
  { cbn [views]. split; [done|]. split; [done|]. done. }
  exists h1, l1. split; [done|]. split; [done|]. split; [|split].
  - destruct (begin_mut_views h1 l1 xs c 1 Hv1 Hok)
      as (h2 & l2 & Hbegin2 & _ & _ & [(-> & _ & ->)|(_ & _ & ?)]); [|lia].
    unfold vector.end_mut. rewrite (bind_Ret _ _ _ _ _ Hbegin2).
    erewrite bind_Ret
      by (apply (represents_size h1 (heap_buf (Some l1)) xs); by exists c, 1).
    apply ptr_add_begin.
  - intros ->. destruct Hnew as [(-> & _ & ->)|(_ & _ & ?)]; [done|lia].
  - by apply (kept_represents h (Some l) xs c rc h1 a ys).
Qed.

Lemma X30_mutable_iterators_witness :
  ∃ h1 l1,
    vector.begin_mut (Vector (one_block [10; 20; 30] 4 2) (heap_buf (Some 1%positive)))
    = Ret (data_at l1 0) (Vector h1 (heap_buf (Some l1)))
    ∧ views h1 (Some l1) [10; 20; 30] 4 1
    ∧ vector.end_mut (Vector h1 (heap_buf (Some l1)))
      = Ret (data_at l1 (Z.of_nat (length [10; 20; 30]))) (Vector h1 (heap_buf (Some l1)))
    ∧ (2 = 1 → h1 = one_block [10; 20; 30] 4 2 ∧ l1 = 1%positive)
    ∧ represents h1 (heap_buf (Some 1%positive)) [10; 20; 30].
Proof.
  apply (X30_mutable_iterators (one_block [10; 20; 30] 4 2) 1%positive
           [10; 20; 30] [10; 20; 30] 4 2 (heap_buf (Some 1%positive))).
  - by_computing.
  - repeat constructor.
  - exists 4, 2. by_computing.
  - intros _. eexists _, 2. by_computing.
Defined.
